(** * opencode-feishu-bot: lane scheduler and streaming-card assembler

    A shallow embedding of four modules of the bot.

    - [LaneQueue] (queue/lane-queue.ts): one FIFO-with-priority queue per
      session key, a global concurrency ceiling, steer, abort and clear.
      The scheduler object is a record that every operation takes and
      returns.  JavaScript runs one synchronous piece of code at a time, so
      an execution is a sequence of steps: a public call, or the resumption
      of a lane's pump when the race between the running handler and its
      timer has ended.  Handlers are asynchronous functions: they do not
      throw before their first [await] and do not call the scheduler before
      it.  What a task's [resolve] and [reject] are called with is kept in
      a log.
    - [Card] (the Feishu card formatter): [buildStreamingCardsV2], which
      groups the ordered message parts, renders each group to card elements
      and packs the elements into cards of bounded size.  Cards and
      elements are JavaScript objects, modelled as JSON values whose
      properties are in insertion order; [JSON.stringify], the string
      functions and [node:path] (POSIX) are in [Js].  The other formatters
      of the module are there too.
    - [QuestionCard] (feishu/question-card.ts): the card that puts the
      questions of a request to the user.
    - [AuthManager] (the permission module): administrators and the whitelist,
      over a database that is a parameter.

    Counters, sizes and lengths are integers ([Z], or [nat] for the two
    page counters); strings are sequences of UTF-16 code units, so that
    [.length] and [.slice] count what JavaScript counts. *)

From Stdlib Require Import List ZArith NArith Lia Bool String Ascii Decimal DecimalNat.
From Stdlib Require Import Sorted Permutation.
Import ListNotations.


(** [.length] of an array or of a string. *)
Definition len {A} (l : list A) : Z := Z.of_nat (List.length l).

(** [o ?? d]. *)
Definition orElse {A} (o : option A) (d : A) : A :=
  match o with Some a => a | None => d end.

(* ================================================================== *)
(** * JavaScript strings, JSON and paths *)
(* ================================================================== *)

Module Js.

Open Scope Z_scope.

(** A string is its sequence of UTF-16 code units. *)
Definition jsstring := list N.

(** A literal of ASCII characters. *)
Definition lit (s : string) : jsstring :=
  map N_of_ascii (list_ascii_of_string s).
Arguments lit s%_string.

Definition codeEqb (a b : N) : bool := N.eqb a b.

Fixpoint streqb (a b : jsstring) : bool :=
  match a, b with
  | [], [] => true
  | x :: a', y :: b' => codeEqb x y && streqb a' b'
  | _, _ => false
  end.

(** [s.slice(0, n)] for a non-negative [n]. *)
Definition slice0 (n : Z) (s : jsstring) : jsstring := firstn (Z.to_nat n) s.

(** [parts.join(sep)]. *)
Fixpoint join (sep : jsstring) (parts : list jsstring) : jsstring :=
  match parts with
  | [] => []
  | [p] => p
  | p :: rest => p ++ sep ++ join sep rest
  end.

Fixpoint startsWith (p s : jsstring) : bool :=
  match p, s with
  | [], _ => true
  | x :: p', y :: s' => codeEqb x y && startsWith p' s'
  | _ :: _, [] => false
  end.

(** [s.includes(p)]. *)
Fixpoint includes (p s : jsstring) : bool :=
  startsWith p s ||
  match s with
  | [] => false
  | _ :: s' => includes p s'
  end.

(** [toLowerCase], as far as the comparisons of this module with the words
    path, file, workdir and the status names can tell: the letters A to Z
    and the Kelvin sign become ASCII letters.  The other code units are
    left as they are: their lower case is not ASCII (U+0130 gives an i that
    a combining dot follows, so it completes none of those words). *)
Definition lowerCode (c : N) : N :=
  if (N.leb 65 c && N.leb c 90)%bool then (c + 32)%N
  else if codeEqb c 8490 then 107%N
  else c.
Definition toLowerCase (s : jsstring) : jsstring := map lowerCode s.

(** White space and line terminators, as [trim] strips them. *)
Definition isWhiteSpace (c : N) : bool :=
  existsb (codeEqb c)
    [9; 10; 11; 12; 13; 32; 160; 5760; 8232; 8233; 8239; 8287; 12288; 65279]%N
  || (N.leb 8192 c && N.leb c 8202).

(** [s.trim()] is a non-empty string. *)
Definition trimTruthy (s : jsstring) : bool :=
  existsb (fun c => negb (isWhiteSpace c)) s.

(** Decimal digits of a counter, as a template literal prints it. *)
Fixpoint digits (d : Decimal.uint) : jsstring :=
  match d with
  | Nil => []
  | D0 d' => 48%N :: digits d'
  | D1 d' => 49%N :: digits d'
  | D2 d' => 50%N :: digits d'
  | D3 d' => 51%N :: digits d'
  | D4 d' => 52%N :: digits d'
  | D5 d' => 53%N :: digits d'
  | D6 d' => 54%N :: digits d'
  | D7 d' => 55%N :: digits d'
  | D8 d' => 56%N :: digits d'
  | D9 d' => 57%N :: digits d'
  end.

Definition natToString (n : nat) : jsstring := digits (Nat.to_uint n).

(** A number as a template literal or [JSON.stringify] prints it, for the
    integers JavaScript holds exactly (of absolute value below 2^53): the
    decimal digits.  Larger numbers lose digits, and from 1e21 on print in
    exponent form; they and the fractions are outside the values modelled. *)
Definition numberToString (z : Z) : jsstring :=
  match Z.to_int z with
  | Pos d => digits d
  | Neg d => 45%N :: digits d
  end.

(** ** Values and JSON.stringify

    The values that reach the formatter come from parsed JSON; [VUndefined]
    is there because the code tests for it.  Numbers are the integers
    JavaScript holds exactly, which print as their decimal digits (see
    [numberToString]). *)
#[local] Unset Elimination Schemes.
Inductive jsval :=
| VUndefined
| VNull
| VBool (b : bool)
| VNum (z : Z)
| VStr (s : jsstring)
| VArr (items : list jsval)
| VObj (props : list (jsstring * jsval)).
#[local] Set Elimination Schemes.

Definition hexDigit (n : N) : N :=
  if N.ltb n 10 then (48 + n)%N else (87 + n)%N.

(** The escape [\uXXXX] of a code unit. *)
Definition unicodeEscape (c : N) : jsstring :=
  [92; 117; hexDigit (N.modulo (N.div c 4096) 16);
   hexDigit (N.modulo (N.div c 256) 16);
   hexDigit (N.modulo (N.div c 16) 16); hexDigit (N.modulo c 16)]%N.

Definition isLeadSurrogate (c : N) : bool := N.leb 55296 c && N.leb c 56319.
Definition isTrailSurrogate (c : N) : bool := N.leb 56320 c && N.leb c 57343.

(** QuoteJSONString without the surrounding quotes: short escapes for
    backspace, tab, line feed, form feed, carriage return, the double quote
    and the backslash; [\uXXXX] for the other control characters and for
    lone surrogates; everything else as it is. *)
Fixpoint quoteBody (s : jsstring) : jsstring :=
  match s with
  | [] => []
  | c :: rest =>
      if codeEqb c 8 then [92; 98]%N ++ quoteBody rest
      else if codeEqb c 9 then [92; 116]%N ++ quoteBody rest
      else if codeEqb c 10 then [92; 110]%N ++ quoteBody rest
      else if codeEqb c 12 then [92; 102]%N ++ quoteBody rest
      else if codeEqb c 13 then [92; 114]%N ++ quoteBody rest
      else if codeEqb c 34 then [92; 34]%N ++ quoteBody rest
      else if codeEqb c 92 then [92; 92]%N ++ quoteBody rest
      else if N.ltb c 32 then unicodeEscape c ++ quoteBody rest
      else if isLeadSurrogate c then
        match rest with
        | d :: rest' =>
            if isTrailSurrogate d then c :: d :: quoteBody rest'
            else unicodeEscape c ++ quoteBody rest
        | [] => unicodeEscape c
        end
      else if isTrailSurrogate c then unicodeEscape c ++ quoteBody rest
      else c :: quoteBody rest
  end.

Definition quoteJSONString (s : jsstring) : jsstring :=
  [34%N] ++ quoteBody s ++ [34%N].

(** [JSON.stringify(v)]: [None] is the result [undefined].  A property whose
    value has no JSON text is left out of an object and printed as [null]
    in an array. *)
Fixpoint stringify (v : jsval) : option jsstring :=
  match v with
  | VUndefined => None
  | VNull => Some (lit "null")
  | VBool true => Some (lit "true")
  | VBool false => Some (lit "false")
  | VNum z => Some (numberToString z)
  | VStr s => Some (quoteJSONString s)
  | VArr items =>
      Some (lit "[" ++
            join (lit ",")
              (map (fun x => match stringify x with
                             | Some t => t
                             | None => lit "null"
                             end) items) ++
            lit "]")
  | VObj props =>
      Some (lit "{" ++
            join (lit ",")
              (flat_map (fun kv => match stringify (snd kv) with
                                   | Some t => [quoteJSONString (fst kv) ++ lit ":" ++ t]
                                   | None => []
                                   end) props) ++
            lit "}")
  end.

(** ** node:path on POSIX

    [isAbsolute] looks at the first character.  [resolve(cwd, value)] of an
    absolute [cwd] and a relative, non-empty [value] normalises
    [cwd/value]: empty segments and [.] are dropped, [..] removes the
    segment before it (and nothing at the root), and the result starts with
    one slash. *)
Definition isAbsolute (p : jsstring) : bool :=
  match p with
  | c :: _ => codeEqb c 47
  | [] => false
  end.

(** Splitting at the slashes; [seg] is the segment read so far, reversed. *)
Fixpoint splitSlash (seg : jsstring) (p : jsstring) : list jsstring :=
  match p with
  | [] => [List.rev seg]
  | c :: rest =>
      if codeEqb c 47 then List.rev seg :: splitSlash [] rest
      else splitSlash (c :: seg) rest
  end.

(** The segments kept so far are in [acc], last one first. *)
Fixpoint normalizeSegments (acc : list jsstring) (segs : list jsstring)
  : list jsstring :=
  match segs with
  | [] => List.rev acc
  | s :: rest =>
      if streqb s [] || streqb s (lit ".") then normalizeSegments acc rest
      else if streqb s (lit "..") then normalizeSegments (tl acc) rest
      else normalizeSegments (s :: acc) rest
  end.

Definition resolve (cwd value : jsstring) : jsstring :=
  if isAbsolute value then
    lit "/" ++ join (lit "/") (normalizeSegments [] (splitSlash [] value))
  else
    lit "/" ++ join (lit "/")
      (normalizeSegments [] (splitSlash [] (cwd ++ lit "/" ++ value))).

(** What a call can read from the process it runs in. *)
Record Process := mkProcess {
  cwd : jsstring           (* process.cwd() *)
}.

(** ** More string functions *)

(** [s.trim()]. *)
Fixpoint trimStart (s : jsstring) : jsstring :=
  match s with
  | [] => []
  | c :: rest => if isWhiteSpace c then trimStart rest else s
  end.

Definition trim (s : jsstring) : jsstring :=
  List.rev (trimStart (List.rev (trimStart s))).

(** [s.split(sep)] for a separator of one code unit; [seg] is the piece
    read so far, reversed. *)
Fixpoint splitOn (sep : N) (seg : jsstring) (s : jsstring) : list jsstring :=
  match s with
  | [] => [List.rev seg]
  | c :: rest =>
      if codeEqb c sep then List.rev seg :: splitOn sep [] rest
      else splitOn sep (c :: seg) rest
  end.

Definition split (sep : N) (s : jsstring) : list jsstring := splitOn sep [] s.

(** [s.replace(/c/g, rep)] for a pattern of one code unit. *)
Definition replaceCode (c : N) (rep : jsstring) (s : jsstring) : jsstring :=
  flat_map (fun x => if codeEqb x c then rep else [x]) s.

End Js.

(* ================================================================== *)
(** * The lane scheduler *)
(* ================================================================== *)

Module LaneQueue.

Open Scope Z_scope.

(** [QueueMode] and [OverflowStrategy] are string-literal unions. *)
Inductive QueueMode := collect | steer | followup.
Inductive OverflowStrategy := drop | reject | wait.

Definition QueueMode_eqb (a b : QueueMode) : bool :=
  match a, b with
  | collect, collect | steer, steer | followup, followup => true
  | _, _ => false
  end.

(** A queued task.  The handler closure is opaque to the scheduler: it is
    called once, when the task is dequeued, and the promise it returns
    settles later (see [Resume] below).  The [resolve]/[reject] callbacks of
    the task are modelled by the settlement log of the scheduler state.
    [id] is the number [n] of the identifier [task_n]. *)
Record QueuedTask := mkTask {
  id : nat;
  sessionKey : string;
  mode : QueueMode;
  priority : Z;
  createdAt : Z
}.

(** The configuration after the constructor has filled in the defaults. *)
Record LaneQueueConfig := mkConfig {
  maxConcurrency : Z;
  maxQueueSize : Z;
  defaultMode : QueueMode;
  overflowStrategy : OverflowStrategy;
  taskTimeoutMs : Z
}.

(** What the caller may pass to the constructor. *)
Record LaneQueueOptions := mkOptions {
  optMaxConcurrency : option Z;
  optMaxQueueSize : option Z;
  optDefaultMode : option QueueMode;
  optOverflowStrategy : option OverflowStrategy;
  optTaskTimeoutMs : option Z
}.

Definition constructor (o : LaneQueueOptions) : LaneQueueConfig :=
  {| maxConcurrency := orElse (optMaxConcurrency o) 10;
     maxQueueSize := orElse (optMaxQueueSize o) 100;
     defaultMode := orElse (optDefaultMode o) collect;
     overflowStrategy := orElse (optOverflowStrategy o) wait;
     taskTimeoutMs := orElse (optTaskTimeoutMs o) 300000 |}.

Record Lane := mkLane {
  queue : list QueuedTask;
  processing : bool;
  currentTask : option QueuedTask
}.

(** The errors a task's promise is rejected with, and the errors [enqueue]
    throws before a task exists. *)
Inductive TaskError :=
| SteerSuperseded   (* 'Task superseded by steer mode' *)
| TaskAborted       (* 'Task aborted' *)
| QueueCleared      (* 'Queue cleared' *)
| TaskTimeout       (* 'Task timeout' *)
| HandlerError.     (* the handler's own rejection *)

Inductive EnqueueError :=
| OverflowDropped   (* 'Queue overflow: task dropped for ...' *)
| OverflowRejected. (* 'Queue full for ...' *)

Inductive Settlement :=
| Resolved
| Rejected (e : TaskError).

(** How the race between a handler and its timeout timer ends. *)
Inductive RaceOutcome := HandlerResolved | HandlerRejected | TimerFired.

Definition settlementOf (o : RaceOutcome) : Settlement :=
  match o with
  | HandlerResolved => Resolved
  | HandlerRejected => Rejected HandlerError
  | TimerFired => Rejected TaskTimeout
  end.

(** The scheduler object.  [lanes] is a JavaScript [Map]: its iteration
    order is the insertion order of the keys, which
    [tryProcessPendingLanes] depends on, so it is an association list.
    [settled] records every call of a task's [resolve] or [reject], oldest
    first. *)
Record State := mkState {
  lanes : list (string * Lane);
  globalConcurrency : Z;
  taskIdCounter : nat;
  settled : list (QueuedTask * Settlement)
}.

Definition initial : State :=
  {| lanes := []; globalConcurrency := 0; taskIdCounter := 0; settled := [] |}.

(** ** The lane table *)

Fixpoint lanesGet (k : string) (m : list (string * Lane)) : option Lane :=
  match m with
  | [] => None
  | (k', l) :: rest => if String.eqb k k' then Some l else lanesGet k rest
  end.

(** Writing a field of a lane object that is in the table. *)
Fixpoint lanesPut (k : string) (l : Lane) (m : list (string * Lane))
  : list (string * Lane) :=
  match m with
  | [] => []
  | (k', l') :: rest =>
      if String.eqb k k' then (k', l) :: rest else (k', l') :: lanesPut k l rest
  end.

(** [Map.set] of a key that is not in the table. *)
Definition lanesAdd (k : string) (l : Lane) (m : list (string * Lane))
  : list (string * Lane) := m ++ [(k, l)].

Fixpoint lanesDelete (k : string) (m : list (string * Lane))
  : list (string * Lane) :=
  match m with
  | [] => []
  | (k', l') :: rest =>
      if String.eqb k k' then lanesDelete k rest else (k', l') :: lanesDelete k rest
  end.

Definition withLanes (st : State) (m : list (string * Lane)) : State :=
  {| lanes := m; globalConcurrency := globalConcurrency st;
     taskIdCounter := taskIdCounter st; settled := settled st |}.

Definition putLane (k : string) (l : Lane) (st : State) : State :=
  withLanes st (lanesPut k l (lanes st)).

(** [task.resolve(..)] / [task.reject(..)]. *)
Definition settle (t : QueuedTask) (s : Settlement) (st : State) : State :=
  {| lanes := lanes st; globalConcurrency := globalConcurrency st;
     taskIdCounter := taskIdCounter st; settled := settled st ++ [(t, s)] |}.

Definition rejectAll (ts : list QueuedTask) (e : TaskError) (st : State) : State :=
  fold_left (fun s t => settle t (Rejected e) s) ts st.

(** ** getOrCreateLane *)
Definition getOrCreateLane (k : string) (st : State) : Lane * State :=
  match lanesGet k (lanes st) with
  | Some l => (l, st)
  | None =>
      let l := {| queue := []; processing := false; currentTask := None |} in
      (l, withLanes st (lanesAdd k l (lanes st)))
  end.

(** ** insertByPriority: the scan inserts before the first queued task of
    strictly lower priority, and pushes at the end when there is none. *)
Fixpoint insertByPriority (q : list QueuedTask) (task : QueuedTask)
  : list QueuedTask :=
  match q with
  | [] => [task]
  | t :: rest =>
      if priority task >? priority t then task :: t :: rest
      else t :: insertByPriority rest task
  end.

(** ** The pump

    [processLane] is an async function: it runs synchronously up to its
    first [await], which is the race of the dequeued task's handler against
    the timer.  [pumpShift] is the part of a loop iteration before that
    [await]; [pumpResume] (below) is the part after it. *)
Definition pumpShift (k : string) (st : State) : State :=
  match lanesGet k (lanes st) with
  | Some lane =>
      match queue lane with
      | task :: rest =>
          putLane k {| queue := rest; processing := processing lane;
                       currentTask := Some task |} st
      | [] => st
      end
  | None => st
  end.

Definition processLane (cfg : LaneQueueConfig) (k : string) (st : State) : State :=
  match lanesGet k (lanes st) with
  | None => st
  | Some lane =>
      if processing lane || (len (queue lane) =? 0) then st
      else if globalConcurrency st >=? maxConcurrency cfg then st
      else
        let st1 := putLane k {| queue := queue lane; processing := true;
                                currentTask := currentTask lane |} st in
        let st2 := {| lanes := lanes st1;
                      globalConcurrency := globalConcurrency st1 + 1;
                      taskIdCounter := taskIdCounter st1;
                      settled := settled st1 |} in
        pumpShift k st2
  end.

Definition cleanupEmptyLane (k : string) (st : State) : State :=
  match lanesGet k (lanes st) with
  | Some lane =>
      if (len (queue lane) =? 0) && negb (processing lane)
      then withLanes st (lanesDelete k (lanes st))
      else st
  | None => st
  end.

(** The [for .. of this.lanes] loop of [tryProcessPendingLanes], over the
    keys of the table; the lane is read when its turn comes. *)
Fixpoint pendingLoop (cfg : LaneQueueConfig) (keys : list string) (st : State)
  : State :=
  match keys with
  | [] => st
  | k :: rest =>
      match lanesGet k (lanes st) with
      | Some lane =>
          if negb (processing lane) && (len (queue lane) >? 0) then
            let st1 := processLane cfg k st in
            if globalConcurrency st1 >=? maxConcurrency cfg then st1
            else pendingLoop cfg rest st1
          else pendingLoop cfg rest st
      | None => pendingLoop cfg rest st
      end
  end.

Definition tryProcessPendingLanes (cfg : LaneQueueConfig) (st : State) : State :=
  if globalConcurrency st >=? maxConcurrency cfg then st
  else pendingLoop cfg (map fst (lanes st)) st.

(** The first three statements of the [finally] block followed by
    [cleanupEmptyLane]: the lane gives its slot back. *)
Definition pumpRelease (k : string) (st : State) : State :=
  match lanesGet k (lanes st) with
  | Some lane =>
      let st1 := putLane k {| queue := queue lane; processing := false;
                              currentTask := None |} st in
      let st2 := {| lanes := lanes st1;
                    globalConcurrency := globalConcurrency st1 - 1;
                    taskIdCounter := taskIdCounter st1;
                    settled := settled st1 |} in
      cleanupEmptyLane k st2
  | None => st
  end.

Definition pumpFinally (cfg : LaneQueueConfig) (k : string) (st : State) : State :=
  tryProcessPendingLanes cfg (pumpRelease k st).

(** The loop test: another iteration, or the [finally] block. *)
Definition pumpLoop (cfg : LaneQueueConfig) (k : string) (st : State) : State :=
  match lanesGet k (lanes st) with
  | Some lane =>
      if len (queue lane) >? 0 then pumpShift k st else pumpFinally cfg k st
  | None => st
  end.

(** The race of the lane's current task has ended: the task is settled,
    [currentTask] is reset and the loop goes on.  A lane without a running
    task has no pending [await], so nothing happens. *)
Definition pumpResume (cfg : LaneQueueConfig) (k : string) (o : RaceOutcome)
  (st : State) : State :=
  match lanesGet k (lanes st) with
  | Some lane =>
      match currentTask lane with
      | Some task =>
          let st1 := settle task (settlementOf o) st in
          let st2 := putLane k {| queue := queue lane;
                                  processing := processing lane;
                                  currentTask := None |} st1 in
          pumpLoop cfg k st2
      | None => st
      end
  | None => st
  end.

(** ** enqueue *)

Definition isCollect (t : QueuedTask) : bool := QueueMode_eqb (mode t) collect.

(** [lane.queue.filter(..)] of the steer branch: the callback rejects the
    collect tasks in queue order and keeps the others. *)
Definition supersede (q : list QueuedTask) (st : State)
  : list QueuedTask * State :=
  (filter (fun t => negb (isCollect t)) q,
   rejectAll (filter isCollect q) SteerSuperseded st).

Definition enqueue (cfg : LaneQueueConfig) (k : string)
  (omode : option QueueMode) (opriority : option Z) (now : Z) (st : State)
  : (EnqueueError + QueuedTask) * State :=
  let (lane, st1) := getOrCreateLane k st in
  let m := orElse omode (defaultMode cfg) in
  let p := orElse opriority 0 in
  let full := len (queue lane) >=? maxQueueSize cfg in
  match full, overflowStrategy cfg with
  | true, drop => (inl OverflowDropped, st1)
  | true, reject => (inl OverflowRejected, st1)
  | _, _ =>
      let n := S (taskIdCounter st1) in
      let task := {| id := n; sessionKey := k; mode := m; priority := p;
                     createdAt := now |} in
      let st2 := {| lanes := lanes st1;
                    globalConcurrency := globalConcurrency st1;
                    taskIdCounter := n; settled := settled st1 |} in
      let (q, st3) :=
        if QueueMode_eqb m steer && (len (queue lane) >? 0)
        then supersede (queue lane) st2
        else (queue lane, st2) in
      let st4 := putLane k {| queue := insertByPriority q task;
                              processing := processing lane;
                              currentTask := currentTask lane |} st3 in
      (inr task, processLane cfg k st4)
  end.

(** ** abort, clear and the getters *)

Definition abort (k : string) (st : State) : Z * State :=
  match lanesGet k (lanes st) with
  | None => (0, st)
  | Some lane =>
      let abortedCount := len (queue lane) in
      let st1 := rejectAll (queue lane) TaskAborted st in
      (abortedCount,
       putLane k {| queue := []; processing := processing lane;
                    currentTask := currentTask lane |} st1)
  end.

Definition clearLane (k : string) (st : State) : State :=
  match lanesGet k (lanes st) with
  | Some lane =>
      let st1 := rejectAll (queue lane) QueueCleared st in
      putLane k {| queue := []; processing := processing lane;
                   currentTask := currentTask lane |} st1
  | None => st
  end.

(** [if (sessionKey)] is false for [undefined] and for the empty string. *)
Definition clear (ok : option string) (st : State) : State :=
  match ok with
  | Some k =>
      if String.eqb k EmptyString
      then fold_left (fun s k' => clearLane k' s) (map fst (lanes st)) st
      else clearLane k st
  | None => fold_left (fun s k' => clearLane k' s) (map fst (lanes st)) st
  end.

Definition getQueueLength (k : string) (st : State) : Z :=
  match lanesGet k (lanes st) with
  | Some lane => len (queue lane)
  | None => 0
  end.

Definition isProcessing (k : string) (st : State) : bool :=
  match lanesGet k (lanes st) with
  | Some lane => processing lane
  | None => false
  end.

Definition getTotalQueueLength (st : State) : Z :=
  fold_left (fun total kl => total + len (queue (snd kl))) (lanes st) 0.

Definition getActiveCount (st : State) : Z := globalConcurrency st.

(** ** Executions

    Every synchronous run of scheduler code is one step: a public call, or
    the resumption of a lane's pump when the race it awaits has ended. *)
Inductive Op :=
| Enqueue (k : string) (omode : option QueueMode) (opriority : option Z) (now : Z)
| Abort (k : string)
| Clear (ok : option string)
| Resume (k : string) (o : RaceOutcome).

Definition step (cfg : LaneQueueConfig) (st : State) (op : Op) : State :=
  match op with
  | Enqueue k m p now => snd (enqueue cfg k m p now st)
  | Abort k => snd (abort k st)
  | Clear ok => clear ok st
  | Resume k o => pumpResume cfg k o st
  end.

Definition run (cfg : LaneQueueConfig) (ops : list Op) : State :=
  fold_left (step cfg) ops initial.

(** The number of lanes whose [processing] flag is set. *)
Definition countProcessing (m : list (string * Lane)) : Z :=
  len (filter (fun kl => processing (snd kl)) m).

Definition processingCount (st : State) : Z := countProcessing (lanes st).

(** The queue of a key as a caller can observe it. *)
Definition queueOf (k : string) (st : State) : list QueuedTask :=
  match lanesGet k (lanes st) with
  | Some lane => queue lane
  | None => []
  end.

Definition currentOf (k : string) (st : State) : option QueuedTask :=
  match lanesGet k (lanes st) with
  | Some lane => currentTask lane
  | None => None
  end.

(** ** Vocabulary of the properties *)

(** What [processLane] does when it does something: the idle lane takes a
    slot and its first queued task becomes the running one. *)
Definition started (k : string) (st : State) (rest : list QueuedTask)
  (t : QueuedTask) : State :=
  {| lanes := lanesPut k {| queue := rest; processing := true;
                            currentTask := Some t |} (lanes st);
     globalConcurrency := globalConcurrency st + 1;
     taskIdCounter := taskIdCounter st;
     settled := settled st |}.

(** A lane of the table under key [k] is consistent: only a processing
    lane has a running task, and its tasks carry its key. *)
Definition laneOK (kl : string * Lane) : Prop :=
  (processing (snd kl) = false -> currentTask (snd kl) = None) /\
  (forall t, In t (queue (snd kl)) -> sessionKey t = fst kl) /\
  (forall t, currentTask (snd kl) = Some t -> sessionKey t = fst kl).

(** The invariant of the scheduler between two synchronous runs.  The
    bound is written so that it also holds at the start when the configured
    ceiling is negative. *)
Definition Inv (cfg : LaneQueueConfig) (st : State) : Prop :=
  NoDup (map fst (lanes st)) /\
  globalConcurrency st = processingCount st /\
  globalConcurrency st <= Z.max 0 (maxConcurrency cfg) /\
  Forall laneOK (lanes st).

(** The overflow gate of [enqueue] closes. *)
Definition overflows (cfg : LaneQueueConfig) (k : string) (st : State) : bool :=
  (len (queueOf k st) >=? maxQueueSize cfg) &&
  match overflowStrategy cfg with
  | wait => false
  | _ => true
  end.

Definition optList {A} (o : option A) : list A :=
  match o with Some a => [a] | None => [] end.

(** The tasks of a lane that have not settled: the running one, then the
    queued ones. *)
Definition pending (k : string) (st : State) : list QueuedTask :=
  optList (currentOf k st) ++ queueOf k st.

(** The tasks of a list that belong to key [k]. *)
Definition onKey (k : string) (ts : list QueuedTask) : list QueuedTask :=
  filter (fun t => String.eqb (sessionKey t) k) ts.

(** The tasks of a key that have settled, oldest first. *)
Definition settledOf (k : string) (st : State) : list QueuedTask :=
  onKey k (map fst (settled st)).

(** The tasks that the calls of [enqueue] in an execution created, in the
    order of the calls. *)
Definition created (cfg : LaneQueueConfig) (st : State) (op : Op)
  : list QueuedTask :=
  match op with
  | Enqueue k m p now =>
      match fst (enqueue cfg k m p now st) with
      | inr t => [t]
      | inl _ => []
      end
  | _ => []
  end.

Fixpoint createdBy (cfg : LaneQueueConfig) (st : State) (ops : list Op)
  : list QueuedTask :=
  match ops with
  | [] => []
  | op :: rest => created cfg st op ++ createdBy cfg (step cfg st op) rest
  end.

Definition createdOn (cfg : LaneQueueConfig) (k : string) (ops : list Op)
  : list QueuedTask :=
  onKey k (createdBy cfg initial ops).

(** An operation of an execution in which lane [k] is neither aborted nor
    cleared and receives no steer task. *)
Definition undisturbed (cfg : LaneQueueConfig) (k : string) (op : Op) : Prop :=
  match op with
  | Enqueue k' m _ _ => k' = k -> orElse m (defaultMode cfg) <> steer
  | Abort k' => k' <> k
  | Clear (Some k') => k' <> k /\ k' <> EmptyString
  | Clear None => False
  | Resume _ _ => True
  end.

(** The tasks of a list that have priority [p]. *)
Definition ofPriority (p : Z) (ts : list QueuedTask) : list QueuedTask :=
  filter (fun t => priority t =? p) ts.

(** The task a call of [enqueue] creates. *)
Definition newTask (cfg : LaneQueueConfig) (k : string)
  (omode : option QueueMode) (opriority : option Z) (now : Z) (st : State)
  : QueuedTask :=
  {| id := S (taskIdCounter st); sessionKey := k;
     mode := orElse omode (defaultMode cfg);
     priority := orElse opriority 0; createdAt := now |}.

(** What a call in mode [m] leaves of a queue, and what it rejects. *)
Definition kept (m : QueueMode) (q : list QueuedTask) : list QueuedTask :=
  if QueueMode_eqb m steer then filter (fun t => negb (isCollect t)) q else q.

Definition superseded (m : QueueMode) (q : list QueuedTask) : list QueuedTask :=
  if QueueMode_eqb m steer then filter isCollect q else [].

(** The scheduler when [enqueue] has inserted the task and is about to
    call [processLane]. *)
Definition inserted (cfg : LaneQueueConfig) (k : string)
  (omode : option QueueMode) (opriority : option Z) (now : Z) (st : State)
  : State :=
  let m := orElse omode (defaultMode cfg) in
  let lane := fst (getOrCreateLane k st) in
  {| lanes :=
       lanesPut k
         {| queue := insertByPriority (kept m (queue lane))
                       (newTask cfg k omode opriority now st);
            processing := processing lane;
            currentTask := currentTask lane |}
         (lanes (snd (getOrCreateLane k st)));
     globalConcurrency := globalConcurrency st;
     taskIdCounter := S (taskIdCounter st);
     settled := settled st ++
                map (fun t => (t, Rejected SteerSuperseded))
                  (superseded m (queue lane)) |}.

(** All the tasks of a lane that exist or existed: the settled ones, then
    the running one, then the queued ones. *)
Definition history (k : string) (st : State) : list QueuedTask :=
  settledOf k st ++ pending k st.

(** ** Vocabulary of the further properties *)

(** The tasks a lane holds: the running one, then the queued ones; and the
    tasks of all the lanes of a table. *)
Definition laneTasks (l : Lane) : list QueuedTask :=
  optList (currentTask l) ++ queue l.

Definition tasksOf (m : list (string * Lane)) : list QueuedTask :=
  flat_map (fun kl => laneTasks (snd kl)) m.

(** Every task the scheduler knows of: the settled ones, then the ones its
    lanes hold. *)
Definition everyTask (st : State) : list QueuedTask :=
  map fst (settled st) ++ tasksOf (lanes st).

(** The lane an operation is addressed to; [clear] without a key (or with
    the empty key) is addressed to all of them. *)
Definition opKey (op : Op) : option string :=
  match op with
  | Enqueue k _ _ _ => Some k
  | Abort k => Some k
  | Clear (Some k) => if String.eqb k EmptyString then None else Some k
  | Clear None => None
  | Resume k _ => Some k
  end.

(** A queue in which no task stands before one of higher priority. *)
Definition byPriority (q : list QueuedTask) : Prop :=
  StronglySorted (fun a b => priority b <= priority a) q.

(** A lane that has queued work and no pump. *)
Definition waiting (l : Lane) : bool :=
  negb (processing l) && (len (queue l) >? 0).

Definition QueuedTask_eq_dec (a b : QueuedTask) : {a = b} + {a <> b}.
Proof.
  decide equality.
  - apply Z.eq_dec.
  - apply Z.eq_dec.
  - decide equality.
  - apply string_dec.
  - apply Nat.eq_dec.
Defined.

(** No lane waits while a slot is free. *)
Definition noIdleSlot (cfg : LaneQueueConfig) (st : State) : Prop :=
  forall k lane,
    lanesGet k (lanes st) = Some lane -> waiting lane = true ->
    maxConcurrency cfg <= globalConcurrency st.

(** A property of queues that holds of the queue of every lane. *)
Definition allQueues (P : list QueuedTask -> Prop) (st : State) : Prop :=
  forall k lane, lanesGet k (lanes st) = Some lane -> P (queue lane).

(** The bound the overflow gate keeps under [drop] and [reject]. *)
Definition withinBound (cfg : LaneQueueConfig) (q : list QueuedTask) : Prop :=
  overflowStrategy cfg <> wait -> len q <= Z.max 0 (maxQueueSize cfg).

(** A lane after [lane.queue = []]. *)
Definition emptied (l : Lane) : Lane :=
  {| queue := []; processing := processing l; currentTask := currentTask l |}.

End LaneQueue.

(* ================================================================== *)
(** * The streaming-card assembler *)
(* ================================================================== *)

Module Card.

Import Js.
Open Scope Z_scope.

Definition MAX_CARD_CONTENT_LENGTH : Z := 28000.
(** Two line feeds, then "... (内容已截断)". *)
Definition TRUNCATION_SUFFIX : jsstring :=
  [10; 10; 46; 46; 46; 32; 40; 20869; 23481; 24050; 25130; 26029; 41]%N.

Definition MAX_CARD_SIZE : Z := 25000.
Definition MAX_REASONING_LENGTH : Z := 3000.
Definition MAX_TOOL_OUTPUT_LENGTH : Z := 5000.

(** The other literals of the module that are not ASCII. *)
Definition TITLE_DONE : jsstring := [21709; 24212; 23436; 25104]%N.
Definition TITLE_PROCESSING : jsstring := [22788; 29702; 20013; 46; 46; 46]%N.
Definition CONTINUED : jsstring := [32; 40; 32493]%N.               (* " (续" *)
Definition REASONING_CUT : jsstring :=
  [10; 46; 46; 46; 32; 40; 24605; 32771; 20869; 23481; 24050; 25130; 26029; 41]%N.
Definition THINKING : jsstring :=
  [55357; 56493; 32; 24605; 32771; 36807; 31243]%N.
Definition ERROR_HEAD : jsstring :=
  [42; 42; 38169; 35823; 65306; 42; 42; 10; 96; 96; 96; 10]%N.      (* "**错误：**\n```\n" *)
Definition OUTPUT_CUT : jsstring :=
  [10; 46; 46; 46; 32; 40; 36755; 20986; 24050; 25130; 26029; 41]%N.
Definition RUNNING : jsstring := [42; 25191; 34892; 20013; 46; 46; 46; 42]%N. (* "*执行中...*" *)
Definition NO_CONTENT : jsstring := [65288; 26080; 20869; 23481; 65289]%N.
Definition FENCE_OPEN : jsstring := [96; 96; 96; 10]%N.             (* "```\n" *)
Definition FENCE_CLOSE : jsstring := [10; 96; 96; 96]%N.            (* "\n```" *)

(** ** The small formatters *)

Definition isPathKey (key : jsstring) : bool :=
  let lowerKey := toLowerCase key in
  includes (lit "path") lowerKey || includes (lit "file") lowerKey
  || streqb lowerKey (lit "workdir").

Definition ensureAbsolutePath (proc : Process) (value : jsstring) : jsstring :=
  if isAbsolute value then value else resolve (cwd proc) value.

Definition shorten (s : jsstring) : jsstring :=
  if len s >? 100 then slice0 100 s ++ lit "..." else s.

(** One iteration of the loop of [formatToolInput]: the line pushed for a
    property, if any. *)
Definition toolInputLine (proc : Process) (key : jsstring) (value : jsval)
  : list jsstring :=
  match value with
  | VUndefined | VNull => []
  | VStr s =>
      let processedValue :=
        if isPathKey key && trimTruthy s then ensureAbsolutePath proc s else s in
      [lit "**" ++ key ++ lit "**: `" ++ shorten processedValue ++ lit "`"]
  | _ =>
      let displayValue :=
        match stringify value with Some t => t | None => [] end in
      [lit "**" ++ key ++ lit "**: `" ++ shorten displayValue ++ lit "`"]
  end.

(** [input] is the list [Object.entries(input)], in property order. *)
Definition formatToolInput (proc : Process) (input : list (jsstring * jsval))
  : jsstring :=
  join [10%N] (flat_map (fun kv => toolInputLine proc (fst kv) (snd kv)) input).

Definition isTick (c : N) : bool := codeEqb c 96.

(** [text.replace(/```/g, '` ` `')]: the matches are taken from left to
    right and do not overlap. *)
Fixpoint escapeCodeBlockContent (text : jsstring) : jsstring :=
  match text with
  | [] => []
  | a :: rest1 =>
      match rest1 with
      | b :: c :: rest3 =>
          if isTick a && isTick b && isTick c
          then [96; 32; 96; 32; 96]%N ++ escapeCodeBlockContent rest3
          else a :: escapeCodeBlockContent rest1
      | _ => a :: escapeCodeBlockContent rest1
      end
  end.

Definition getStatusEmoji (status : jsstring) : jsstring :=
  let s := toLowerCase status in
  if streqb s (lit "running") || streqb s (lit "pending") then [9203%N]
  else if streqb s (lit "completed") || streqb s (lit "complete")
          || streqb s (lit "success") then [9989%N]
  else if streqb s (lit "error") || streqb s (lit "failed") then [10060%N]
  else [55357; 56615]%N.

Definition truncateContent (content : jsstring) : jsstring :=
  if len content <=? MAX_CARD_CONTENT_LENGTH then content
  else
    let availableLength := MAX_CARD_CONTENT_LENGTH - len TRUNCATION_SUFFIX in
    slice0 availableLength content ++ TRUNCATION_SUFFIX.

(** ** Parts and groups *)

Inductive PartType := text_ | reasoning | tool_call.

Definition PartType_eqb (a b : PartType) : bool :=
  match a, b with
  | text_, text_ | reasoning, reasoning | tool_call, tool_call => true
  | _, _ => false
  end.

Record OrderedPart := mkPart {
  type : PartType;
  text : option jsstring;
  name : option jsstring;
  state : option jsstring;
  title : option jsstring;
  input : option (list (jsstring * jsval));
  output : option jsstring;
  error : option jsstring
}.

Record PartGroup := mkGroup {
  groupType : PartType;
  parts : list OrderedPart
}.

(** A string that is present and not empty. *)
Definition truthy (o : option jsstring) : bool :=
  match o with
  | Some (_ :: _) => true
  | _ => false
  end.

(** One iteration of the loop of [groupConsecutiveParts]. *)
Definition pushPart (groups : list PartGroup) (part : OrderedPart)
  : list PartGroup :=
  match List.rev groups with
  | lastGroup :: before =>
      if PartType_eqb (groupType lastGroup) (type part)
      then List.rev before ++
           [{| groupType := groupType lastGroup;
               parts := parts lastGroup ++ [part] |}]
      else groups ++ [{| groupType := type part; parts := [part] |}]
  | [] => groups ++ [{| groupType := type part; parts := [part] |}]
  end.

Definition groupConsecutiveParts (ps : list OrderedPart) : list PartGroup :=
  fold_left pushPart ps [].

(** ** Elements and cards *)

(** An element is always an object, so its JSON text exists. *)
Definition estimateElementSize (element : jsval) : Z :=
  match stringify element with
  | Some t => len t
  | None => 0
  end.

Definition markdown (content : jsstring) : jsval :=
  VObj [(lit "tag", VStr (lit "markdown")); (lit "content", VStr content)].

Definition hr : jsval := VObj [(lit "tag", VStr (lit "hr"))].

Definition collapsiblePanel (panelTitle : jsstring) (elements : list jsval)
  : jsval :=
  VObj [(lit "tag", VStr (lit "collapsible_panel"));
        (lit "expanded", VBool false);
        (lit "header",
         VObj [(lit "title",
                VObj [(lit "tag", VStr (lit "plain_text"));
                      (lit "content", VStr panelTitle)])]);
        (lit "elements", VArr elements)].

(** The local variables of [buildStreamingCardsV2] that its closures
    write. *)
Record Builder := mkBuilder {
  cards : list jsval;
  currentElements : list jsval;
  currentSize : Z;
  cardIndex : nat;
  reasoningIndex : nat
}.

Definition newBuilder : Builder :=
  {| cards := []; currentElements := []; currentSize := 0;
     cardIndex := 0; reasoningIndex := 0 |}.

Definition cardTitle (headerTitle : jsstring) (cardIndex : nat) : jsstring :=
  if (0 <? cardIndex)%nat
  then headerTitle ++ CONTINUED ++ natToString cardIndex ++ lit ")"
  else headerTitle.

Definition headerTitle (isComplete : bool) (title : option jsstring)
  (isFinal : bool) : jsstring :=
  orElse title (if isFinal && isComplete then TITLE_DONE else TITLE_PROCESSING).

Definition createCard (isComplete : bool) (title : option jsstring)
  (cardIndex : nat) (elements : list jsval) (isFinal : bool) : jsval :=
  let template := if isFinal && isComplete then lit "green" else lit "wathet" in
  VObj [(lit "schema", VStr (lit "2.0"));
        (lit "header",
         VObj [(lit "title",
                VObj [(lit "tag", VStr (lit "plain_text"));
                      (lit "content",
                       VStr (cardTitle (headerTitle isComplete title isFinal)
                               cardIndex))]);
               (lit "template", VStr template)]);
        (lit "body", VObj [(lit "elements", VArr elements)])].

Definition flushCard (isComplete : bool) (title : option jsstring)
  (b : Builder) : Builder :=
  if len (currentElements b) >? 0 then
    {| cards := cards b ++
                [createCard isComplete title (cardIndex b) (currentElements b) false];
       currentElements := [];
       currentSize := 0;
       cardIndex := S (cardIndex b);
       reasoningIndex := reasoningIndex b |}
  else b.

Definition addElement (isComplete : bool) (title : option jsstring)
  (element : jsval) (b : Builder) : Builder :=
  let elementSize := estimateElementSize element in
  let b1 :=
    if (currentSize b + elementSize >? MAX_CARD_SIZE)
       && (len (currentElements b) >? 0)
    then flushCard isComplete title b else b in
  {| cards := cards b1;
     currentElements := currentElements b1 ++ [element];
     currentSize := currentSize b1 + elementSize;
     cardIndex := cardIndex b1;
     reasoningIndex := reasoningIndex b1 |}.

(** [group.parts.map(p => p.text).filter(t => !!t)]. *)
Definition truthyTexts (ps : list OrderedPart) : list jsstring :=
  flat_map (fun p => match text p with
                     | Some (c :: t) => [c :: t]
                     | _ => []
                     end) ps.

(** The elements of the panel of one tool call. *)
Definition toolElements (proc : Process) (tool : OrderedPart) : list jsval :=
  let fromInput :=
    match input tool with
    | Some (kv :: more) =>
        let inputLines := formatToolInput proc (kv :: more) in
        match inputLines with
        | [] => []
        | _ :: _ => [markdown inputLines]
        end
    | _ => []
    end in
  let fromResult :=
    if truthy (error tool) then
      [markdown (ERROR_HEAD ++ escapeCodeBlockContent (orElse (error tool) [])
                 ++ FENCE_CLOSE)]
    else if truthy (output tool) then
      let outputText := orElse (output tool) [] in
      let outputText :=
        if len outputText >? MAX_TOOL_OUTPUT_LENGTH
        then slice0 MAX_TOOL_OUTPUT_LENGTH outputText ++ OUTPUT_CUT
        else outputText in
      [markdown (FENCE_OPEN ++ escapeCodeBlockContent outputText ++ FENCE_CLOSE)]
    else [] in
  fromInput ++ fromResult.

(** The panel added for one tool call of a group; a part without a name
    is skipped. *)
Definition toolPanel (proc : Process) (tool : OrderedPart) : option jsval :=
  if truthy (name tool) then
    let emoji := getStatusEmoji (orElse (state tool) (lit "pending")) in
    let elements := toolElements proc tool in
    let panelTitle :=
      if truthy (title tool) then orElse (title tool) []
      else orElse (name tool) [] in
    Some (collapsiblePanel (emoji ++ lit " " ++ panelTitle)
            (if len elements >? 0 then elements else [markdown RUNNING]))
  else None.

Definition reasoningPanel (severalReasoningGroups : bool) (index : nat)
  (reasoningTexts : list jsstring) : jsval :=
  let combinedText := join [10; 10]%N reasoningTexts in
  let combinedText :=
    if len combinedText >? MAX_REASONING_LENGTH
    then slice0 MAX_REASONING_LENGTH combinedText ++ REASONING_CUT
    else combinedText in
  let panelTitle :=
    if severalReasoningGroups
    then THINKING ++ lit " " ++ natToString index
    else THINKING in
  collapsiblePanel panelTitle
    [markdown (FENCE_OPEN ++ escapeCodeBlockContent combinedText ++ FENCE_CLOSE)].

(** The body of the loop over the groups. *)
Definition renderGroup (proc : Process) (isComplete : bool)
  (title : option jsstring) (groups : list PartGroup)
  (b : Builder) (group : PartGroup) : Builder :=
  let add := addElement isComplete title in
  match groupType group with
  | reasoning =>
      let b1 := {| cards := cards b; currentElements := currentElements b;
                   currentSize := currentSize b; cardIndex := cardIndex b;
                   reasoningIndex := S (reasoningIndex b) |} in
      let reasoningTexts := truthyTexts (parts group) in
      if len reasoningTexts =? 0 then b1
      else
        let several :=
          len (filter (fun g => PartType_eqb (groupType g) reasoning) groups) >? 1 in
        add (reasoningPanel several (reasoningIndex b1) reasoningTexts) b1
  | tool_call =>
      fold_left (fun acc tool =>
                   match toolPanel proc tool with
                   | Some panel => add panel acc
                   | None => acc
                   end) (parts group) b
  | text_ =>
      let textContents := truthyTexts (parts group) in
      if len textContents =? 0 then b
      else
        let b1 := if len (currentElements b) >? 0 then add hr b else b in
        add (markdown (truncateContent (join [10; 10]%N textContents))) b1
  end.

Record CardBuildResult := mkResult {
  resultCards : list jsval;
  hasMore : bool
}.

(** The builder after the loop over the groups. *)
Definition assemble (proc : Process) (ps : list OrderedPart)
  (isComplete : bool) (title : option jsstring) : Builder :=
  let groups := groupConsecutiveParts ps in
  fold_left (renderGroup proc isComplete title groups) groups newBuilder.

Definition finish (isComplete : bool) (title : option jsstring) (b : Builder)
  : CardBuildResult :=
  let finalElements :=
    if len (currentElements b) =? 0
    then [markdown (if isComplete then NO_CONTENT else lit "...")]
    else currentElements b in
  {| resultCards := cards b ++
                    [createCard isComplete title (cardIndex b) finalElements true];
     hasMore := false |}.

Definition buildStreamingCardsV2 (proc : Process) (ps : list OrderedPart)
  (isComplete : bool) (title : option jsstring) : CardBuildResult :=
  finish isComplete title (assemble proc ps isComplete title).

(** ** Reading a card back *)

Fixpoint getProp (k : jsstring) (props : list (jsstring * jsval))
  : option jsval :=
  match props with
  | [] => None
  | (k', v) :: rest => if streqb k k' then Some v else getProp k rest
  end.

Definition prop (k : jsstring) (v : jsval) : option jsval :=
  match v with
  | VObj props => getProp k props
  | _ => None
  end.

(** [card.header.title.content]. *)
Definition titleOf (card : jsval) : jsstring :=
  match prop (lit "header") card with
  | Some h =>
      match prop (lit "title") h with
      | Some t =>
          match prop (lit "content") t with
          | Some (VStr s) => s
          | _ => []
          end
      | None => []
      end
  | None => []
  end.

(** [card.body.elements], or [panel.elements]. *)
Definition elementsOf (v : jsval) : list jsval :=
  match prop (lit "body") v with
  | Some b =>
      match prop (lit "elements") b with
      | Some (VArr es) => es
      | _ => []
      end
  | None =>
      match prop (lit "elements") v with
      | Some (VArr es) => es
      | _ => []
      end
  end.

(** The size the packer accounts for a list of elements. *)
Definition estimatedSize (elements : list jsval) : Z :=
  fold_right (fun e acc => estimateElementSize e + acc) 0 elements.

(** Does the string contain three backticks in a row? *)
Fixpoint hasTripleTick (s : jsstring) : bool :=
  match s with
  | a :: rest =>
      match rest with
      | b :: c :: _ => (isTick a && isTick b && isTick c) || hasTripleTick rest
      | _ => false
      end
  | [] => false
  end.

(** ** Vocabulary of the properties *)

(** A list of elements is within the bound, or is one element on its own. *)
Definition fits (elements : list jsval) : Prop :=
  estimatedSize elements <= MAX_CARD_SIZE \/ exists e, elements = [e].

(** The cards [flushCard] has pushed when it has sealed [pages], one after
    the other. *)
Fixpoint sealedFrom (isComplete : bool) (title : option jsstring)
  (index : nat) (pages : list (list jsval)) : list jsval :=
  match pages with
  | [] => []
  | p :: rest =>
      createCard isComplete title index p false ::
      sealedFrom isComplete title (S index) rest
  end.

Definition sealedCards (isComplete : bool) (title : option jsstring)
  (pages : list (list jsval)) : list jsval :=
  sealedFrom isComplete title 0 pages.

(** What the closures keep true of the builder. *)
Definition builderOK (isComplete : bool) (title : option jsstring)
  (b : Builder) : Prop :=
  exists pages,
    cards b = sealedCards isComplete title pages /\
    cardIndex b = List.length pages /\
    Forall fits pages /\
    fits (currentElements b) /\
    currentSize b = estimatedSize (currentElements b).

(** A title that ends in a page marker " (续n)". *)
Definition carriesPageMarker (t : jsstring) : Prop :=
  exists base n, t = base ++ CONTINUED ++ natToString n ++ lit ")".

(** ** Parts and a process for the examples *)

Definition textPart (s : jsstring) : OrderedPart :=
  {| type := text_; text := Some s; name := None; state := None;
     title := None; input := None; output := None; error := None |}.

Definition reasoningPart (s : jsstring) : OrderedPart :=
  {| type := reasoning; text := Some s; name := None; state := None;
     title := None; input := None; output := None; error := None |}.

Definition toolPart (n : jsstring) (st : option jsstring)
  (i : option (list (jsstring * jsval))) (o e : option jsstring)
  : OrderedPart :=
  {| type := tool_call; text := None; name := Some n; state := st;
     title := None; input := i; output := o; error := e |}.

Definition exampleProcess : Process :=
  {| cwd := lit "/srv/bot" |}.

(** ** The other formatters of the module *)

(** [formatCodeBlock(code, language)]. *)
Definition formatCodeBlock (code : jsstring) (language : option jsstring)
  : jsstring :=
  let lang := orElse language [] in
  lit "```" ++ lang ++ [10%N] ++ code ++ [10%N] ++ lit "```".

(** "... (输出已截断)". *)
Definition TOOL_OUTPUT_CUT : jsstring :=
  [46; 46; 46; 32; 40; 36755; 20986; 24050; 25130; 26029; 41]%N.

(** [formatToolOutput(toolName, status, output)]. *)
Definition formatToolOutput (toolName status : jsstring)
  (output : option jsstring) : jsstring :=
  let statusEmoji := getStatusEmoji status in
  let result := lit "**" ++ statusEmoji ++ lit " " ++ toolName ++ lit "**" in
  if truthy output then
    let o := orElse output [] in
    let truncatedOutput :=
      if len o >? 2000 then slice0 2000 o ++ TOOL_OUTPUT_CUT else o in
    result ++ [10%N] ++ formatCodeBlock truncatedOutput None
  else result.

(** One line of a thinking block, and the line that counts the lines left
    out: "> *... 还有 n 行*". *)
Definition thinkingLine (line : jsstring) : jsstring :=
  let truncatedLine :=
    if len line >? 80 then slice0 80 line ++ lit "..." else line in
  lit "> " ++ truncatedLine.

Definition moreLines (n : Z) : jsstring :=
  lit "> *... " ++ [36824; 26377; 32]%N ++ numberToString n ++
  [32; 34892; 42]%N.

(** The array [formattedLines] of [formatThinkingBlock], for a text that
    is not empty when trimmed. *)
Definition thinkingLines (trimmed : jsstring) : list jsstring :=
  let lines := split 10 trimmed in
  let maxLines := 5 in
  map thinkingLine (firstn (Z.to_nat maxLines) lines) ++
  (if len lines >? maxLines then [moreLines (len lines - maxLines)] else []).

Definition formatThinkingBlock (text : jsstring) : jsstring :=
  let trimmed := trim text in
  match trimmed with
  | [] => []
  | _ :: _ => join [10%N] (thinkingLines trimmed)
  end.

(** "**❌ 错误**" and a line feed. *)
Definition ERROR_TITLE : jsstring :=
  [42; 42; 10060; 32; 38169; 35823; 42; 42; 10]%N.

Definition formatError (error : jsstring) : jsstring :=
  ERROR_TITLE ++ formatCodeBlock error None.

(** The characters [escapeMarkdown] puts a backslash before, in the order
    of its fifteen replacements. *)
Definition markdownSpecials : list N :=
  [92; 42; 95; 91; 93; 40; 41; 126; 96; 62; 35; 43; 45; 46; 33]%N.

Definition escapeMarkdown (text : jsstring) : jsstring :=
  fold_left (fun s c => replaceCode c [92%N; c] s) markdownSpecials text.

(** A part as [formatMessageParts] and [categorizeMessageParts] take it:
    its type is any string. *)
Record MessagePart := mkMessagePart {
  mtype : jsstring;
  mtext : option jsstring;
  mname : option jsstring;
  mstate : option jsstring;
  mtitle : option jsstring;
  minput : option (list (jsstring * jsval));
  moutput : option jsstring;
  merror : option jsstring
}.

(** What the loop of [formatMessageParts] pushes for one part. *)
Definition formatMessagePart (part : MessagePart) : list jsstring :=
  if streqb (mtype part) (lit "text") then
    if truthy (mtext part) then [orElse (mtext part) []] else []
  else if streqb (mtype part) (lit "reasoning") then
    if truthy (mtext part) then [formatThinkingBlock (orElse (mtext part) [])]
    else []
  else if streqb (mtype part) (lit "tool-call") then
    if truthy (mname part) then
      [formatToolOutput (orElse (mname part) [])
         (orElse (mstate part) (lit "pending")) (moutput part)]
    else []
  else [].

Definition formatMessageParts (ps : list MessagePart) : jsstring :=
  join [10; 10]%N (flat_map formatMessagePart ps).

Record ToolCall := mkToolCall {
  tcName : jsstring;
  tcState : jsstring;
  tcTitle : option jsstring;
  tcInput : option (list (jsstring * jsval));
  tcOutput : option jsstring;
  tcError : option jsstring
}.

Record StreamingCardParts := mkStreamingCardParts {
  textContent : jsstring;
  reasoningContent : jsstring;
  toolCalls : list ToolCall
}.

Definition categorizeMessageParts (ps : list MessagePart) : StreamingCardParts :=
  let textParts :=
    flat_map (fun part =>
                if streqb (mtype part) (lit "text") && truthy (mtext part)
                then [orElse (mtext part) []] else []) ps in
  let reasoningParts :=
    flat_map (fun part =>
                if streqb (mtype part) (lit "reasoning") && truthy (mtext part)
                then [orElse (mtext part) []] else []) ps in
  let calls :=
    flat_map (fun part =>
                if streqb (mtype part) (lit "tool-call") && truthy (mname part)
                then [{| tcName := orElse (mname part) [];
                         tcState := orElse (mstate part) (lit "pending");
                         tcTitle := mtitle part;
                         tcInput := minput part;
                         tcOutput := moutput part;
                         tcError := merror part |}]
                else []) ps in
  {| textContent := join [10; 10]%N textParts;
     reasoningContent := join [10; 10]%N reasoningParts;
     toolCalls := calls |}.

(** The ordered parts [buildStreamingCardV2] hands on. *)
Definition orderedPartsOf (sp : StreamingCardParts) : list OrderedPart :=
  (match reasoningContent sp with
   | [] => []
   | _ :: _ =>
       [{| type := reasoning; text := Some (reasoningContent sp); name := None;
           state := None; title := None; input := None; output := None;
           error := None |}]
   end) ++
  map (fun tool =>
         {| type := tool_call; text := None; name := Some (tcName tool);
            state := Some (tcState tool); title := tcTitle tool;
            input := tcInput tool; output := tcOutput tool;
            error := tcError tool |}) (toolCalls sp) ++
  (match textContent sp with
   | [] => []
   | _ :: _ =>
       [{| type := text_; text := Some (textContent sp); name := None;
           state := None; title := None; input := None; output := None;
           error := None |}]
   end).

(** The object after [??] in [buildStreamingCardV2]. *)
Definition fallbackCard (title : option jsstring) : jsval :=
  VObj [(lit "schema", VStr (lit "2.0"));
        (lit "header",
         VObj [(lit "title",
                VObj [(lit "tag", VStr (lit "plain_text"));
                      (lit "content", VStr (orElse title TITLE_PROCESSING))]);
               (lit "template", VStr (lit "wathet"))]);
        (lit "body", VObj [(lit "elements", VArr [markdown (lit "...")])])].

Definition buildStreamingCardV2 (proc : Process) (sp : StreamingCardParts)
  (isComplete : bool) (title : option jsstring) : jsval :=
  let result := buildStreamingCardsV2 proc (orderedPartsOf sp) isComplete title in
  match resultCards result with
  | card :: _ => card
  | [] => fallbackCard title
  end.

(** [createCard(content, title, template)] of the module; inside
    [buildStreamingCardsV2] the name is taken by the closure above. *)
Definition createFeishuCard (content : jsstring) (title : option jsstring)
  (template : option jsstring) : jsval :=
  let truncatedContent := truncateContent content in
  VObj ([(lit "config", VObj [(lit "wide_screen_mode", VBool true)]);
         (lit "elements", VArr [markdown truncatedContent])] ++
        (if truthy title then
           [(lit "header",
             VObj [(lit "title",
                    VObj [(lit "tag", VStr (lit "plain_text"));
                          (lit "content", VStr (orElse title []))]);
                   (lit "template", VStr (orElse template (lit "blue")))])]
         else [])).

Definition buildStreamingCard (content : jsstring) (isComplete : bool)
  (title : option jsstring) : jsval :=
  let template := if isComplete then lit "green" else lit "wathet" in
  let headerTitle :=
    orElse title (if isComplete then TITLE_DONE else TITLE_PROCESSING) in
  createFeishuCard content (Some headerTitle) (Some template).

(** ** Vocabulary of the further properties *)

(** [card.header.template]. *)
Definition templateOf (card : jsval) : jsstring :=
  match prop (lit "header") card with
  | Some h =>
      match prop (lit "template") h with
      | Some (VStr s) => s
      | _ => []
      end
  | None => []
  end.

(** The content of a markdown element. *)
Definition contentOf (element : jsval) : jsstring :=
  match prop (lit "content") element with
  | Some (VStr s) => s
  | _ => []
  end.

(** A part that renders to nothing: a text or reasoning part without text,
    a tool call without a name. *)
Definition blank (p : OrderedPart) : bool :=
  match type p with
  | tool_call => negb (truthy (name p))
  | _ => negb (truthy (text p))
  end.

(** No two neighbouring groups have the same type. *)
Fixpoint alternating (gs : list PartGroup) : Prop :=
  match gs with
  | g1 :: rest =>
      match rest with
      | g2 :: _ => groupType g1 <> groupType g2 /\ alternating rest
      | [] => True
      end
  | [] => True
  end.

(** A group holds at least one part, and parts of its type only. *)
Definition groupOK (g : PartGroup) : Prop :=
  parts g <> [] /\ forall p, In p (parts g) -> type p = groupType g.

Definition isSpecial (c : N) : bool := existsb (codeEqb c) markdownSpecials.

(** Escaping in one pass: a backslash before every special character. *)
Definition escapeCode (c : N) : jsstring :=
  if isSpecial c then [92%N; c] else [c].


(** Every card [flushCard] has pushed holds at least one element. *)
Definition noEmptyPage (isComplete : bool) (title : option jsstring)
  (b : Builder) : Prop :=
  exists pages,
    cards b = sealedCards isComplete title pages /\
    cardIndex b = List.length pages /\
    Forall (fun p => p <> []) pages.

(** Nothing has been added to the builder yet. *)
Definition untouched (b : Builder) : Prop :=
  cards b = [] /\ currentElements b = [] /\ cardIndex b = 0%nat.

(** The group of a run of parts of one type; no group for no part. *)
Definition groupOf (ty : PartType) (ps : list OrderedPart) : list PartGroup :=
  match ps with
  | [] => []
  | _ :: _ => [{| groupType := ty; parts := ps |}]
  end.


(** A message part that one of the three cases of [formatMessageParts]
    and [categorizeMessageParts] takes. *)
Definition hasContent (part : MessagePart) : bool :=
  (streqb (mtype part) (lit "text") && truthy (mtext part))
  || (streqb (mtype part) (lit "reasoning") && truthy (mtext part))
  || (streqb (mtype part) (lit "tool-call") && truthy (mname part)).

End Card.

(* ================================================================== *)
(** * The question card *)
(* ================================================================== *)

(** [createQuestionCard] (feishu/question-card.ts): the card that asks the
    user the questions of a request, with a row of buttons or a dropdown
    per question.  The value of a button or dropdown is what Feishu sends
    back when the user acts on it. *)
Module QuestionCard.

Import Js.
Open Scope Z_scope.

Record QuestionOption := mkQuestionOption {
  label : jsstring;
  description : jsstring
}.

Record QuestionInfo := mkQuestionInfo {
  question : jsstring;
  header : jsstring;
  options : list QuestionOption;
  multiple : option bool;
  custom : option bool
}.

(** The field [tool] of a request is not read by this module. *)
Record QuestionRequest := mkQuestionRequest {
  id : jsstring;
  sessionID : jsstring;
  questions : list QuestionInfo
}.

(** A string in a condition. *)
Definition nonEmpty (s : jsstring) : bool :=
  match s with
  | [] => false
  | _ :: _ => true
  end.

Definition createHeader (title color : jsstring) : jsval :=
  VObj [(lit "template", VStr color);
        (lit "title",
         VObj [(lit "tag", VStr (lit "plain_text"));
               (lit "content", VStr title)])].

Definition createMarkdown (content : jsstring) : jsval :=
  VObj [(lit "tag", VStr (lit "markdown")); (lit "content", VStr content)].

Definition createDivider : jsval := VObj [(lit "tag", VStr (lit "hr"))].

(** The literals that are not ASCII: the default title, the two
    placeholders of a dropdown, the bullet and the closing hint. *)
Definition DEFAULT_TITLE : jsstring :=
  [55358; 56596; 32; 35831; 36873; 25321]%N.
Definition PICK_SEVERAL : jsstring :=
  [36873; 25321; 31572; 26696; 65288; 21487; 22810; 36873; 65289]%N.
Definition PICK_ONE : jsstring := [36873; 25321; 31572; 26696]%N.
Definition BULLET : jsstring := [8226; 32; 42; 42]%N.             (* "• **" *)
Definition HINT : jsstring :=
  [55357; 56492; 32; 25110; 30452; 25509; 21457; 36865; 28040; 24687; 36755;
   20837; 33258; 23450; 20041; 31572; 26696]%N.

(** The line of an option that has a description. *)
Definition optionLine (opt : QuestionOption) : jsstring :=
  BULLET ++ label opt ++ lit "**: " ++ description opt.

(** An entry of a dropdown. *)
Definition optionChoice (opt : QuestionOption) : jsval :=
  VObj [(lit "text",
         VObj [(lit "tag", VStr (lit "plain_text"));
               (lit "content", VStr (label opt))]);
        (lit "value", VStr (label opt))].

Definition selectStatic (requestId : jsstring) (questionIndex : nat)
  (q : QuestionInfo) : jsval :=
  VObj [(lit "tag", VStr (lit "select_static"));
        (lit "placeholder",
         VObj [(lit "tag", VStr (lit "plain_text"));
               (lit "content",
                VStr (match multiple q with
                      | Some true => PICK_SEVERAL
                      | _ => PICK_ONE
                      end))]);
        (lit "value",
         VObj [(lit "action", VStr (lit "question_answer"));
               (lit "requestId", VStr requestId);
               (lit "questionIndex", VNum (Z.of_nat questionIndex))]);
        (lit "options", VArr (map optionChoice (options q)))].

Definition button (requestId : jsstring) (questionIndex : nat)
  (opt : QuestionOption) : jsval :=
  VObj [(lit "tag", VStr (lit "button"));
        (lit "text",
         VObj [(lit "tag", VStr (lit "plain_text"));
               (lit "content", VStr (label opt))]);
        (lit "type", VStr (lit "default"));
        (lit "value",
         VObj [(lit "action", VStr (lit "question_answer"));
               (lit "requestId", VStr requestId);
               (lit "questionIndex", VNum (Z.of_nat questionIndex));
               (lit "answerLabel", VStr (label opt))])].

Definition useDropdown (q : QuestionInfo) : bool :=
  match multiple q with
  | Some true => true
  | _ => len (options q) >? 3
  end.

(** What the callback of [forEach] pushes for the question at
    [questionIndex]. *)
Definition questionElements (requestId : jsstring) (questionIndex : nat)
  (q : QuestionInfo) : list jsval :=
  (if (0 <? questionIndex)%nat then [createDivider] else []) ++
  [createMarkdown (lit "**" ++ question q ++ lit "**")] ++
  (if len (options q) >? 0 then
     let descriptions :=
       join [10%N]
         (map optionLine (filter (fun opt => nonEmpty (description opt))
                            (options q))) in
     (if nonEmpty descriptions then [createMarkdown descriptions] else []) ++
     [VObj [(lit "tag", VStr (lit "action"));
            (lit "actions",
             VArr (if useDropdown q
                   then [selectStatic requestId questionIndex q]
                   else map (button requestId questionIndex) (options q)))]]
   else []).

(** [request.questions.forEach], from the index [questionIndex] on. *)
Fixpoint forEachQuestion (requestId : jsstring) (questionIndex : nat)
  (qs : list QuestionInfo) : list jsval :=
  match qs with
  | [] => []
  | q :: rest =>
      questionElements requestId questionIndex q ++
      forEachQuestion requestId (S questionIndex) rest
  end.

Definition createQuestionCard (request : QuestionRequest) : jsval :=
  let headerTitle :=
    match questions request with
    | firstQuestion :: _ =>
        if nonEmpty (header firstQuestion) then header firstQuestion
        else DEFAULT_TITLE
    | [] => DEFAULT_TITLE
    end in
  VObj [(lit "config", VObj [(lit "wide_screen_mode", VBool true)]);
        (lit "header", createHeader headerTitle (lit "orange"));
        (lit "elements",
         VArr (forEachQuestion (id request) 0 (questions request) ++
               [createDivider; createMarkdown HINT]))].

(** ** Vocabulary of the properties *)

Definition tagOf (v : jsval) : jsstring :=
  match Card.prop (lit "tag") v with
  | Some (VStr s) => s
  | _ => []
  end.

(** The buttons or the dropdown of an element, when it is an action. *)
Definition actionsOf (element : jsval) : list jsval :=
  if streqb (tagOf element) (lit "action") then
    match Card.prop (lit "actions") element with
    | Some (VArr actions) => actions
    | _ => []
    end
  else [].

(** Everything on the card that the user can act on. *)
Definition controlsOf (card : jsval) : list jsval :=
  flat_map actionsOf (Card.elementsOf card).

End QuestionCard.

(* ================================================================== *)
(** * The permission manager *)
(* ================================================================== *)

(** [AuthManager], the permission module.  The database it is given is another
    module: its state is a type, its three methods are functions on it,
    and the manager is written over any such database.  The two methods
    that write return the state they leave.  Logging is left out. *)
Module AuthManager.

Section WithDatabase.

Variable BotDatabase : Type.
Variable isUserWhitelisted : string -> BotDatabase -> bool.
Variable dbAddToWhitelist : string -> string -> BotDatabase -> bool * BotDatabase.
Variable dbRemoveFromWhitelist : string -> BotDatabase -> bool * BotDatabase.

Record AuthConfig := mkAuthConfig {
  adminUserIds : list string
}.

Definition isAdmin (config : AuthConfig) (userId : string) : bool :=
  existsb (String.eqb userId) (adminUserIds config).

Definition isAuthorized (config : AuthConfig) (db : BotDatabase)
  (userId : string) : bool :=
  if isAdmin config userId then true else isUserWhitelisted userId db.

Definition addToWhitelist (config : AuthConfig) (userId addedBy : string)
  (db : BotDatabase) : bool * BotDatabase :=
  if negb (isAdmin config addedBy) then (false, db)
  else dbAddToWhitelist userId addedBy db.

Definition removeFromWhitelist (config : AuthConfig) (userId removedBy : string)
  (db : BotDatabase) : bool * BotDatabase :=
  if negb (isAdmin config removedBy) then (false, db)
  else dbRemoveFromWhitelist userId db.

(** A call of one of the two methods that can write. *)
Inductive Call :=
| AddToWhitelist (userId addedBy : string)
| RemoveFromWhitelist (userId removedBy : string).

Definition caller (c : Call) : string :=
  match c with
  | AddToWhitelist _ addedBy => addedBy
  | RemoveFromWhitelist _ removedBy => removedBy
  end.

Definition call (config : AuthConfig) (c : Call) (db : BotDatabase)
  : bool * BotDatabase :=
  match c with
  | AddToWhitelist userId addedBy => addToWhitelist config userId addedBy db
  | RemoveFromWhitelist userId removedBy =>
      removeFromWhitelist config userId removedBy db
  end.

(** The calls one after the other: what they returned, and the database
    they leave. *)
Fixpoint calls (config : AuthConfig) (cs : list Call) (db : BotDatabase)
  : list bool * BotDatabase :=
  match cs with
  | [] => ([], db)
  | c :: rest =>
      let (r, db1) := call config c db in
      let (rs, db2) := calls config rest db1 in
      (r :: rs, db2)
  end.

End WithDatabase.

End AuthManager.

(* ================================================================== *)
(** * Properties of the lane scheduler *)
(* ================================================================== *)

Module LaneQueueFacts.

Import LaneQueue.
Open Scope Z_scope.

(** ** The lane table *)

Ltac key_cases :=
  repeat match goal with
  | |- context [String.eqb ?a ?b] => destruct (String.eqb_spec a b); subst
  | H : context [String.eqb ?a ?b] |- _ => destruct (String.eqb_spec a b); subst
  end; try congruence.

Lemma lanesGet_put_same k l m :
  lanesGet k (lanesPut k l m) =
  match lanesGet k m with Some _ => Some l | None => None end.
Proof.
  induction m as [|[k' l'] m IH]; simpl; auto.
  destruct (String.eqb_spec k k'); simpl; key_cases.
Qed.

Lemma lanesGet_put_other k k' l m :
  k' <> k -> lanesGet k' (lanesPut k l m) = lanesGet k' m.
Proof.
  intros Hne. induction m as [|[k2 l2] m IH]; simpl; auto.
  destruct (String.eqb_spec k k2); simpl; key_cases.
Qed.

Lemma lanesGet_add_same k l m :
  lanesGet k m = None -> lanesGet k (lanesAdd k l m) = Some l.
Proof.
  unfold lanesAdd. induction m as [|[k2 l2] m IH]; simpl; intros H.
  - now rewrite String.eqb_refl.
  - destruct (String.eqb_spec k k2); [discriminate | auto].
Qed.

Lemma lanesGet_add_other k k' l m :
  k' <> k -> lanesGet k' (lanesAdd k l m) = lanesGet k' m.
Proof.
  unfold lanesAdd. intros Hne. induction m as [|[k2 l2] m IH]; simpl.
  - key_cases.
  - now rewrite IH.
Qed.

Lemma lanesGet_delete_same k m : lanesGet k (lanesDelete k m) = None.
Proof.
  induction m as [|[k2 l2] m IH]; simpl; auto.
  destruct (String.eqb_spec k k2); simpl; key_cases.
Qed.

Lemma lanesGet_delete_other k k' m :
  k' <> k -> lanesGet k' (lanesDelete k m) = lanesGet k' m.
Proof.
  intros Hne. induction m as [|[k2 l2] m IH]; simpl; auto.
  destruct (String.eqb_spec k k2); simpl; key_cases.
Qed.

Lemma keys_put k l m : map fst (lanesPut k l m) = map fst m.
Proof.
  induction m as [|[k2 l2] m IH]; simpl; auto.
  destruct (String.eqb k k2); simpl; congruence.
Qed.

Lemma lanesGet_None_notin k m :
  lanesGet k m = None <-> ~ In k (map fst m).
Proof.
  induction m as [|[k2 l2] m IH]; simpl.
  - tauto.
  - destruct (String.eqb_spec k k2); subst.
    + split; [discriminate | tauto].
    + rewrite IH. split; intros H; [intros [E|E]; [congruence | tauto] | tauto].
Qed.

Lemma settled_rejectAll ts e st :
  settled (rejectAll ts e st) =
  settled st ++ map (fun t => (t, Rejected e)) ts.
Proof.
  unfold rejectAll. revert st.
  induction ts as [|t ts IH]; intros st; simpl.
  - now rewrite app_nil_r.
  - rewrite IH. simpl. now rewrite <- app_assoc.
Qed.

Lemma rejectAll_eq ts e st :
  rejectAll ts e st =
  {| lanes := lanes st; globalConcurrency := globalConcurrency st;
     taskIdCounter := taskIdCounter st;
     settled := settled st ++ map (fun t => (t, Rejected e)) ts |}.
Proof.
  unfold rejectAll. revert st.
  induction ts as [|t ts IH]; intros st; simpl.
  - rewrite app_nil_r. now destruct st.
  - rewrite IH. simpl. now rewrite <- app_assoc.
Qed.

Lemma lanes_rejectAll ts e st : lanes (rejectAll ts e st) = lanes st.
Proof.
  unfold rejectAll. revert st. induction ts; intros; simpl; auto.
  now rewrite IHts.
Qed.

Lemma gc_rejectAll ts e st :
  globalConcurrency (rejectAll ts e st) = globalConcurrency st.
Proof.
  unfold rejectAll. revert st. induction ts; intros; simpl; auto.
  now rewrite IHts.
Qed.

Lemma counter_rejectAll ts e st :
  taskIdCounter (rejectAll ts e st) = taskIdCounter st.
Proof.
  unfold rejectAll. revert st. induction ts; intros; simpl; auto.
  now rewrite IHts.
Qed.

Lemma lanesPut_put k l1 l2 m :
  lanesPut k l2 (lanesPut k l1 m) = lanesPut k l2 m.
Proof.
  induction m as [|[k2 l3] m IH]; simpl; auto.
  destruct (String.eqb k k2) eqn:E; simpl; rewrite E; congruence.
Qed.

Lemma lanesGet_In k l m : lanesGet k m = Some l -> In (k, l) m.
Proof.
  induction m as [|[k2 l2] m IH]; simpl; [discriminate|].
  destruct (String.eqb_spec k k2); subst; intros H.
  - left. congruence.
  - right. auto.
Qed.

Lemma len_nil_iff {A} (l : list A) : (len l =? 0) = true <-> l = [].
Proof.
  unfold len. destruct l; simpl; split; intros H; try reflexivity;
    try discriminate; apply Z.eqb_eq in H; lia.
Qed.

Lemma len_pos_iff {A} (l : list A) : (len l >? 0) = true <-> l <> [].
Proof.
  unfold len. destruct l; simpl; split; intros H; try congruence;
    try discriminate; reflexivity.
Qed.

Lemma geb_false a b : (a >=? b) = false <-> a < b.
Proof. rewrite Z.geb_leb, Z.leb_gt. tauto. Qed.

Lemma geb_true a b : (a >=? b) = true <-> b <= a.
Proof. rewrite Z.geb_leb, Z.leb_le. tauto. Qed.

Lemma len_eqb_cons {A} (x : A) l : (len (x :: l) =? 0) = false.
Proof. unfold len. simpl. reflexivity. Qed.

Lemma len_gtb_cons {A} (x : A) l : (len (x :: l) >? 0) = true.
Proof. unfold len. simpl. reflexivity. Qed.

Lemma processLane_cases cfg k st :
  processLane cfg k st = st \/
  exists lane t rest,
    lanesGet k (lanes st) = Some lane /\ processing lane = false /\
    queue lane = t :: rest /\ globalConcurrency st < maxConcurrency cfg /\
    processLane cfg k st = started k st rest t.
Proof.
  unfold processLane.
  destruct (lanesGet k (lanes st)) as [lane|] eqn:Hget; auto.
  destruct (processing lane) eqn:Hp; simpl; auto.
  destruct (queue lane) as [|t rest] eqn:Hq; simpl; auto.
  try rewrite len_eqb_cons.
  destruct (globalConcurrency st >=? maxConcurrency cfg) eqn:Hc; auto.
  right. exists lane, t, rest. repeat split; auto.
  - apply geb_false in Hc. lia.
  - unfold pumpShift, putLane, withLanes, started. simpl.
    rewrite lanesGet_put_same, Hget. simpl.
    now rewrite lanesPut_put.
Qed.

(** ** Counting the processing lanes *)

Lemma count_cons k l m :
  countProcessing ((k, l) :: m) = Z.b2z (processing l) + countProcessing m.
Proof.
  unfold countProcessing, len. simpl.
  destruct (processing l); cbn [List.length Z.b2z];
    rewrite ?Nat2Z.inj_succ; lia.
Qed.


Lemma count_put k l l' m :
  lanesGet k m = Some l ->
  countProcessing (lanesPut k l' m) =
  countProcessing m - Z.b2z (processing l) + Z.b2z (processing l').
Proof.
  induction m as [|[k2 l2] m IH]; simpl; [discriminate|].
  destruct (String.eqb_spec k k2); subst; intros H.
  - injection H as ->. rewrite !count_cons. lia.
  - rewrite !count_cons, IH by assumption. lia.
Qed.

Lemma count_add k l m :
  countProcessing (lanesAdd k l m) = countProcessing m + Z.b2z (processing l).
Proof.
  unfold lanesAdd. induction m as [|[k2 l2] m IH]; simpl.
  - rewrite count_cons. unfold countProcessing, len. simpl. lia.
  - rewrite !count_cons, IH. lia.
Qed.

Lemma lanesDelete_absent k m :
  ~ In k (map fst m) -> lanesDelete k m = m.
Proof.
  induction m as [|[k2 l2] m IH]; simpl; auto.
  intros H. destruct (String.eqb_spec k k2); subst.
  - tauto.
  - rewrite IH; tauto.
Qed.

Lemma count_delete k l m :
  NoDup (map fst m) -> lanesGet k m = Some l ->
  countProcessing (lanesDelete k m) = countProcessing m - Z.b2z (processing l).
Proof.
  induction m as [|[k2 l2] m IH]; simpl; [discriminate|].
  intros Hnd H. inversion Hnd as [|? ? Hnot Hnd']; subst.
  destruct (String.eqb_spec k k2); subst.
  - injection H as ->. rewrite lanesDelete_absent by assumption.
    rewrite count_cons. lia.
  - rewrite !count_cons, IH by assumption. lia.
Qed.

Lemma keys_delete k m :
  map fst (lanesDelete k m) = filter (fun x => negb (String.eqb k x)) (map fst m).
Proof.
  induction m as [|[k2 l2] m IH]; simpl; auto.
  destruct (String.eqb k k2); simpl; congruence.
Qed.

Lemma NoDup_delete k m :
  NoDup (map fst m) -> NoDup (map fst (lanesDelete k m)).
Proof. intros H. rewrite keys_delete. now apply NoDup_filter. Qed.

Lemma NoDup_add k l m :
  lanesGet k m = None -> NoDup (map fst m) -> NoDup (map fst (lanesAdd k l m)).
Proof.
  intros Hget Hnd. unfold lanesAdd. rewrite map_app. simpl.
  apply NoDup_app; auto.
  - constructor; [simpl; tauto | constructor].
  - intros x Hx [E|[]]. simpl in E. subst.
    now apply lanesGet_None_notin in Hget.
Qed.

(** ** Consistent lanes *)

Lemma ok_put k l m :
  Forall laneOK m -> laneOK (k, l) -> Forall laneOK (lanesPut k l m).
Proof.
  intros Hm Hl. induction m as [|[k2 l2] m IH]; simpl; auto.
  inversion Hm; subst.
  destruct (String.eqb_spec k k2); subst; constructor; auto.
Qed.

Lemma ok_add k l m :
  Forall laneOK m -> laneOK (k, l) -> Forall laneOK (lanesAdd k l m).
Proof.
  intros Hm Hl. unfold lanesAdd. apply Forall_app. split; auto.
Qed.

Lemma ok_delete k m : Forall laneOK m -> Forall laneOK (lanesDelete k m).
Proof.
  intros Hm. induction m as [|[k2 l2] m IH]; simpl; auto.
  inversion Hm; subst.
  destruct (String.eqb k k2); auto.
Qed.

Lemma ok_get k l m : Forall laneOK m -> lanesGet k m = Some l -> laneOK (k, l).
Proof.
  intros Hm Hget. apply lanesGet_In in Hget.
  rewrite Forall_forall in Hm. now apply Hm.
Qed.

(** ** The invariant is kept by every piece of the scheduler *)

Lemma Inv_initial cfg : Inv cfg initial.
Proof.
  unfold Inv, initial, processingCount. simpl.
  repeat split; auto; try lia. constructor.
Qed.

Lemma Inv_put cfg k l l' st :
  Inv cfg st -> lanesGet k (lanes st) = Some l ->
  processing l' = processing l -> laneOK (k, l') ->
  Inv cfg (putLane k l' st).
Proof.
  intros (Hnd & Hc & Hb & Hok) Hg Hp Hl.
  unfold Inv, putLane, withLanes, processingCount in *. simpl.
  rewrite keys_put, (count_put k l l' _ Hg), Hp.
  repeat split; auto; try lia. now apply ok_put.
Qed.

Lemma Inv_settle cfg t s st : Inv cfg st -> Inv cfg (settle t s st).
Proof. unfold Inv, settle, processingCount. simpl. auto. Qed.

Lemma Inv_rejectAll cfg ts e st : Inv cfg st -> Inv cfg (rejectAll ts e st).
Proof.
  unfold rejectAll. revert st.
  induction ts as [|t ts IH]; simpl; intros st H; auto using Inv_settle.
Qed.

Lemma Inv_started cfg k lane t rest st :
  Inv cfg st -> lanesGet k (lanes st) = Some lane ->
  processing lane = false -> queue lane = t :: rest ->
  globalConcurrency st < maxConcurrency cfg ->
  Inv cfg (started k st rest t).
Proof.
  intros (Hnd & Hc & Hb & Hok) Hg Hp Hq Hlt.
  pose proof (ok_get _ _ _ Hok Hg) as (_ & Hkeys & _). simpl in Hkeys.
  unfold Inv, started, processingCount in *. simpl.
  rewrite keys_put, (count_put k lane _ _ Hg), Hp. simpl.
  repeat split; auto; try lia.
  apply ok_put; auto.
  unfold laneOK; simpl. repeat split.
  - discriminate.
  - intros t' Hin. apply Hkeys. rewrite Hq. now right.
  - intros t' [= <-]. apply Hkeys. rewrite Hq. now left.
Qed.

Lemma Inv_processLane cfg k st : Inv cfg st -> Inv cfg (processLane cfg k st).
Proof.
  intros H.
  destruct (processLane_cases cfg k st)
    as [-> | (lane & t & rest & Hg & Hp & Hq & Hlt & ->)]; auto.
  eapply Inv_started; eauto.
Qed.

Lemma Inv_pendingLoop cfg keys st :
  Inv cfg st -> Inv cfg (pendingLoop cfg keys st).
Proof.
  revert st. induction keys as [|k keys IH]; simpl; intros st H; auto.
  destruct (lanesGet k (lanes st)) as [lane|]; auto.
  destruct (negb (processing lane) && (len (queue lane) >? 0)); auto.
  destruct (globalConcurrency (processLane cfg k st) >=? maxConcurrency cfg);
    auto using Inv_processLane.
Qed.

Lemma Inv_tryProcessPendingLanes cfg st :
  Inv cfg st -> Inv cfg (tryProcessPendingLanes cfg st).
Proof.
  intros H. unfold tryProcessPendingLanes.
  destruct (globalConcurrency st >=? maxConcurrency cfg);
    auto using Inv_pendingLoop.
Qed.

Lemma Inv_cleanupEmptyLane cfg k st :
  Inv cfg st -> Inv cfg (cleanupEmptyLane k st).
Proof.
  intros H. unfold cleanupEmptyLane.
  destruct (lanesGet k (lanes st)) as [lane|] eqn:Hg; auto.
  destruct ((len (queue lane) =? 0) && negb (processing lane)) eqn:Hc; auto.
  apply andb_prop in Hc as [_ Hp]. apply negb_true_iff in Hp.
  destruct H as (Hnd & Hc & Hb & Hok).
  unfold Inv, withLanes, processingCount in *. simpl.
  rewrite (count_delete k lane _ Hnd Hg), Hp. simpl.
  repeat split; auto using NoDup_delete, ok_delete; lia.
Qed.

Lemma Inv_pumpRelease cfg k lane st :
  Inv cfg st -> lanesGet k (lanes st) = Some lane ->
  processing lane = true -> Inv cfg (pumpRelease k st).
Proof.
  intros H Hg Hp. unfold pumpRelease. rewrite Hg.
  apply Inv_cleanupEmptyLane.
  destruct H as (Hnd & Hc & Hb & Hok).
  pose proof (ok_get _ _ _ Hok Hg) as (_ & Hkeys & _). simpl in Hkeys.
  unfold Inv, putLane, withLanes, processingCount in *. simpl.
  rewrite keys_put, (count_put k lane _ _ Hg), Hp. simpl.
  repeat split; auto; try lia.
  apply ok_put; auto.
  unfold laneOK; simpl. repeat split; auto; discriminate.
Qed.

Lemma Inv_pumpShift cfg k lane st :
  Inv cfg st -> lanesGet k (lanes st) = Some lane ->
  processing lane = true -> Inv cfg (pumpShift k st).
Proof.
  intros H Hg Hp. unfold pumpShift. rewrite Hg.
  destruct (queue lane) as [|t rest] eqn:Hq; auto.
  pose proof H as (_ & _ & _ & Hok).
  pose proof (ok_get _ _ _ Hok Hg) as (_ & Hkeys & _). simpl in Hkeys.
  eapply Inv_put; eauto.
  unfold laneOK; simpl. repeat split.
  - congruence.
  - intros t' Hin. apply Hkeys. rewrite Hq. now right.
  - intros t' [= <-]. apply Hkeys. rewrite Hq. now left.
Qed.

Lemma Inv_pumpLoop cfg k lane st :
  Inv cfg st -> lanesGet k (lanes st) = Some lane ->
  processing lane = true -> Inv cfg (pumpLoop cfg k st).
Proof.
  intros H Hg Hp. unfold pumpLoop. rewrite Hg.
  destruct (len (queue lane) >? 0).
  - eapply Inv_pumpShift; eauto.
  - unfold pumpFinally. apply Inv_tryProcessPendingLanes.
    eapply Inv_pumpRelease; eauto.
Qed.

Lemma Inv_pumpResume cfg k o st : Inv cfg st -> Inv cfg (pumpResume cfg k o st).
Proof.
  intros H. unfold pumpResume.
  destruct (lanesGet k (lanes st)) as [lane|] eqn:Hg; auto.
  destruct (currentTask lane) as [task|] eqn:Hcur; auto.
  pose proof H as (_ & _ & _ & Hok).
  pose proof (ok_get _ _ _ Hok Hg) as (Hidle & Hkeys & _). simpl in *.
  assert (Hp : processing lane = true).
  { destruct (processing lane); auto. specialize (Hidle eq_refl). congruence. }
  eapply Inv_pumpLoop with
    (lane := {| queue := queue lane; processing := processing lane;
                currentTask := None |}); auto.
  - eapply Inv_put with (l := lane); eauto using Inv_settle.
    unfold laneOK; simpl. repeat split; auto; discriminate.
  - unfold putLane, withLanes. simpl. now rewrite lanesGet_put_same, Hg.
Qed.

(** ** The two ways [enqueue] ends *)

Lemma getOrCreateLane_lane k st :
  lanesGet k (lanes (snd (getOrCreateLane k st))) = Some (fst (getOrCreateLane k st)) /\
  queue (fst (getOrCreateLane k st)) = queueOf k st /\
  currentTask (fst (getOrCreateLane k st)) = currentOf k st /\
  processing (fst (getOrCreateLane k st)) = isProcessing k st.
Proof.
  unfold getOrCreateLane, queueOf, currentOf, isProcessing.
  destruct (lanesGet k (lanes st)) as [lane|] eqn:Hg; simpl; auto.
  rewrite lanesGet_add_same; auto.
Qed.

Lemma getOrCreateLane_rest k st :
  globalConcurrency (snd (getOrCreateLane k st)) = globalConcurrency st /\
  taskIdCounter (snd (getOrCreateLane k st)) = taskIdCounter st /\
  settled (snd (getOrCreateLane k st)) = settled st /\
  forall k', k' <> k ->
    lanesGet k' (lanes (snd (getOrCreateLane k st))) = lanesGet k' (lanes st).
Proof.
  unfold getOrCreateLane.
  destruct (lanesGet k (lanes st)) as [lane|] eqn:Hg; simpl; auto.
  repeat split; auto. intros k' Hne. now apply lanesGet_add_other.
Qed.

Lemma Inv_getOrCreateLane cfg k st :
  Inv cfg st -> Inv cfg (snd (getOrCreateLane k st)).
Proof.
  intros H. unfold getOrCreateLane.
  destruct (lanesGet k (lanes st)) as [lane|] eqn:Hg; simpl; auto.
  destruct H as (Hnd & Hc & Hb & Hok).
  unfold Inv, withLanes, processingCount in *. simpl.
  rewrite count_add. simpl.
  repeat split; auto using NoDup_add; try lia.
  apply ok_add; auto. unfold laneOK; simpl. repeat split; auto.
  - intros t [].
  - discriminate.
Qed.

Lemma enqueue_overflow cfg k om op now st :
  overflows cfg k st = true ->
  enqueue cfg k om op now st =
  (inl (match overflowStrategy cfg with
        | reject => OverflowRejected
        | _ => OverflowDropped
        end), snd (getOrCreateLane k st)).
Proof.
  unfold overflows, enqueue. intros H.
  destruct (getOrCreateLane_lane k st) as (_ & Hq & _).
  destruct (getOrCreateLane k st) as [lane st1]. simpl in *.
  rewrite Hq. apply andb_prop in H as [-> Hs].
  destruct (overflowStrategy cfg); auto; discriminate.
Qed.

Lemma enqueue_accepted cfg k om op now st :
  overflows cfg k st = false ->
  enqueue cfg k om op now st =
  (inr (newTask cfg k om op now st),
   processLane cfg k (inserted cfg k om op now st)).
Proof.
  unfold overflows, enqueue, inserted, newTask, kept, superseded.
  intros H.
  destruct (getOrCreateLane_lane k st) as (_ & Hq & _).
  destruct (getOrCreateLane_rest k st) as (Hgc & Hid & Hlog & _).
  destruct (getOrCreateLane k st) as [lane st1]. simpl in *.
  rewrite Hq in *. rewrite Hgc, Hid, Hlog.
  set (m := orElse om (defaultMode cfg)).
  assert (Hbody :
    forall q st3,
      (q, st3) =
      (if QueueMode_eqb m steer && (len (queueOf k st) >? 0)
       then supersede (queueOf k st)
              {| lanes := lanes st1; globalConcurrency := globalConcurrency st;
                 taskIdCounter := S (taskIdCounter st); settled := settled st |}
       else (queueOf k st,
             {| lanes := lanes st1; globalConcurrency := globalConcurrency st;
                taskIdCounter := S (taskIdCounter st); settled := settled st |})) ->
      q = (if QueueMode_eqb m steer
           then filter (fun t => negb (isCollect t)) (queueOf k st)
           else queueOf k st) /\
      st3 = {| lanes := lanes st1; globalConcurrency := globalConcurrency st;
               taskIdCounter := S (taskIdCounter st);
               settled := settled st ++
                 map (fun t => (t, Rejected SteerSuperseded))
                   (if QueueMode_eqb m steer
                    then filter isCollect (queueOf k st) else []) |}).
  { intros q st3. destruct (QueueMode_eqb m steer); simpl.
    - destruct (queueOf k st) as [|t q0] eqn:Eq.
      + simpl. intros [= -> ->]. now rewrite app_nil_r.
      + rewrite len_gtb_cons. unfold supersede. rewrite rejectAll_eq. simpl.
        intros [= -> ->]. split; auto.
    - intros [= -> ->]. now rewrite app_nil_r. }
  destruct (if QueueMode_eqb m steer && (len (queueOf k st) >? 0)
            then _ else _) as [q st3] eqn:Ebody.
  destruct (Hbody q st3 eq_refl) as [-> ->].
  unfold putLane, withLanes. simpl.
  destruct (len (queueOf k st) >=? maxQueueSize cfg); simpl in H;
    destruct (overflowStrategy cfg); try discriminate; reflexivity.
Qed.

Lemma In_insertByPriority q task t :
  In t (insertByPriority q task) <-> t = task \/ In t q.
Proof.
  induction q as [|x q IH]; simpl.
  - split; [intros [H|[]]; auto | intros [H|[]]; auto].
  - destruct (priority task >? priority x); simpl.
    + split; intros [H|H]; auto.
    + rewrite IH. split; intros H; intuition auto.
Qed.

Lemma In_kept m q t : In t (kept m q) -> In t q.
Proof.
  unfold kept. destruct (QueueMode_eqb m steer); auto.
  intros H. now apply filter_In in H.
Qed.

Lemma Inv_ext cfg s s' :
  lanes s = lanes s' -> globalConcurrency s = globalConcurrency s' ->
  Inv cfg s -> Inv cfg s'.
Proof.
  unfold Inv, processingCount. intros <- <-. auto.
Qed.

Lemma Inv_inserted cfg k om op now st :
  Inv cfg st -> Inv cfg (inserted cfg k om op now st).
Proof.
  intros H.
  pose proof (Inv_getOrCreateLane cfg k st H) as H1.
  destruct (getOrCreateLane_lane k st) as (Hg & _).
  destruct (getOrCreateLane_rest k st) as (Hgc & _).
  pose proof H1 as (_ & _ & _ & Hok).
  pose proof (ok_get _ _ _ Hok Hg) as (Hidle & Hkeys & Hcur). simpl in *.
  eapply Inv_ext;
    [| | eapply Inv_put with
           (l' := {| queue := insertByPriority
                        (kept (orElse om (defaultMode cfg))
                           (queue (fst (getOrCreateLane k st))))
                        (newTask cfg k om op now st);
                     processing := processing (fst (getOrCreateLane k st));
                     currentTask := currentTask (fst (getOrCreateLane k st)) |});
         [exact H1 | exact Hg | reflexivity |]].
  - reflexivity.
  - simpl. auto.
  - unfold laneOK; simpl. repeat split; auto.
    intros t Hin. apply In_insertByPriority in Hin as [-> | Hin]; auto.
    apply Hkeys. eapply In_kept; eauto.
Qed.

Lemma Inv_enqueue cfg k om op now st :
  Inv cfg st -> Inv cfg (snd (enqueue cfg k om op now st)).
Proof.
  intros H. destruct (overflows cfg k st) eqn:Hov.
  - rewrite enqueue_overflow by assumption. simpl.
    now apply Inv_getOrCreateLane.
  - rewrite enqueue_accepted by assumption. simpl.
    now apply Inv_processLane, Inv_inserted.
Qed.

Lemma Inv_clearLane cfg k st : Inv cfg st -> Inv cfg (clearLane k st).
Proof.
  intros H. unfold clearLane.
  destruct (lanesGet k (lanes st)) as [lane|] eqn:Hg; auto.
  pose proof H as (_ & _ & _ & Hok).
  pose proof (ok_get _ _ _ Hok Hg) as (Hidle & Hkeys & Hcur). simpl in *.
  eapply Inv_put with (l := lane); auto using Inv_rejectAll.
  - now rewrite lanes_rejectAll.
  - unfold laneOK; simpl. repeat split; auto. intros t [].
Qed.

Lemma Inv_clearAll cfg keys st :
  Inv cfg st -> Inv cfg (fold_left (fun s k' => clearLane k' s) keys st).
Proof.
  revert st. induction keys as [|k keys IH]; simpl; intros st H; auto.
  apply IH. now apply Inv_clearLane.
Qed.

Lemma abort_clearLane k st :
  lanes (snd (abort k st)) = lanes (clearLane k st) /\
  globalConcurrency (snd (abort k st)) = globalConcurrency (clearLane k st).
Proof.
  unfold abort, clearLane.
  destruct (lanesGet k (lanes st)) as [lane|]; simpl; auto.
  now rewrite !lanes_rejectAll, !gc_rejectAll.
Qed.

Lemma Inv_step cfg st op : Inv cfg st -> Inv cfg (step cfg st op).
Proof.
  intros H. destruct op as [k m p now | k | [k|] | k o]; simpl.
  - now apply Inv_enqueue.
  - destruct (abort_clearLane k st) as [E1 E2].
    eapply Inv_ext; [symmetry; exact E1 | symmetry; exact E2 |].
    now apply Inv_clearLane.
  - destruct (String.eqb k EmptyString);
      auto using Inv_clearAll, Inv_clearLane.
  - now apply Inv_clearAll.
  - now apply Inv_pumpResume.
Qed.

Lemma Inv_steps cfg ops st :
  Inv cfg st -> Inv cfg (fold_left (step cfg) ops st).
Proof.
  revert st. induction ops as [|op ops IH]; simpl; intros st H; auto.
  apply IH. now apply Inv_step.
Qed.

Lemma Inv_run cfg ops : Inv cfg (run cfg ops).
Proof. apply Inv_steps, Inv_initial. Qed.

(** ** The concurrency counter *)

Lemma pumpResume_exit cfg k o st lane task :
  lanesGet k (lanes st) = Some lane -> currentTask lane = Some task ->
  queue lane = [] ->
  pumpResume cfg k o st =
  tryProcessPendingLanes cfg
    {| lanes := lanesDelete k (lanes st);
       globalConcurrency := globalConcurrency st - 1;
       taskIdCounter := taskIdCounter st;
       settled := settled st ++ [(task, settlementOf o)] |}.
Proof.
  intros Hg Hcur Hq.
  unfold pumpResume. rewrite Hg, Hcur.
  unfold pumpLoop, putLane, withLanes, settle. simpl.
  rewrite lanesGet_put_same, Hg. simpl. rewrite Hq. simpl.
  unfold pumpFinally, pumpRelease, putLane, withLanes. simpl.
  rewrite lanesGet_put_same, Hg. simpl.
  unfold cleanupEmptyLane, withLanes. simpl.
  rewrite lanesPut_put, lanesGet_put_same, Hg. simpl.
  f_equal. f_equal.
  clear. induction (lanes st) as [|[k2 l2] m IH]; simpl; auto.
  destruct (String.eqb_spec k k2); subst; simpl.
  - now rewrite String.eqb_refl.
  - destruct (String.eqb_spec k k2); congruence.
Qed.




(** ** The lanes seen through [enqueue] and [processLane] *)

Lemma lane_inserted_same cfg k om op now st :
  lanesGet k (lanes (inserted cfg k om op now st)) =
  Some {| queue := insertByPriority
                     (kept (orElse om (defaultMode cfg)) (queueOf k st))
                     (newTask cfg k om op now st);
          processing := isProcessing k st;
          currentTask := currentOf k st |}.
Proof.
  destruct (getOrCreateLane_lane k st) as (Hg & Hq & Hc & Hp).
  unfold inserted. simpl.
  rewrite lanesGet_put_same, Hg, Hq, Hc, Hp. reflexivity.
Qed.

Lemma lane_inserted_other cfg k om op now st k' :
  k' <> k ->
  lanesGet k' (lanes (inserted cfg k om op now st)) = lanesGet k' (lanes st).
Proof.
  intros Hne.
  destruct (getOrCreateLane_rest k st) as (_ & _ & _ & Hrest).
  unfold inserted. simpl.
  rewrite lanesGet_put_other by assumption. auto.
Qed.

Lemma settled_inserted cfg k om op now st :
  settled (inserted cfg k om op now st) =
  settled st ++
  map (fun t => (t, Rejected SteerSuperseded))
    (superseded (orElse om (defaultMode cfg)) (queueOf k st)).
Proof.
  destruct (getOrCreateLane_lane k st) as (_ & Hq & _).
  unfold inserted. simpl. now rewrite Hq.
Qed.

Lemma processLane_other cfg k st k' :
  k' <> k ->
  lanesGet k' (lanes (processLane cfg k st)) = lanesGet k' (lanes st).
Proof.
  intros Hne.
  destruct (processLane_cases cfg k st)
    as [-> | (lane & t & rest & _ & _ & _ & _ & ->)]; auto.
  unfold started. simpl. now apply lanesGet_put_other.
Qed.

Lemma processLane_settled cfg k st :
  settled (processLane cfg k st) = settled st /\
  taskIdCounter (processLane cfg k st) = taskIdCounter st.
Proof.
  destruct (processLane_cases cfg k st)
    as [-> | (lane & t & rest & _ & _ & _ & _ & ->)]; auto.
Qed.

Lemma processLane_busy cfg k st :
  isProcessing k st = true -> processLane cfg k st = st.
Proof.
  unfold isProcessing, processLane.
  destruct (lanesGet k (lanes st)) as [lane|]; auto.
  now intros ->.
Qed.

Lemma isProcessing_inserted cfg k om op now st :
  isProcessing k (inserted cfg k om op now st) = isProcessing k st.
Proof.
  unfold isProcessing at 1. now rewrite lane_inserted_same.
Qed.

(** The new task is queued or, if the pump started with it, running. *)
Lemma processLane_keeps cfg k st t :
  In t (queueOf k st) ->
  In t (queueOf k (processLane cfg k st)) \/
  currentOf k (processLane cfg k st) = Some t.
Proof.
  intros Hin.
  destruct (processLane_cases cfg k st)
    as [-> | (lane & t0 & rest & Hg & _ & Hq & _ & ->)]; auto.
  unfold queueOf, currentOf, started in *. simpl.
  rewrite lanesGet_put_same, Hg in *. simpl.
  rewrite Hq in Hin. destruct Hin as [-> | Hin]; auto.
Qed.

(** ** Overflow *)

(** C6. When the queue of the lane has reached [maxQueueSize]: under
    [drop] and [reject] the call fails at once with the overflow error of
    the strategy, no task is created, and no queue, running task or
    settlement changes; under [wait] the task is created and inserted all
    the same, so that the queue of a busy lane grows beyond the bound. *)
Theorem enqueue_at_capacity (cfg : LaneQueueConfig) (k : string)
  (om : option QueueMode) (op : option Z) (now : Z) (st : State) :
  maxQueueSize cfg <= len (queueOf k st) ->
  let r := enqueue cfg k om op now st in
  let unchanged :=
    (forall k', queueOf k' (snd r) = queueOf k' st) /\
    (forall k', currentOf k' (snd r) = currentOf k' st) /\
    settled (snd r) = settled st /\
    taskIdCounter (snd r) = taskIdCounter st /\
    globalConcurrency (snd r) = globalConcurrency st in
  match overflowStrategy cfg with
  | drop => fst r = inl OverflowDropped /\ unchanged
  | reject => fst r = inl OverflowRejected /\ unchanged
  | wait =>
      let task := newTask cfg k om op now st in
      let q := insertByPriority
                 (kept (orElse om (defaultMode cfg)) (queueOf k st)) task in
      fst r = inr task /\
      (In task (queueOf k (snd r)) \/ currentOf k (snd r) = Some task) /\
      (isProcessing k st = true -> queueOf k (snd r) = q)
  end.
Proof.
  intros Hfull r unchanged.
  assert (Hun : overflows cfg k st = true -> unchanged).
  { intros Hov. unfold unchanged, r. rewrite enqueue_overflow by assumption.
    simpl. destruct (getOrCreateLane_rest k st) as (Hgc & Hid & Hlog & Hrest).
    destruct (getOrCreateLane_lane k st) as (Hg & Hq & Hc & _).
    repeat split; auto; intros k'; unfold queueOf, currentOf in *;
      (destruct (String.eqb_spec k' k); subst; [rewrite Hg; auto | rewrite Hrest; auto]). }
  assert (Hge : (len (queueOf k st) >=? maxQueueSize cfg) = true)
    by (apply geb_true; lia).
  destruct (overflowStrategy cfg) eqn:Hs.
  - assert (Hov : overflows cfg k st = true)
      by (unfold overflows; rewrite Hge, Hs; reflexivity).
    split; auto. unfold r. rewrite enqueue_overflow by assumption.
    now rewrite Hs.
  - assert (Hov : overflows cfg k st = true)
      by (unfold overflows; rewrite Hge, Hs; reflexivity).
    split; auto. unfold r. rewrite enqueue_overflow by assumption.
    now rewrite Hs.
  - assert (Hov : overflows cfg k st = false)
      by (unfold overflows; rewrite Hge, Hs; reflexivity).
    unfold r. rewrite enqueue_accepted by assumption. simpl.
    split; [reflexivity | split].
    + apply processLane_keeps. unfold queueOf.
      rewrite lane_inserted_same. simpl.
      apply In_insertByPriority. now left.
    + intros Hbusy. rewrite processLane_busy
        by (now rewrite isProcessing_inserted).
      unfold queueOf. now rewrite lane_inserted_same.
Qed.

Lemma enqueue_at_capacity_witness :
  let cfg := constructor (mkOptions (Some 1) (Some 1) None None None) in
  let st := run cfg [Enqueue "s1" None None 0; Enqueue "s1" None None 1] in
  let r := enqueue cfg "s1" None None 2 st in
  maxQueueSize cfg <= len (queueOf "s1" st) /\
  fst r = inr (newTask cfg "s1" None None 2 st) /\
  len (queueOf "s1" (snd r)) = 2.
Proof.
  intros cfg st r.
  assert (H0 : maxQueueSize cfg <= len (queueOf "s1" st))
    by (vm_compute; discriminate).
  split; [exact H0|].
  pose proof (enqueue_at_capacity cfg "s1" None None 2 st H0) as H.
  change (overflowStrategy cfg) with wait in H.
  destruct H as (Hr & _ & Hq).
  split; [exact Hr|]. fold r in Hq. rewrite Hq; reflexivity.
Defined.

(** ** Steer *)




(** ** Empty lanes *)

(** C3, at an input where it fails.  With a ceiling of one, lane s2 waits
    behind lane s1; [abort] (and likewise [clear]) empties the queue of s2
    and returns, and the idle, empty lane s2 is still in the table. *)
Lemma abort_leaves_empty_idle_lane :
  let cfg := constructor (mkOptions (Some 1) None None None None) in
  let st := run cfg [Enqueue "s1" None None 0; Enqueue "s2" None None 1] in
  let empty := {| queue := []; processing := false; currentTask := None |} in
  fst (abort "s2" st) = 1 /\
  lanesGet "s2" (lanes (snd (abort "s2" st))) = Some empty /\
  lanesGet "s2" (lanes (clear (Some "s2"%string) st)) = Some empty.
Proof.
  vm_compute. auto.
Qed.

(** ** The pump does not reorder a lane

    Starting a lane moves its first queued task to the running position;
    releasing a lane whose task has settled, and deleting an empty idle
    lane, change neither the settled nor the pending tasks of any lane. *)

Lemma pending_lane k st l :
  lanesGet k (lanes st) = Some l ->
  pending k st = optList (currentTask l) ++ queue l.
Proof. unfold pending, currentOf, queueOf. now intros ->. Qed.

Lemma pending_none k st : lanesGet k (lanes st) = None -> pending k st = [].
Proof. unfold pending, currentOf, queueOf. now intros ->. Qed.

Lemma pending_ext k s s' :
  lanesGet k (lanes s) = lanesGet k (lanes s') -> pending k s = pending k s'.
Proof. unfold pending, currentOf, queueOf. now intros ->. Qed.

Lemma idle_no_current cfg k st lane :
  Inv cfg st -> lanesGet k (lanes st) = Some lane ->
  processing lane = false -> currentTask lane = None.
Proof.
  intros (_ & _ & _ & Hok) Hg Hp.
  pose proof (ok_get _ _ _ Hok Hg) as (Hidle & _). auto.
Qed.

Lemma pending_started cfg k st lane t rest k' :
  Inv cfg st -> lanesGet k (lanes st) = Some lane ->
  processing lane = false -> queue lane = t :: rest ->
  pending k' (started k st rest t) = pending k' st.
Proof.
  intros HI Hg Hp Hq.
  destruct (String.eqb_spec k' k); subst.
  - rewrite (pending_lane k st lane Hg), Hq,
      (idle_no_current cfg k st lane HI Hg Hp).
    erewrite pending_lane
      by (unfold started; cbn [lanes]; rewrite lanesGet_put_same, Hg; reflexivity).
    reflexivity.
  - apply pending_ext. unfold started. cbn [lanes].
    now apply lanesGet_put_other.
Qed.

Lemma pending_processLane cfg k st k' :
  Inv cfg st -> pending k' (processLane cfg k st) = pending k' st.
Proof.
  intros HI.
  destruct (processLane_cases cfg k st)
    as [-> | (lane & t & rest & Hg & Hp & Hq & _ & ->)]; auto.
  eapply pending_started; eauto.
Qed.

Lemma quiet_pendingLoop cfg keys st k' :
  Inv cfg st ->
  pending k' (pendingLoop cfg keys st) = pending k' st /\
  settled (pendingLoop cfg keys st) = settled st.
Proof.
  revert st. induction keys as [|k keys IH]; simpl; intros st HI; auto.
  destruct (lanesGet k (lanes st)) as [lane|]; auto.
  destruct (negb (processing lane) && (len (queue lane) >? 0)); auto.
  pose proof (pending_processLane cfg k st k' HI) as Hp.
  destruct (processLane_settled cfg k st) as [Hs _].
  destruct (globalConcurrency (processLane cfg k st) >=? maxConcurrency cfg);
    auto.
  destruct (IH (processLane cfg k st) (Inv_processLane cfg k st HI)) as [-> ->].
  auto.
Qed.

Lemma quiet_tryProcessPendingLanes cfg st k' :
  Inv cfg st ->
  pending k' (tryProcessPendingLanes cfg st) = pending k' st /\
  settled (tryProcessPendingLanes cfg st) = settled st.
Proof.
  intros HI. unfold tryProcessPendingLanes.
  destruct (globalConcurrency st >=? maxConcurrency cfg); auto.
  now apply quiet_pendingLoop.
Qed.

Lemma quiet_cleanupEmptyLane cfg k st k' :
  Inv cfg st ->
  pending k' (cleanupEmptyLane k st) = pending k' st /\
  settled (cleanupEmptyLane k st) = settled st.
Proof.
  intros HI. unfold cleanupEmptyLane.
  destruct (lanesGet k (lanes st)) as [lane|] eqn:Hg; auto.
  destruct ((len (queue lane) =? 0) && negb (processing lane)) eqn:Hc; auto.
  apply andb_prop in Hc as [Hq Hp].
  apply negb_true_iff in Hp. apply len_nil_iff in Hq.
  split; auto.
  destruct (String.eqb_spec k' k); subst.
  - rewrite (pending_lane k st lane Hg), Hq,
      (idle_no_current cfg k st lane HI Hg Hp).
    apply pending_none. unfold withLanes. cbn [lanes].
    apply lanesGet_delete_same.
  - apply pending_ext. unfold withLanes. cbn [lanes].
    now apply lanesGet_delete_other.
Qed.

(** The lane after the first three statements of the [finally] block. *)
Lemma Inv_released cfg k lane st :
  Inv cfg st -> lanesGet k (lanes st) = Some lane -> processing lane = true ->
  Inv cfg
    {| lanes := lanesPut k {| queue := queue lane; processing := false;
                              currentTask := None |} (lanes st);
       globalConcurrency := globalConcurrency st - 1;
       taskIdCounter := taskIdCounter st;
       settled := settled st |}.
Proof.
  intros (Hnd & Hc & Hb & Hok) Hg Hp.
  pose proof (ok_get _ _ _ Hok Hg) as (_ & Hkeys & _). simpl in Hkeys.
  unfold Inv, processingCount in *. simpl.
  rewrite keys_put, (count_put k lane _ _ Hg), Hp. simpl.
  repeat split; auto; try lia.
  apply ok_put; auto.
  unfold laneOK; simpl. repeat split; auto; discriminate.
Qed.

Lemma quiet_pumpRelease cfg k lane st k' :
  Inv cfg st -> lanesGet k (lanes st) = Some lane ->
  processing lane = true -> currentTask lane = None ->
  pending k' (pumpRelease k st) = pending k' st /\
  settled (pumpRelease k st) = settled st.
Proof.
  intros HI Hg Hp Hcur. unfold pumpRelease. rewrite Hg.
  unfold putLane, withLanes. cbn [lanes globalConcurrency taskIdCounter settled].
  pose proof (Inv_released cfg k lane st HI Hg Hp) as HI2.
  destruct (quiet_cleanupEmptyLane cfg k _ k' HI2) as [-> ->].
  split; auto.
  destruct (String.eqb_spec k' k); subst.
  - rewrite (pending_lane k st lane Hg), Hcur.
    erewrite pending_lane
      by (cbn [lanes]; rewrite lanesGet_put_same, Hg; reflexivity).
    reflexivity.
  - apply pending_ext. cbn [lanes]. now apply lanesGet_put_other.
Qed.

Lemma quiet_pumpShift k lane st k' :
  lanesGet k (lanes st) = Some lane -> currentTask lane = None ->
  pending k' (pumpShift k st) = pending k' st /\
  settled (pumpShift k st) = settled st.
Proof.
  intros Hg Hcur. unfold pumpShift. rewrite Hg.
  destruct (queue lane) as [|t rest] eqn:Hq; auto.
  split; auto.
  destruct (String.eqb_spec k' k); subst.
  - rewrite (pending_lane k st lane Hg), Hq, Hcur.
    erewrite pending_lane
      by (unfold putLane, withLanes; cbn [lanes];
          rewrite lanesGet_put_same, Hg; reflexivity).
    reflexivity.
  - apply pending_ext. unfold putLane, withLanes. cbn [lanes].
    now apply lanesGet_put_other.
Qed.

Lemma quiet_pumpLoop cfg k lane st k' :
  Inv cfg st -> lanesGet k (lanes st) = Some lane ->
  processing lane = true -> currentTask lane = None ->
  pending k' (pumpLoop cfg k st) = pending k' st /\
  settled (pumpLoop cfg k st) = settled st.
Proof.
  intros HI Hg Hp Hcur. unfold pumpLoop. rewrite Hg.
  destruct (len (queue lane) >? 0).
  - eapply quiet_pumpShift; eauto.
  - unfold pumpFinally.
    destruct (quiet_tryProcessPendingLanes cfg (pumpRelease k st) k'
                (Inv_pumpRelease cfg k lane st HI Hg Hp)) as [-> ->].
    eapply quiet_pumpRelease; eauto.
Qed.

(** ** The history of a lane *)

Lemma onKey_app k a b : onKey k (a ++ b) = onKey k a ++ onKey k b.
Proof. unfold onKey. apply filter_app. Qed.

Lemma onKey_other k k1 ts :
  (forall t, In t ts -> sessionKey t = k1) -> k1 <> k -> onKey k ts = [].
Proof.
  intros H Hne. induction ts as [|t ts IH]; simpl; auto.
  rewrite (H t) by now left.
  destruct (String.eqb_spec k1 k); [congruence|].
  apply IH. intros t' Hin. apply H. now right.
Qed.

Lemma onKey_same k ts :
  (forall t, In t ts -> sessionKey t = k) -> onKey k ts = ts.
Proof.
  intros H. induction ts as [|t ts IH]; simpl; auto.
  rewrite (H t) by now left. rewrite String.eqb_refl.
  f_equal. apply IH. intros t' Hin. apply H. now right.
Qed.

Lemma queue_keys cfg k st t :
  Inv cfg st -> In t (queueOf k st) -> sessionKey t = k.
Proof.
  intros (_ & _ & _ & Hok). unfold queueOf.
  destruct (lanesGet k (lanes st)) as [lane|] eqn:Hg; [|intros []].
  pose proof (ok_get _ _ _ Hok Hg) as (_ & Hkeys & _). auto.
Qed.

Lemma settledOf_map k st ts e :
  onKey k (map fst (settled st ++ map (fun t => (t, Rejected e)) ts)) =
  settledOf k st ++ onKey k ts.
Proof.
  unfold settledOf. rewrite map_app, onKey_app, map_map. simpl.
  now rewrite map_id.
Qed.

Lemma history_pumpResume cfg k o st k' :
  Inv cfg st -> history k' (pumpResume cfg k o st) = history k' st.
Proof.
  intros HI. unfold pumpResume.
  destruct (lanesGet k (lanes st)) as [lane|] eqn:Hg; auto.
  destruct (currentTask lane) as [task|] eqn:Hcur; auto.
  pose proof HI as (_ & _ & _ & Hok).
  pose proof (ok_get _ _ _ Hok Hg) as (Hidle & Hkeys & Hck). simpl in *.
  assert (Hp : processing lane = true).
  { destruct (processing lane); auto. specialize (Hidle eq_refl). congruence. }
  set (lane0 := {| queue := queue lane; processing := processing lane;
                   currentTask := None |}).
  set (st2 := putLane k lane0 (settle task (settlementOf o) st)).
  assert (HI2 : Inv cfg st2).
  { eapply Inv_put with (l := lane); eauto using Inv_settle.
    unfold laneOK; simpl. repeat split; auto; discriminate. }
  assert (Hg2 : lanesGet k (lanes st2) = Some lane0).
  { unfold st2, putLane, withLanes. simpl. now rewrite lanesGet_put_same, Hg. }
  destruct (quiet_pumpLoop cfg k lane0 st2 k' HI2 Hg2 Hp eq_refl) as [Hpe Hse].
  unfold history, settledOf. rewrite Hpe, Hse.
  unfold st2, putLane, withLanes, settle.
  cbn [lanes globalConcurrency taskIdCounter settled].
  rewrite map_app, onKey_app. simpl. rewrite (Hck task Hcur).
  destruct (String.eqb_spec k k'); subst.
  - rewrite (pending_lane k' _ lane0)
      by (cbn [lanes]; now rewrite lanesGet_put_same, Hg).
    rewrite (pending_lane k' st lane Hg), Hcur. simpl.
    now rewrite <- app_assoc.
  - rewrite app_nil_r. f_equal. apply pending_ext. cbn [lanes].
    apply lanesGet_put_other. congruence.
Qed.

Lemma history_clearLane cfg k st k' e lane :
  Inv cfg st -> k <> k' -> lanesGet k (lanes st) = Some lane ->
  history k'
    (putLane k {| queue := []; processing := processing lane;
                  currentTask := currentTask lane |}
       (rejectAll (queue lane) e st)) = history k' st.
Proof.
  intros HI Hne Hg. unfold history, settledOf.
  rewrite rejectAll_eq. unfold putLane, withLanes.
  cbn [lanes globalConcurrency taskIdCounter settled].
  rewrite settledOf_map.
  rewrite (onKey_other k' k (queue lane)); auto.
  - rewrite app_nil_r. f_equal. apply pending_ext. cbn [lanes].
    apply lanesGet_put_other. congruence.
  - intros t Hin. apply (queue_keys cfg k st t HI).
    unfold queueOf. now rewrite Hg.
Qed.

(** ** Priority insertion *)

Lemma insertByPriority_position q task :
  exists before after,
    q = before ++ after /\
    insertByPriority q task = before ++ task :: after /\
    (forall x, In x before -> priority task <= priority x) /\
    (forall y, hd_error after = Some y -> priority y < priority task).
Proof.
  induction q as [|x q (before & after & Hq & Hins & Hb & Ha)]; simpl.
  - exists [], []. repeat split; auto; [intros x [] | discriminate].
  - destruct (priority task >? priority x) eqn:Hgt.
    + exists [], (x :: q). repeat split; auto; [intros y [] |].
      simpl. intros y [= <-]. apply Z.gtb_lt in Hgt. lia.
    + exists (x :: before), after. subst q. rewrite Hins.
      repeat split; auto.
      intros y [<-|Hin]; auto.
      rewrite Z.gtb_ltb in Hgt. apply Z.ltb_ge in Hgt. lia.
Qed.

(** ** Operations on a key without a lane *)

(** C10. For a key that has no lane: [abort] returns 0 and leaves the
    scheduler as it is, [getQueueLength] is 0 and [isProcessing] is false. *)
Theorem absent_lane_noop (k : string) (st : State) :
  lanesGet k (lanes st) = None ->
  abort k st = (0, st) /\ getQueueLength k st = 0 /\ isProcessing k st = false.
Proof.
  intros H. unfold abort, getQueueLength, isProcessing.
  rewrite H. auto.
Qed.

Lemma absent_lane_noop_witness :
  lanesGet "s1" (lanes initial) = None /\
  abort "s1" initial = (0, initial) /\
  getQueueLength "s1" initial = 0 /\ isProcessing "s1" initial = false.
Proof.
  split; [reflexivity | apply (absent_lane_noop "s1" initial); reflexivity].
Defined.

(* ================================================================== *)
(** ** Further properties of the scheduler *)

(** *** What the pieces leave alone *)

Lemma frame_processLane cfg k st :
  map fst (lanes (processLane cfg k st)) = map fst (lanes st) /\
  taskIdCounter (processLane cfg k st) = taskIdCounter st /\
  settled (processLane cfg k st) = settled st.
Proof.
  destruct (processLane_cases cfg k st)
    as [-> | (lane & t & rest & _ & _ & _ & _ & ->)]; auto.
  unfold started. simpl. now rewrite keys_put.
Qed.

Lemma frame_pendingLoop cfg keys st :
  map fst (lanes (pendingLoop cfg keys st)) = map fst (lanes st) /\
  taskIdCounter (pendingLoop cfg keys st) = taskIdCounter st /\
  settled (pendingLoop cfg keys st) = settled st.
Proof.
  revert st. induction keys as [|k keys IH]; simpl; intros st; auto.
  destruct (lanesGet k (lanes st)) as [lane|]; auto.
  destruct (negb (processing lane) && (len (queue lane) >? 0)); auto.
  destruct (frame_processLane cfg k st) as (E1 & E2 & E3).
  destruct (globalConcurrency (processLane cfg k st) >=? maxConcurrency cfg);
    auto.
  destruct (IH (processLane cfg k st)) as (-> & -> & ->). auto.
Qed.

Lemma frame_tryProcessPendingLanes cfg st :
  map fst (lanes (tryProcessPendingLanes cfg st)) = map fst (lanes st) /\
  taskIdCounter (tryProcessPendingLanes cfg st) = taskIdCounter st /\
  settled (tryProcessPendingLanes cfg st) = settled st.
Proof.
  unfold tryProcessPendingLanes.
  destruct (globalConcurrency st >=? maxConcurrency cfg); auto.
  apply frame_pendingLoop.
Qed.

Lemma counter_cleanupEmptyLane k st :
  taskIdCounter (cleanupEmptyLane k st) = taskIdCounter st.
Proof.
  unfold cleanupEmptyLane.
  destruct (lanesGet k (lanes st)) as [lane|]; auto.
  destruct ((len (queue lane) =? 0) && negb (processing lane)); auto.
Qed.

Lemma counter_pumpShift k st :
  taskIdCounter (pumpShift k st) = taskIdCounter st.
Proof.
  unfold pumpShift. destruct (lanesGet k (lanes st)) as [lane|]; auto.
  destruct (queue lane); reflexivity.
Qed.

Lemma counter_pumpRelease k st :
  taskIdCounter (pumpRelease k st) = taskIdCounter st.
Proof.
  unfold pumpRelease. destruct (lanesGet k (lanes st)) as [lane|]; auto.
  now rewrite counter_cleanupEmptyLane.
Qed.

Lemma counter_pumpLoop cfg k st :
  taskIdCounter (pumpLoop cfg k st) = taskIdCounter st.
Proof.
  unfold pumpLoop. destruct (lanesGet k (lanes st)) as [lane|]; auto.
  destruct (len (queue lane) >? 0); [apply counter_pumpShift|].
  unfold pumpFinally.
  destruct (frame_tryProcessPendingLanes cfg (pumpRelease k st)) as (_ & -> & _).
  apply counter_pumpRelease.
Qed.

Lemma counter_pumpResume cfg k o st :
  taskIdCounter (pumpResume cfg k o st) = taskIdCounter st.
Proof.
  unfold pumpResume.
  destruct (lanesGet k (lanes st)) as [lane|] eqn:Hg; auto.
  destruct (currentTask lane) as [task|]; auto.
  now rewrite counter_pumpLoop.
Qed.

Lemma counter_clearLane k st : taskIdCounter (clearLane k st) = taskIdCounter st.
Proof.
  unfold clearLane. destruct (lanesGet k (lanes st)) as [lane|]; auto.
  unfold putLane, withLanes. simpl. apply counter_rejectAll.
Qed.

Lemma counter_clearAll keys st :
  taskIdCounter (fold_left (fun s k' => clearLane k' s) keys st) =
  taskIdCounter st.
Proof.
  revert st. induction keys as [|k keys IH]; simpl; intros st; auto.
  now rewrite IH, counter_clearLane.
Qed.

(** The identifiers count the tasks: a step advances the counter by the
    number of tasks it creates, and a created task gets the next number. *)
Lemma counter_step cfg st op :
  taskIdCounter (step cfg st op) =
  (taskIdCounter st + List.length (created cfg st op))%nat /\
  (forall t, In t (created cfg st op) -> id t = S (taskIdCounter st)).
Proof.
  destruct op as [k m p now | k | [k|] | k o]; simpl.
  - destruct (overflows cfg k st) eqn:Hov.
    + rewrite enqueue_overflow by assumption. simpl.
      destruct (getOrCreateLane_rest k st) as (_ & -> & _).
      split; [lia | intros t []].
    + rewrite enqueue_accepted by assumption. simpl.
      destruct (processLane_settled cfg k (inserted cfg k m p now st)) as [_ ->].
      unfold inserted. simpl. split; [lia|].
      intros t [<-|[]]. reflexivity.
  - split; [|intros t []]. rewrite Nat.add_0_r.
    unfold abort. destruct (lanesGet k (lanes st)) as [lane|]; auto.
    unfold putLane, withLanes. simpl. apply counter_rejectAll.
  - split; [|intros t []]. rewrite Nat.add_0_r.
    destruct (String.eqb k EmptyString);
      auto using counter_clearAll, counter_clearLane.
  - split; [|intros t []]. rewrite Nat.add_0_r. apply counter_clearAll.
  - split; [|intros t []]. rewrite Nat.add_0_r. apply counter_pumpResume.
Qed.

(** *** No task is lost and no task is settled twice *)

Local Abbreviation occ := (count_occ QueuedTask_eq_dec).

Lemma tasksOf_cons k l m : tasksOf ((k, l) :: m) = laneTasks l ++ tasksOf m.
Proof. reflexivity. Qed.

Lemma tasksOf_put_same k l l' m :
  lanesGet k m = Some l -> laneTasks l' = laneTasks l ->
  tasksOf (lanesPut k l' m) = tasksOf m.
Proof.
  intros Hg Hl. induction m as [|[k2 l2] m IH]; simpl in *; [discriminate|].
  destruct (String.eqb k k2).
  - injection Hg as ->. rewrite !tasksOf_cons. now rewrite Hl.
  - rewrite !tasksOf_cons, IH; auto.
Qed.

Lemma occ_tasksOf_put k l l' m x :
  lanesGet k m = Some l ->
  (occ (tasksOf (lanesPut k l' m)) x + occ (laneTasks l) x =
   occ (tasksOf m) x + occ (laneTasks l') x)%nat.
Proof.
  intros Hg. induction m as [|[k2 l2] m IH]; simpl in *; [discriminate|].
  destruct (String.eqb k k2).
  - injection Hg as ->. rewrite !tasksOf_cons, !count_occ_app. lia.
  - rewrite !tasksOf_cons, !count_occ_app. specialize (IH Hg). lia.
Qed.

Lemma tasksOf_add k l m : tasksOf (lanesAdd k l m) = tasksOf m ++ laneTasks l.
Proof.
  unfold lanesAdd, tasksOf. rewrite flat_map_app. simpl.
  now rewrite app_nil_r.
Qed.

Lemma tasksOf_delete_empty k l m :
  NoDup (map fst m) -> lanesGet k m = Some l -> laneTasks l = [] ->
  tasksOf (lanesDelete k m) = tasksOf m.
Proof.
  intros Hnd Hg Hl. induction m as [|[k2 l2] m IH]; simpl in *; [discriminate|].
  inversion Hnd as [|? ? Hnot Hnd']; subst.
  destruct (String.eqb_spec k k2); subst.
  - injection Hg as ->. rewrite lanesDelete_absent by assumption.
    rewrite ?tasksOf_cons, Hl. reflexivity.
  - rewrite ?tasksOf_cons. change (flat_map (fun kl => laneTasks (snd kl)) m)
      with (tasksOf m). rewrite IH; auto.
Qed.

Lemma tasks_getOrCreateLane k st :
  tasksOf (lanes (snd (getOrCreateLane k st))) = tasksOf (lanes st).
Proof.
  unfold getOrCreateLane.
  destruct (lanesGet k (lanes st)); simpl; auto.
  rewrite tasksOf_add. apply app_nil_r.
Qed.

Lemma everyTask_started cfg k st lane t rest :
  Inv cfg st -> lanesGet k (lanes st) = Some lane ->
  processing lane = false -> queue lane = t :: rest ->
  everyTask (started k st rest t) = everyTask st.
Proof.
  intros HI Hg Hp Hq. unfold everyTask, started. simpl. f_equal.
  apply tasksOf_put_same with (l := lane); auto.
  unfold laneTasks. simpl.
  now rewrite Hq, (idle_no_current cfg k st lane HI Hg Hp).
Qed.

Lemma everyTask_processLane cfg k st :
  Inv cfg st -> everyTask (processLane cfg k st) = everyTask st.
Proof.
  intros HI.
  destruct (processLane_cases cfg k st)
    as [-> | (lane & t & rest & Hg & Hp & Hq & _ & ->)]; auto.
  eapply everyTask_started; eauto.
Qed.

Lemma everyTask_pendingLoop cfg keys st :
  Inv cfg st -> everyTask (pendingLoop cfg keys st) = everyTask st.
Proof.
  revert st. induction keys as [|k keys IH]; simpl; intros st HI; auto.
  destruct (lanesGet k (lanes st)) as [lane|]; auto.
  destruct (negb (processing lane) && (len (queue lane) >? 0)); auto.
  destruct (globalConcurrency (processLane cfg k st) >=? maxConcurrency cfg);
    auto using everyTask_processLane.
  rewrite IH by now apply Inv_processLane.
  now apply everyTask_processLane.
Qed.

Lemma everyTask_tryProcessPendingLanes cfg st :
  Inv cfg st -> everyTask (tryProcessPendingLanes cfg st) = everyTask st.
Proof.
  intros HI. unfold tryProcessPendingLanes.
  destruct (globalConcurrency st >=? maxConcurrency cfg); auto.
  now apply everyTask_pendingLoop.
Qed.

Lemma everyTask_cleanupEmptyLane cfg k st :
  Inv cfg st -> everyTask (cleanupEmptyLane k st) = everyTask st.
Proof.
  intros HI. unfold cleanupEmptyLane.
  destruct (lanesGet k (lanes st)) as [lane|] eqn:Hg; auto.
  destruct ((len (queue lane) =? 0) && negb (processing lane)) eqn:Hc; auto.
  apply andb_prop in Hc as [Hq Hp].
  apply negb_true_iff in Hp. apply len_nil_iff in Hq.
  unfold everyTask, withLanes. simpl. f_equal.
  destruct HI as (Hnd & HI').
  apply tasksOf_delete_empty with (l := lane); auto.
  unfold laneTasks. rewrite Hq.
  assert (HI : Inv cfg st) by (split; auto).
  now rewrite (idle_no_current cfg k st lane HI Hg Hp).
Qed.

Lemma everyTask_pumpRelease cfg k lane st :
  Inv cfg st -> lanesGet k (lanes st) = Some lane ->
  processing lane = true -> currentTask lane = None ->
  everyTask (pumpRelease k st) = everyTask st.
Proof.
  intros HI Hg Hp Hcur. unfold pumpRelease. rewrite Hg.
  unfold putLane, withLanes. cbn [lanes globalConcurrency taskIdCounter settled].
  rewrite (everyTask_cleanupEmptyLane cfg k _ (Inv_released cfg k lane st HI Hg Hp)).
  unfold everyTask. simpl. f_equal.
  apply tasksOf_put_same with (l := lane); auto.
  unfold laneTasks. simpl. now rewrite Hcur.
Qed.

Lemma everyTask_pumpShift k lane st :
  lanesGet k (lanes st) = Some lane -> currentTask lane = None ->
  everyTask (pumpShift k st) = everyTask st.
Proof.
  intros Hg Hcur. unfold pumpShift. rewrite Hg.
  destruct (queue lane) as [|t rest] eqn:Hq; auto.
  unfold everyTask, putLane, withLanes. simpl. f_equal.
  apply tasksOf_put_same with (l := lane); auto.
  unfold laneTasks. simpl. now rewrite Hcur, Hq.
Qed.

Lemma everyTask_pumpLoop cfg k lane st :
  Inv cfg st -> lanesGet k (lanes st) = Some lane ->
  processing lane = true -> currentTask lane = None ->
  everyTask (pumpLoop cfg k st) = everyTask st.
Proof.
  intros HI Hg Hp Hcur. unfold pumpLoop. rewrite Hg.
  destruct (len (queue lane) >? 0).
  - eapply everyTask_pumpShift; eauto.
  - unfold pumpFinally.
    rewrite everyTask_tryProcessPendingLanes
      by (eapply Inv_pumpRelease; eauto).
    eapply everyTask_pumpRelease; eauto.
Qed.

Lemma everyTask_pumpResume cfg k o st :
  Inv cfg st -> Permutation (everyTask (pumpResume cfg k o st)) (everyTask st).
Proof.
  intros HI. unfold pumpResume.
  destruct (lanesGet k (lanes st)) as [lane|] eqn:Hg; auto.
  destruct (currentTask lane) as [task|] eqn:Hcur; auto.
  pose proof HI as (_ & _ & _ & Hok).
  pose proof (ok_get _ _ _ Hok Hg) as (Hidle & Hkeys & Hck). simpl in *.
  assert (Hp : processing lane = true).
  { destruct (processing lane); auto. specialize (Hidle eq_refl). congruence. }
  set (lane0 := {| queue := queue lane; processing := processing lane;
                   currentTask := None |}).
  set (st2 := putLane k lane0 (settle task (settlementOf o) st)).
  assert (HI2 : Inv cfg st2).
  { eapply Inv_put with (l := lane); eauto using Inv_settle.
    unfold laneOK; simpl. repeat split; auto; discriminate. }
  assert (Hg2 : lanesGet k (lanes st2) = Some lane0).
  { unfold st2, putLane, withLanes. simpl. now rewrite lanesGet_put_same, Hg. }
  rewrite (everyTask_pumpLoop cfg k lane0 st2 HI2 Hg2 Hp eq_refl).
  apply (Permutation_count_occ QueuedTask_eq_dec). intros x.
  unfold everyTask, st2, putLane, withLanes, settle. simpl.
  rewrite map_app, !count_occ_app. simpl map.
  pose proof (occ_tasksOf_put k lane lane0 (lanes st) x Hg) as E.
  unfold laneTasks, lane0 in E. simpl in E. rewrite Hcur in E.
  rewrite count_occ_app in E. simpl optList in E.
  unfold lane0. lia.
Qed.

Lemma occ_insertByPriority q t x :
  occ (insertByPriority q t) x = (occ [t] x + occ q x)%nat.
Proof.
  induction q as [|y q IH]; [simpl; lia|].
  cbn [insertByPriority]. destruct (priority t >? priority y).
  - change (t :: y :: q) with ([t] ++ y :: q). now rewrite count_occ_app.
  - change (y :: insertByPriority q t) with ([y] ++ insertByPriority q t).
    change (y :: q) with ([y] ++ q).
    rewrite !count_occ_app, IH. lia.
Qed.

Lemma occ_partition (f : QueuedTask -> bool) q x :
  (occ (filter (fun t => negb (f t)) q) x + occ (filter f q) x = occ q x)%nat.
Proof.
  induction q as [|y q IH]; [reflexivity|].
  change (y :: q) with ([y] ++ q). rewrite !filter_app, !count_occ_app.
  simpl filter. destruct (f y); simpl negb; cbv iota; rewrite ?count_occ_nil;
    simpl in *; destruct (QueuedTask_eq_dec y x); lia.
Qed.

Lemma occ_kept_superseded m q x :
  (occ (kept m q) x + occ (superseded m q) x = occ q x)%nat.
Proof.
  unfold kept, superseded. destruct (QueueMode_eqb m steer).
  - apply occ_partition.
  - simpl. lia.
Qed.

Lemma everyTask_emptied k lane e st :
  lanesGet k (lanes st) = Some lane ->
  Permutation
    (everyTask
       (putLane k {| queue := []; processing := processing lane;
                     currentTask := currentTask lane |}
          (rejectAll (queue lane) e st)))
    (everyTask st).
Proof.
  intros Hg.
  apply (Permutation_count_occ QueuedTask_eq_dec). intros x.
  rewrite rejectAll_eq. unfold everyTask, putLane, withLanes. simpl.
  rewrite map_app, map_map. simpl. rewrite map_id, !count_occ_app.
  pose proof (occ_tasksOf_put k lane
    {| queue := []; processing := processing lane;
       currentTask := currentTask lane |} (lanes st) x Hg) as E.
  unfold laneTasks in E. simpl in E. rewrite app_nil_r, count_occ_app in E.
  lia.
Qed.

Lemma everyTask_clearLane k st :
  Permutation (everyTask (clearLane k st)) (everyTask st).
Proof.
  unfold clearLane.
  destruct (lanesGet k (lanes st)) as [lane|] eqn:Hg; auto.
  now apply everyTask_emptied.
Qed.

Lemma everyTask_clearAll keys st :
  Permutation (everyTask (fold_left (fun s k' => clearLane k' s) keys st))
    (everyTask st).
Proof.
  revert st. induction keys as [|k keys IH]; simpl; intros st; auto.
  etransitivity; [apply IH|]. apply everyTask_clearLane.
Qed.

Lemma everyTask_enqueue cfg k m p now st :
  Inv cfg st ->
  Permutation (everyTask (snd (enqueue cfg k m p now st)))
    (everyTask st ++ created cfg st (Enqueue k m p now)).
Proof.
  intros HI. unfold created.
  destruct (overflows cfg k st) eqn:Hov.
  - rewrite enqueue_overflow by assumption. simpl. rewrite app_nil_r.
    destruct (getOrCreateLane_rest k st) as (_ & _ & Hlog & _).
    unfold everyTask. now rewrite Hlog, tasks_getOrCreateLane.
  - rewrite enqueue_accepted by assumption. cbn [fst snd].
    rewrite everyTask_processLane by now apply Inv_inserted.
    apply (Permutation_count_occ QueuedTask_eq_dec). intros x.
    destruct (getOrCreateLane_lane k st) as (Hg & Hq & Hc & Hp).
    unfold everyTask, inserted. simpl.
    rewrite map_app, map_map. simpl. rewrite map_id, !count_occ_app.
    pose proof (occ_tasksOf_put k (fst (getOrCreateLane k st))
      {| queue := insertByPriority
                    (kept (orElse m (defaultMode cfg))
                       (queue (fst (getOrCreateLane k st))))
                    (newTask cfg k m p now st);
         processing := processing (fst (getOrCreateLane k st));
         currentTask := currentTask (fst (getOrCreateLane k st)) |}
      (lanes (snd (getOrCreateLane k st))) x Hg) as E.
    unfold laneTasks in E. simpl in E.
    rewrite !count_occ_app, occ_insertByPriority, tasks_getOrCreateLane in E.
    pose proof (occ_kept_superseded (orElse m (defaultMode cfg))
                  (queue (fst (getOrCreateLane k st))) x) as F.
    lia.
Qed.

Lemma everyTask_step cfg st op :
  Inv cfg st ->
  Permutation (everyTask (step cfg st op)) (everyTask st ++ created cfg st op).
Proof.
  intros HI. destruct op as [k m p now | k | [k|] | k o].
  - now apply everyTask_enqueue.
  - simpl. rewrite app_nil_r. unfold abort.
    destruct (lanesGet k (lanes st)) as [lane|] eqn:Hg; auto.
    now apply everyTask_emptied.
  - simpl. rewrite app_nil_r.
    destruct (String.eqb k EmptyString);
      auto using everyTask_clearAll, everyTask_clearLane.
  - simpl. rewrite app_nil_r. now apply everyTask_clearAll.
  - simpl. rewrite app_nil_r. now apply everyTask_pumpResume.
Qed.

Lemma everyTask_steps cfg ops st :
  Inv cfg st ->
  Permutation (everyTask (fold_left (step cfg) ops st))
    (everyTask st ++ createdBy cfg st ops).
Proof.
  revert st. induction ops as [|op ops IH]; intros st HI; simpl.
  - now rewrite app_nil_r.
  - etransitivity; [apply IH; now apply Inv_step|].
    rewrite app_assoc. apply Permutation_app_tail.
    now apply everyTask_step.
Qed.

Lemma createdBy_ids cfg ops st :
  StronglySorted lt (map id (createdBy cfg st ops)) /\
  (forall t, In t (createdBy cfg st ops) -> (taskIdCounter st < id t)%nat).
Proof.
  revert st. induction ops as [|op ops IH]; intros st; simpl.
  - split; [constructor | intros t []].
  - destruct (counter_step cfg st op) as [Hc Hid].
    destruct (IH (step cfg st op)) as [Hs Hlt].
    assert (Hone : created cfg st op = [] \/ exists t, created cfg st op = [t]).
    { destruct op; simpl; auto.
      destruct (fst (enqueue cfg k omode opriority now st)); eauto. }
    destruct Hone as [E | (t & E)]; rewrite E in *; simpl in *.
    + split; auto. intros t Hin. specialize (Hlt t Hin). lia.
    + specialize (Hid t (or_introl eq_refl)). split.
      * constructor; auto. apply Forall_forall. intros n Hn.
        apply in_map_iff in Hn as (t' & <- & Hin).
        specialize (Hlt t' Hin). lia.
      * intros t' [<-|Hin]; [lia|]. specialize (Hlt t' Hin). lia.
Qed.

Lemma sorted_NoDup l : StronglySorted lt l -> NoDup l.
Proof.
  induction 1 as [|a l Hs IH Hall]; constructor; auto.
  intros Hin. rewrite Forall_forall in Hall. specialize (Hall a Hin). lia.
Qed.

(** X1. At any point of any execution, the tasks the scheduler holds
    (settled, running or queued) are, up to order, exactly the tasks the
    calls of [enqueue] have created so far, and their identifiers are all
    different: no task is lost, none is settled twice, and none is both
    settled and still pending. *)
Theorem tasks_conserved (cfg : LaneQueueConfig) (ops : list Op) :
  let st := run cfg ops in
  Permutation (map fst (settled st) ++ tasksOf (lanes st))
    (createdBy cfg initial ops) /\
  NoDup (map id (map fst (settled st) ++ tasksOf (lanes st))) /\
  NoDup (map id (map fst (settled st))).
Proof.
  intros st.
  pose proof (everyTask_steps cfg ops initial (Inv_initial cfg)) as HP.
  fold (run cfg ops) in HP. fold st in HP. simpl in HP.
  unfold everyTask in HP.
  destruct (createdBy_ids cfg ops initial) as [Hs _].
  apply sorted_NoDup in Hs.
  assert (Hnd : NoDup (map id (map fst (settled st) ++ tasksOf (lanes st)))).
  { eapply Permutation_NoDup; [|exact Hs].
    apply Permutation_map. now symmetry. }
  repeat split; auto.
  rewrite map_app in Hnd. now apply NoDup_app_remove_r in Hnd.
Qed.

(** *** No lane waits while a slot is free *)

Lemma gc_processLane cfg k st :
  globalConcurrency st <= globalConcurrency (processLane cfg k st).
Proof.
  destruct (processLane_cases cfg k st)
    as [-> | (lane & t & rest & _ & _ & _ & _ & ->)]; simpl; lia.
Qed.

(** After [processLane] the lane runs, or has nothing to run, or the
    ceiling is reached. *)
Lemma processLane_self cfg k st lane' :
  lanesGet k (lanes (processLane cfg k st)) = Some lane' ->
  waiting lane' = true ->
  maxConcurrency cfg <= globalConcurrency (processLane cfg k st).
Proof.
  intros Hg' Hw. unfold processLane in *.
  destruct (lanesGet k (lanes st)) as [lane|] eqn:Hg; [|congruence].
  unfold waiting in Hw.
  destruct (processing lane) eqn:Hp; simpl in *.
  - rewrite Hg in Hg'. injection Hg' as <-. rewrite Hp in Hw. discriminate.
  - destruct (len (queue lane) =? 0) eqn:Hq.
    + rewrite Hg in Hg'. injection Hg' as <-.
      apply len_nil_iff in Hq. rewrite Hq in Hw.
      rewrite andb_comm in Hw. discriminate.
    + destruct (globalConcurrency st >=? maxConcurrency cfg) eqn:Hc.
      * now apply geb_true in Hc.
      * unfold pumpShift, putLane, withLanes in *. simpl in *.
        rewrite lanesGet_put_same, Hg in *. simpl in *.
        destruct (queue lane) as [|t rest]; simpl in *.
        -- rewrite lanesGet_put_same, Hg in Hg'. injection Hg' as <-.
           discriminate.
        -- rewrite lanesPut_put, lanesGet_put_same, Hg in Hg'.
           injection Hg' as <-. discriminate.
Qed.

Lemma noIdleSlot_processLane cfg k st :
  (forall k' lane, k' <> k -> lanesGet k' (lanes st) = Some lane ->
                   waiting lane = true ->
                   maxConcurrency cfg <= globalConcurrency st) ->
  noIdleSlot cfg (processLane cfg k st).
Proof.
  intros H k' lane' Hg' Hw.
  destruct (String.eqb_spec k' k) as [->|Hne].
  - eapply processLane_self; eauto.
  - rewrite processLane_other in Hg' by assumption.
    pose proof (gc_processLane cfg k st). specialize (H k' lane' Hne Hg' Hw). lia.
Qed.

Lemma noIdleSlot_pendingLoop cfg keys st :
  (forall k lane, lanesGet k (lanes st) = Some lane -> waiting lane = true ->
                  In k keys \/ maxConcurrency cfg <= globalConcurrency st) ->
  noIdleSlot cfg (pendingLoop cfg keys st).
Proof.
  revert st. induction keys as [|k keys IH]; intros st H.
  - intros k lane Hg Hw. destruct (H k lane Hg Hw) as [[]|]; auto.
  - simpl.
    assert (Hskip : (forall lane, lanesGet k (lanes st) = Some lane ->
                                  waiting lane = false) ->
                    noIdleSlot cfg (pendingLoop cfg keys st)).
    { intros Hnot. apply IH. intros k' lane' Hg' Hw'.
      destruct (H k' lane' Hg' Hw') as [[<-|Hin]|Hge]; auto.
      rewrite (Hnot lane' Hg') in Hw'. discriminate. }
    destruct (lanesGet k (lanes st)) as [lane|] eqn:Hg;
      [|apply Hskip; discriminate].
    fold (waiting lane).
    destruct (waiting lane) eqn:Hw;
      [|apply Hskip; intros ? [= <-]; assumption].
    destruct (globalConcurrency (processLane cfg k st) >=? maxConcurrency cfg)
      eqn:Hc.
    + apply geb_true in Hc. intros k' lane' _ _. exact Hc.
    + apply IH. intros k' lane' Hg' Hw'.
      destruct (String.eqb_spec k' k) as [->|Hne].
      * right. eapply processLane_self; eauto.
      * rewrite processLane_other in Hg' by assumption.
        destruct (H k' lane' Hg' Hw') as [[E|Hin]|Hge]; auto; try congruence.
        pose proof (gc_processLane cfg k st). right. lia.
Qed.

Lemma noIdleSlot_tryProcessPendingLanes cfg st :
  noIdleSlot cfg (tryProcessPendingLanes cfg st).
Proof.
  unfold tryProcessPendingLanes.
  destruct (globalConcurrency st >=? maxConcurrency cfg) eqn:Hc.
  - apply geb_true in Hc. intros k lane _ _. exact Hc.
  - apply noIdleSlot_pendingLoop. intros k lane Hg _. left.
    destruct (in_dec string_dec k (map fst (lanes st))) as [Hin|Hnot]; auto.
    apply lanesGet_None_notin in Hnot. congruence.
Qed.

(** A lane that is given a new state which does not wait. *)
Lemma noIdleSlot_put cfg k l st :
  noIdleSlot cfg st -> waiting l = false -> noIdleSlot cfg (putLane k l st).
Proof.
  intros H Hl k' lane' Hg' Hw. unfold putLane, withLanes in *. simpl in *.
  destruct (String.eqb_spec k' k) as [->|Hne].
  - rewrite lanesGet_put_same in Hg'.
    destruct (lanesGet k (lanes st)); [|discriminate].
    injection Hg' as <-. congruence.
  - rewrite lanesGet_put_other in Hg' by assumption. eauto.
Qed.

Lemma noIdleSlot_ext cfg s s' :
  lanes s = lanes s' -> globalConcurrency s = globalConcurrency s' ->
  noIdleSlot cfg s -> noIdleSlot cfg s'.
Proof. unfold noIdleSlot. intros <- <-. auto. Qed.

Lemma noIdleSlot_clearLane cfg k st :
  noIdleSlot cfg st -> noIdleSlot cfg (clearLane k st).
Proof.
  intros H. unfold clearLane.
  destruct (lanesGet k (lanes st)) as [lane|]; auto.
  apply noIdleSlot_put.
  - eapply noIdleSlot_ext; [| |exact H];
      now rewrite ?lanes_rejectAll, ?gc_rejectAll.
  - unfold waiting. simpl. apply andb_false_r.
Qed.

Lemma noIdleSlot_clearAll cfg keys st :
  noIdleSlot cfg st ->
  noIdleSlot cfg (fold_left (fun s k' => clearLane k' s) keys st).
Proof.
  revert st. induction keys as [|k keys IH]; simpl; intros st H; auto.
  apply IH. now apply noIdleSlot_clearLane.
Qed.

Lemma pumpResume_next cfg k o st lane task t rest :
  lanesGet k (lanes st) = Some lane -> currentTask lane = Some task ->
  queue lane = t :: rest ->
  pumpResume cfg k o st =
  {| lanes := lanesPut k {| queue := rest; processing := processing lane;
                            currentTask := Some t |} (lanes st);
     globalConcurrency := globalConcurrency st;
     taskIdCounter := taskIdCounter st;
     settled := settled st ++ [(task, settlementOf o)] |}.
Proof.
  intros Hg Hcur Hq.
  unfold pumpResume. rewrite Hg, Hcur.
  unfold pumpLoop, putLane, withLanes, settle. simpl.
  rewrite lanesGet_put_same, Hg. simpl. rewrite Hq. simpl.
  unfold pumpShift, putLane, withLanes. simpl.
  rewrite lanesGet_put_same, Hg. simpl.
  now rewrite lanesPut_put.
Qed.

Lemma noIdleSlot_step cfg st op :
  Inv cfg st -> noIdleSlot cfg st -> noIdleSlot cfg (step cfg st op).
Proof.
  intros HI H. destruct op as [k m p now | k | [k|] | k o]; simpl.
  - destruct (overflows cfg k st) eqn:Hov.
    + rewrite enqueue_overflow by assumption. simpl.
      unfold getOrCreateLane.
      destruct (lanesGet k (lanes st)) as [lane|] eqn:Hg; auto.
      intros k' lane' Hg' Hw. simpl in *.
      destruct (String.eqb_spec k' k) as [->|Hne].
      * rewrite lanesGet_add_same in Hg' by assumption.
        injection Hg' as <-. discriminate.
      * rewrite lanesGet_add_other in Hg' by assumption. eauto.
    + rewrite enqueue_accepted by assumption. simpl.
      apply noIdleSlot_processLane. intros k' lane' Hne Hg' Hw.
      rewrite lane_inserted_other in Hg' by assumption.
      apply (H k' lane' Hg' Hw).
  - destruct (abort_clearLane k st) as [E1 E2].
    eapply noIdleSlot_ext; [symmetry; exact E1 | symmetry; exact E2 |].
    now apply noIdleSlot_clearLane.
  - destruct (String.eqb k EmptyString);
      auto using noIdleSlot_clearAll, noIdleSlot_clearLane.
  - now apply noIdleSlot_clearAll.
  - destruct (lanesGet k (lanes st)) as [lane|] eqn:Hg;
      [|unfold pumpResume; now rewrite Hg].
    destruct (currentTask lane) as [task|] eqn:Hcur;
      [|unfold pumpResume; now rewrite Hg, Hcur].
    pose proof HI as (_ & _ & _ & Hok).
    pose proof (ok_get _ _ _ Hok Hg) as (Hidle & _). simpl in *.
    assert (Hp : processing lane = true).
    { destruct (processing lane); auto. specialize (Hidle eq_refl). congruence. }
    destruct (queue lane) as [|t rest] eqn:Hq.
    + rewrite (pumpResume_exit cfg k o st lane task Hg Hcur Hq).
      apply noIdleSlot_tryProcessPendingLanes.
    + rewrite (pumpResume_next cfg k o st lane task t rest Hg Hcur Hq).
      eapply noIdleSlot_ext with
        (s := putLane k {| queue := rest; processing := processing lane;
                           currentTask := Some t |} st); try reflexivity.
      apply noIdleSlot_put; auto.
      unfold waiting. simpl. now rewrite Hp.
Qed.

Lemma noIdleSlot_steps cfg ops st :
  Inv cfg st -> noIdleSlot cfg st -> noIdleSlot cfg (fold_left (step cfg) ops st).
Proof.
  revert st. induction ops as [|op ops IH]; simpl; intros st HI H; auto.
  apply IH; auto using Inv_step, noIdleSlot_step.
Qed.

(** X2. In every state an execution reaches, a lane that has queued tasks
    and is not processing exists only while the concurrency ceiling is
    reached: the scheduler never leaves a slot unused while work waits. *)
Theorem no_lane_waits_below_ceiling (cfg : LaneQueueConfig) (ops : list Op)
  (k : string) (lane : Lane) :
  lanesGet k (lanes (run cfg ops)) = Some lane ->
  processing lane = false -> queue lane <> [] ->
  maxConcurrency cfg <= globalConcurrency (run cfg ops).
Proof.
  intros Hg Hp Hq.
  assert (H : noIdleSlot cfg (run cfg ops)).
  { apply noIdleSlot_steps; [apply Inv_initial|].
    intros k' lane' Hg'. discriminate. }
  apply (H k lane Hg). unfold waiting. rewrite Hp. simpl.
  now apply len_pos_iff.
Qed.

Lemma no_lane_waits_below_ceiling_witness :
  let cfg := constructor (mkOptions (Some 1) None None None None) in
  let ops := [Enqueue "s1" None None 0; Enqueue "s2" None None 1] in
  exists lane,
    lanesGet "s2" (lanes (run cfg ops)) = Some lane /\
    processing lane = false /\ queue lane <> [] /\
    maxConcurrency cfg <= globalConcurrency (run cfg ops).
Proof.
  intros cfg ops.
  destruct (lanesGet "s2" (lanes (run cfg ops))) as [lane|] eqn:Hg;
    [|vm_compute in Hg; discriminate].
  exists lane.
  assert (Hp : processing lane = false)
    by (vm_compute in Hg; injection Hg as <-; reflexivity).
  assert (Hq : queue lane <> [])
    by (vm_compute in Hg; injection Hg as <-; discriminate).
  repeat split; auto.
  exact (no_lane_waits_below_ceiling cfg ops "s2" lane Hg Hp Hq).
Defined.

(** *** Properties of queues that every operation keeps *)

Section QueueInvariant.

Variable cfg : LaneQueueConfig.
Variable P : list QueuedTask -> Prop.
Hypothesis P_nil : P [].
Hypothesis P_tail : forall t q, P (t :: q) -> P q.
Hypothesis P_insert :
  forall k om op now st,
    overflows cfg k st = false -> P (queueOf k st) ->
    P (insertByPriority (kept (orElse om (defaultMode cfg)) (queueOf k st))
         (newTask cfg k om op now st)).

Lemma allQueues_ext s s' : lanes s = lanes s' -> allQueues P s -> allQueues P s'.
Proof. unfold allQueues. now intros <-. Qed.

Lemma allQueues_put k l st :
  allQueues P st -> P (queue l) -> allQueues P (putLane k l st).
Proof.
  intros H Hl k' lane' Hg'. unfold putLane, withLanes in Hg'. simpl in Hg'.
  destruct (String.eqb_spec k' k) as [->|Hne].
  - rewrite lanesGet_put_same in Hg'.
    destruct (lanesGet k (lanes st)); [|discriminate].
    now injection Hg' as <-.
  - rewrite lanesGet_put_other in Hg' by assumption. eauto.
Qed.

Lemma allQueues_processLane k st :
  allQueues P st -> allQueues P (processLane cfg k st).
Proof.
  intros H.
  destruct (processLane_cases cfg k st)
    as [-> | (lane & t & rest & Hg & _ & Hq & _ & ->)]; auto.
  apply allQueues_ext with
    (s := putLane k {| queue := rest; processing := true;
                       currentTask := Some t |} st); [reflexivity|].
  apply allQueues_put; auto. simpl.
  apply (P_tail t). rewrite <- Hq. eauto.
Qed.

Lemma allQueues_pendingLoop keys st :
  allQueues P st -> allQueues P (pendingLoop cfg keys st).
Proof.
  revert st. induction keys as [|k keys IH]; simpl; intros st H; auto.
  destruct (lanesGet k (lanes st)) as [lane|]; auto.
  destruct (negb (processing lane) && (len (queue lane) >? 0)); auto.
  destruct (globalConcurrency (processLane cfg k st) >=? maxConcurrency cfg);
    auto using allQueues_processLane.
Qed.

Lemma allQueues_tryProcessPendingLanes st :
  allQueues P st -> allQueues P (tryProcessPendingLanes cfg st).
Proof.
  intros H. unfold tryProcessPendingLanes.
  destruct (globalConcurrency st >=? maxConcurrency cfg);
    auto using allQueues_pendingLoop.
Qed.

Lemma allQueues_cleanupEmptyLane k st :
  allQueues P st -> allQueues P (cleanupEmptyLane k st).
Proof.
  intros H. unfold cleanupEmptyLane.
  destruct (lanesGet k (lanes st)) as [lane|]; auto.
  destruct ((len (queue lane) =? 0) && negb (processing lane)); auto.
  intros k' lane' Hg'. unfold withLanes in Hg'. simpl in Hg'.
  destruct (String.eqb_spec k' k) as [->|Hne].
  - now rewrite lanesGet_delete_same in Hg'.
  - rewrite lanesGet_delete_other in Hg' by assumption. eauto.
Qed.

Lemma allQueues_pumpLoop k st :
  allQueues P st -> allQueues P (pumpLoop cfg k st).
Proof.
  intros H. unfold pumpLoop.
  destruct (lanesGet k (lanes st)) as [lane|] eqn:Hg; auto.
  destruct (len (queue lane) >? 0).
  - unfold pumpShift. rewrite Hg.
    destruct (queue lane) as [|t rest] eqn:Hq; auto.
    apply allQueues_put; auto. simpl.
    apply (P_tail t). rewrite <- Hq. eauto.
  - unfold pumpFinally, pumpRelease. rewrite Hg.
    apply allQueues_tryProcessPendingLanes, allQueues_cleanupEmptyLane.
    apply allQueues_ext with
      (s := putLane k {| queue := queue lane; processing := false;
                         currentTask := None |} st); [reflexivity|].
    apply allQueues_put; [assumption | simpl; exact (H k lane Hg)].
Qed.

Lemma allQueues_clearLane k st :
  allQueues P st -> allQueues P (clearLane k st).
Proof.
  intros H. unfold clearLane.
  destruct (lanesGet k (lanes st)) as [lane|]; auto.
  apply allQueues_put; auto.
  apply allQueues_ext with (s := st); auto.
  now rewrite lanes_rejectAll.
Qed.

Lemma allQueues_clearAll keys st :
  allQueues P st ->
  allQueues P (fold_left (fun s k' => clearLane k' s) keys st).
Proof.
  revert st. induction keys as [|k keys IH]; simpl; intros st H; auto.
  apply IH. now apply allQueues_clearLane.
Qed.

Lemma allQueues_step st op :
  allQueues P st -> allQueues P (step cfg st op).
Proof.
  intros H. destruct op as [k m p now | k | [k|] | k o]; simpl.
  - destruct (overflows cfg k st) eqn:Hov.
    + rewrite enqueue_overflow by assumption. simpl.
      unfold getOrCreateLane.
      destruct (lanesGet k (lanes st)) as [lane|] eqn:Hg; auto.
      intros k' lane' Hg'. simpl in Hg'.
      destruct (String.eqb_spec k' k) as [->|Hne].
      * rewrite lanesGet_add_same in Hg' by assumption.
        now injection Hg' as <-.
      * rewrite lanesGet_add_other in Hg' by assumption. eauto.
    + rewrite enqueue_accepted by assumption. simpl.
      apply allQueues_processLane.
      intros k' lane' Hg'.
      destruct (String.eqb_spec k' k) as [->|Hne].
      * rewrite lane_inserted_same in Hg'. injection Hg' as <-. simpl.
        apply P_insert; auto.
        unfold queueOf. destruct (lanesGet k (lanes st)) eqn:Hg; eauto.
      * rewrite lane_inserted_other in Hg' by assumption. eauto.
  - destruct (abort_clearLane k st) as [E1 _].
    eapply allQueues_ext; [symmetry; exact E1|].
    now apply allQueues_clearLane.
  - destruct (String.eqb k EmptyString);
      auto using allQueues_clearAll, allQueues_clearLane.
  - now apply allQueues_clearAll.
  - unfold pumpResume.
    destruct (lanesGet k (lanes st)) as [lane|] eqn:Hg; auto.
    destruct (currentTask lane) as [task|]; auto.
    apply allQueues_pumpLoop, allQueues_put.
    + apply allQueues_ext with (s := st); auto.
    + simpl. exact (H k lane Hg).
Qed.

Lemma allQueues_run ops : allQueues P (run cfg ops).
Proof.
  unfold run.
  assert (H : allQueues P initial) by (intros k lane Hg; discriminate).
  revert H. generalize initial.
  induction ops as [|op ops IH]; simpl; intros st H; auto.
  apply IH. now apply allQueues_step.
Qed.

End QueueInvariant.

(** *** Queues are in priority order *)

Lemma byPriority_filter f q : byPriority q -> byPriority (filter f q).
Proof.
  unfold byPriority. induction 1 as [|a l Hs IH Hall]; simpl.
  - constructor.
  - destruct (f a); auto. constructor; auto.
    rewrite Forall_forall in *. intros x Hx.
    apply filter_In in Hx as [Hx _]. auto.
Qed.

Lemma byPriority_insert q t : byPriority q -> byPriority (insertByPriority q t).
Proof.
  unfold byPriority. induction 1 as [|a l Hs IH Hall]; simpl.
  - repeat constructor.
  - destruct (priority t >? priority a) eqn:Hgt.
    + apply Z.gtb_lt in Hgt. constructor.
      * now constructor.
      * constructor; [lia|]. rewrite Forall_forall in *.
        intros x Hx. specialize (Hall x Hx). simpl in Hall. lia.
    + rewrite Z.gtb_ltb in Hgt. apply Z.ltb_ge in Hgt.
      constructor; auto. rewrite Forall_forall in *.
      intros x Hx. apply In_insertByPriority in Hx as [->|Hx]; auto.
Qed.

(** X3. In every state an execution reaches, the queue of every lane is in
    priority order: no queued task stands before one of strictly higher
    priority, so the task the pump takes next has the highest priority of
    the queue. *)
Theorem queues_in_priority_order (cfg : LaneQueueConfig) (ops : list Op)
  (k : string) :
  byPriority (queueOf k (run cfg ops)) /\
  (forall t rest,
     queueOf k (run cfg ops) = t :: rest ->
     forall u, In u rest -> priority u <= priority t).
Proof.
  assert (H : byPriority (queueOf k (run cfg ops))).
  { unfold queueOf.
    destruct (lanesGet k (lanes (run cfg ops))) as [lane|] eqn:Hg;
      [|constructor].
    apply (allQueues_run cfg byPriority) with (ops := ops) (k := k); auto.
    - constructor.
    - intros t q Hs. now apply StronglySorted_inv in Hs.
    - intros k' om op now st _ Hs. apply byPriority_insert.
      unfold kept. destruct (QueueMode_eqb _ steer); auto.
      now apply byPriority_filter. }
  split; auto. intros t rest E u Hu. rewrite E in H.
  apply StronglySorted_inv in H as [_ Hall].
  rewrite Forall_forall in Hall. now apply Hall.
Qed.

(** *** Priority insertion and FIFO order *)

Lemma ofPriority_app p a b :
  ofPriority p (a ++ b) = ofPriority p a ++ ofPriority p b.
Proof. unfold ofPriority. apply filter_app. Qed.

Lemma filter_none {A} (f : A -> bool) l :
  (forall x, In x l -> f x = false) -> filter f l = [].
Proof.
  induction l as [|x l IH]; intros H; [reflexivity|].
  simpl. rewrite (H x (or_introl eq_refl)). apply IH.
  intros y Hy. apply H. now right.
Qed.

(** In a queue in priority order, the new task comes after every task of
    its own priority. *)
Lemma ofPriority_insert p q t :
  byPriority q ->
  ofPriority p (insertByPriority q t) = ofPriority p q ++ ofPriority p [t].
Proof.
  unfold byPriority. induction 1 as [|a l Hs IH Hall]; [reflexivity|].
  simpl insertByPriority.
  destruct (priority t >? priority a) eqn:Hgt.
  - apply Z.gtb_lt in Hgt. unfold ofPriority.
    destruct (priority t =? p) eqn:Ep.
    + assert (E : filter (fun x => priority x =? p) (a :: l) = []).
      { apply Z.eqb_eq in Ep. apply filter_none.
        intros x [<-|Hx]; apply Z.eqb_neq.
        - lia.
        - rewrite Forall_forall in Hall. specialize (Hall x Hx).
          simpl in Hall. lia. }
      simpl in E |- *. rewrite Ep, E. reflexivity.
    + simpl. rewrite Ep. now rewrite app_nil_r.
  - unfold ofPriority in *. simpl. rewrite IH.
    destruct (priority a =? p); reflexivity.
Qed.

Lemma byPriority_step cfg st op :
  allQueues byPriority st -> allQueues byPriority (step cfg st op).
Proof.
  apply (allQueues_step cfg byPriority).
  - constructor.
  - intros t q Hs. now apply StronglySorted_inv in Hs.
  - intros k' om o now st' _ Hs. apply byPriority_insert.
    unfold kept. destruct (QueueMode_eqb _ steer); auto.
    now apply byPriority_filter.
Qed.

Lemma byPriority_queueOf k st :
  allQueues byPriority st -> byPriority (queueOf k st).
Proof.
  intros H. unfold queueOf.
  destruct (lanesGet k (lanes st)) as [lane|] eqn:Hg; [|constructor].
  exact (H k lane Hg).
Qed.

Lemma fifo_enqueue cfg k p k1 m pr now st :
  Inv cfg st -> byPriority (queueOf k st) ->
  undisturbed cfg k (Enqueue k1 m pr now) ->
  ofPriority p (history k (snd (enqueue cfg k1 m pr now st))) =
  ofPriority p (history k st) ++
  ofPriority p (onKey k (created cfg st (Enqueue k1 m pr now))).
Proof.
  intros HI Hsorted Hun. simpl in Hun. unfold created.
  destruct (overflows cfg k1 st) eqn:Hov.
  - rewrite enqueue_overflow by assumption. simpl.
    rewrite app_nil_r. f_equal.
    destruct (getOrCreateLane_rest k1 st) as (_ & _ & Hlog & Hrest).
    destruct (getOrCreateLane_lane k1 st) as (Hg & Hq & Hc & _).
    unfold history, settledOf. rewrite Hlog. f_equal.
    unfold pending, queueOf, currentOf in *.
    destruct (String.eqb_spec k k1); subst.
    + rewrite Hg. congruence.
    + now rewrite Hrest.
  - rewrite enqueue_accepted by assumption. cbn [fst snd].
    set (ins := inserted cfg k1 m pr now st).
    set (task := newTask cfg k1 m pr now st).
    pose proof (Inv_inserted cfg k1 m pr now st HI) as HI2. fold ins in HI2.
    unfold history at 1, settledOf.
    rewrite (pending_processLane cfg k1 ins k HI2).
    destruct (processLane_settled cfg k1 ins) as [-> _].
    unfold ins at 1. rewrite settled_inserted, settledOf_map.
    destruct (String.eqb_spec k1 k); subst.
    + assert (Hm : QueueMode_eqb (orElse m (defaultMode cfg)) steer = false).
      { specialize (Hun eq_refl).
        destruct (orElse m (defaultMode cfg)); auto. congruence. }
      unfold superseded. rewrite Hm. simpl onKey at 2. rewrite app_nil_r.
      rewrite (pending_lane k ins _ (lane_inserted_same cfg k m pr now st)).
      cbn [queue currentTask]. unfold kept. rewrite Hm. fold task.
      rewrite String.eqb_refl. unfold history, pending.
      rewrite !ofPriority_app, ofPriority_insert by assumption.
      now rewrite <- !app_assoc.
    + assert (Hk : onKey k [task] = []).
      { apply (onKey_other k k1); auto. intros t [<-|[]]. reflexivity. }
      rewrite Hk. simpl (ofPriority p []). rewrite app_nil_r. f_equal.
      rewrite (onKey_other k k1); auto.
      * rewrite app_nil_r. unfold history. f_equal.
        apply pending_ext. apply lane_inserted_other. congruence.
      * intros t Hin. apply (queue_keys cfg k1 st t HI).
        unfold superseded in Hin.
        destruct (QueueMode_eqb _ steer); [|destruct Hin].
        now apply filter_In in Hin.
Qed.

Lemma fifo_step cfg k p st op :
  Inv cfg st -> byPriority (queueOf k st) -> undisturbed cfg k op ->
  ofPriority p (history k (step cfg st op)) =
  ofPriority p (history k st) ++ ofPriority p (onKey k (created cfg st op)).
Proof.
  intros HI Hsorted Hun.
  destruct op as [k1 m pr now | k1 | [k1|] | k1 o].
  - now apply fifo_enqueue.
  - simpl in *. rewrite app_nil_r. f_equal.
    unfold abort. destruct (lanesGet k1 (lanes st)) as [lane|] eqn:Hg; auto.
    cbn [snd]. eapply history_clearLane; eauto.
  - simpl in *. rewrite app_nil_r. f_equal.
    destruct Hun as [Hne Hnz].
    destruct (String.eqb_spec k1 EmptyString); [congruence|].
    unfold clearLane. destruct (lanesGet k1 (lanes st)) as [lane|] eqn:Hg; auto.
    eapply history_clearLane; eauto.
  - destruct Hun.
  - simpl. rewrite app_nil_r. f_equal.
    now apply history_pumpResume with (cfg := cfg).
Qed.

Lemma fifo_steps cfg k p ops st :
  Inv cfg st -> allQueues byPriority st ->
  Forall (undisturbed cfg k) ops ->
  ofPriority p (history k (fold_left (step cfg) ops st)) =
  ofPriority p (history k st) ++ ofPriority p (onKey k (createdBy cfg st ops)).
Proof.
  revert st. induction ops as [|op ops IH]; intros st HI Hsorted Hall.
  - simpl. now rewrite app_nil_r.
  - inversion Hall as [|? ? Hop Hrest]; subst.
    simpl. rewrite IH; auto using Inv_step, byPriority_step.
    rewrite (fifo_step cfg k p st op HI (byPriority_queueOf k st Hsorted) Hop).
    now rewrite onKey_app, ofPriority_app, app_assoc.
Qed.

(** C4, at inputs where it fails.  Three collect tasks of priority 0 are
    enqueued on one lane; the first runs, the other two wait.  When the lane
    is aborted, and likewise when a steer task is enqueued on it, the two
    waiting tasks are rejected at once, before the first task resolves:
    the three settle in the order 2, 3, 1, not in enqueue order. *)
Lemma abort_and_steer_break_enqueue_order :
  let cfg := constructor (mkOptions None None None None None) in
  let three := [Enqueue "s1" (Some collect) (Some 0) 0;
                Enqueue "s1" (Some collect) (Some 0) 1;
                Enqueue "s1" (Some collect) (Some 0) 2] in
  let aborted := three ++ [Abort "s1"; Resume "s1" HandlerResolved] in
  let steered := three ++ [Enqueue "s1" (Some steer) (Some 0) 3;
                           Resume "s1" HandlerResolved] in
  map id (createdOn cfg "s1" aborted) = [1; 2; 3]%nat /\
  map (fun ts => (id (fst ts), snd ts)) (settled (run cfg aborted)) =
    [(2%nat, Rejected TaskAborted); (3%nat, Rejected TaskAborted);
     (1%nat, Resolved)] /\
  map (fun ts => (id (fst ts), snd ts)) (settled (run cfg steered)) =
    [(2%nat, Rejected SteerSuperseded); (3%nat, Rejected SteerSuperseded);
     (1%nat, Resolved)] /\
  settledOf "s1" (run cfg aborted) <> createdOn cfg "s1" aborted.
Proof.
  vm_compute. repeat split; try reflexivity. discriminate.
Qed.

(** C4, amended.  [insertByPriority] puts the new task immediately before
    the first queued task of strictly lower priority, and at the end when
    there is none; every call of [enqueue] that creates a task inserts it
    that way (into the queue as the steer filter left it) before it
    triggers the pump.  Consequently, in an execution in which lane [k] is
    neither aborted nor cleared and receives no steer task, the tasks of
    one priority settle in enqueue order whatever else is on the lane: at
    every point the settled tasks of [k] of priority [p], followed by the
    running and the queued ones of priority [p], are the tasks of priority
    [p] created on [k], in the order of the calls. *)
Theorem priority_insertion_fifo :
  (forall q task,
     exists before after,
       q = before ++ after /\
       insertByPriority q task = before ++ task :: after /\
       (forall x, In x before -> priority task <= priority x) /\
       (forall y, hd_error after = Some y -> priority y < priority task)) /\
  (forall cfg k om op now st task,
     fst (enqueue cfg k om op now st) = inr task ->
     exists st1,
       snd (enqueue cfg k om op now st) = processLane cfg k st1 /\
       queueOf k st1 =
         insertByPriority (kept (orElse om (defaultMode cfg)) (queueOf k st))
           task) /\
  (forall cfg k ops,
     Forall (undisturbed cfg k) ops ->
     forall p,
       ofPriority p (settledOf k (run cfg ops) ++ pending k (run cfg ops)) =
       ofPriority p (createdOn cfg k ops)).
Proof.
  split; [exact insertByPriority_position | split].
  - intros cfg k om op now st task Hr.
    destruct (overflows cfg k st) eqn:Hov.
    + rewrite enqueue_overflow in Hr by assumption. discriminate.
    + rewrite enqueue_accepted in * by assumption. simpl in Hr.
      injection Hr as <-.
      exists (inserted cfg k om op now st). split; auto.
      unfold queueOf at 1. now rewrite lane_inserted_same.
  - intros cfg k ops Hall p.
    assert (H0 : allQueues byPriority initial)
      by (intros k' lane Hg; discriminate).
    exact (fifo_steps cfg k p ops initial (Inv_initial cfg) H0 Hall).
Qed.

Lemma priority_insertion_fifo_witness :
  let cfg := constructor (mkOptions (Some 1) None None None None) in
  let ops := [Enqueue "s2" None None 0; Enqueue "s1" None None 1;
              Enqueue "s1" (Some followup) (Some 5) 2;
              Enqueue "s1" (Some collect) None 3; Resume "s2" TimerFired;
              Enqueue "s1" None (Some 0) 4; Abort "s2";
              Resume "s1" HandlerResolved] in
  Forall (undisturbed cfg "s1") ops /\
  map id (settledOf "s1" (run cfg ops)) = [3]%nat /\
  map id (pending "s1" (run cfg ops)) = [2; 4; 5]%nat /\
  map id (ofPriority 0 (settledOf "s1" (run cfg ops) ++
                        pending "s1" (run cfg ops))) = [2; 4; 5]%nat /\
  map id (ofPriority 0 (createdOn cfg "s1" ops)) = [2; 4; 5]%nat.
Proof.
  intros cfg ops.
  assert (H0 : Forall (undisturbed cfg "s1") ops).
  { repeat constructor; simpl; try discriminate; intros _; discriminate. }
  split; [exact H0|].
  destruct priority_insertion_fifo as (_ & _ & H).
  specialize (H cfg "s1"%string ops H0 0).
  rewrite <- H. repeat split; reflexivity.
Defined.

(** *** The overflow bound *)

(** X4. Under the strategies [drop] and [reject], in every state an
    execution reaches, no lane has more than [maxQueueSize] queued tasks
    (none at all when the bound is not positive). *)
Theorem queue_length_bounded (cfg : LaneQueueConfig) (ops : list Op)
  (k : string) :
  overflowStrategy cfg <> wait ->
  getQueueLength k (run cfg ops) <= Z.max 0 (maxQueueSize cfg).
Proof.
  intros Hs. unfold getQueueLength.
  destruct (lanesGet k (lanes (run cfg ops))) as [lane|] eqn:Hg; [|lia].
  apply (allQueues_run cfg (withinBound cfg)) with (ops := ops) (k := k); auto.
  - intros _. unfold len. simpl. lia.
  - intros t q H Hw. specialize (H Hw). unfold len in *. simpl in H. lia.
  - intros k' om op now st Hov H Hw. specialize (H Hw).
    unfold overflows in Hov.
    assert (Hlt : len (queueOf k' st) < maxQueueSize cfg).
    { destruct (len (queueOf k' st) >=? maxQueueSize cfg) eqn:Hc.
      - simpl in Hov. destruct (overflowStrategy cfg); congruence.
      - now apply geb_false in Hc. }
    assert (Hk : len (kept (orElse om (defaultMode cfg)) (queueOf k' st))
                 <= len (queueOf k' st)).
    { unfold kept, len. destruct (QueueMode_eqb _ steer); [|lia].
      apply Nat2Z.inj_le, filter_length_le. }
    assert (Hi : forall q t, len (insertByPriority q t) = len q + 1).
    { clear. intros q t. unfold len.
      induction q as [|x q IH]; simpl; [reflexivity|].
      destruct (priority t >? priority x); simpl List.length; lia. }
    rewrite Hi. lia.
Qed.

Lemma queue_length_bounded_witness :
  let cfg := constructor (mkOptions (Some 1) (Some 2) None (Some reject) None) in
  let ops := [Enqueue "s1" None None 0; Enqueue "s1" None None 1;
              Enqueue "s1" None (Some 5) 2; Enqueue "s1" None None 3;
              Enqueue "s1" (Some steer) None 4] in
  overflowStrategy cfg <> wait /\
  getQueueLength "s1" (run cfg ops) <= Z.max 0 (maxQueueSize cfg).
Proof.
  intros cfg ops.
  assert (H0 : overflowStrategy cfg <> wait) by discriminate.
  split; [exact H0|].
  exact (queue_length_bounded cfg ops "s1" H0).
Defined.

(** *** Lanes do not disturb each other *)

Lemma other_lane_pumpResume cfg k o st k' :
  Inv cfg st -> k' <> k ->
  pending k' (pumpResume cfg k o st) = pending k' st /\
  settledOf k' (pumpResume cfg k o st) = settledOf k' st.
Proof.
  intros HI Hne. unfold pumpResume.
  destruct (lanesGet k (lanes st)) as [lane|] eqn:Hg; auto.
  destruct (currentTask lane) as [task|] eqn:Hcur; auto.
  pose proof HI as (_ & _ & _ & Hok).
  pose proof (ok_get _ _ _ Hok Hg) as (Hidle & Hkeys & Hck). simpl in *.
  assert (Hp : processing lane = true).
  { destruct (processing lane); auto. specialize (Hidle eq_refl). congruence. }
  set (lane0 := {| queue := queue lane; processing := processing lane;
                   currentTask := None |}).
  set (st2 := putLane k lane0 (settle task (settlementOf o) st)).
  assert (HI2 : Inv cfg st2).
  { eapply Inv_put with (l := lane); eauto using Inv_settle.
    unfold laneOK; simpl. repeat split; auto; discriminate. }
  assert (Hg2 : lanesGet k (lanes st2) = Some lane0).
  { unfold st2, putLane, withLanes. simpl. now rewrite lanesGet_put_same, Hg. }
  destruct (quiet_pumpLoop cfg k lane0 st2 k' HI2 Hg2 Hp eq_refl) as [Hpe Hse].
  unfold settledOf. rewrite Hpe, Hse. split.
  - apply pending_ext. unfold st2, putLane, withLanes. simpl.
    now apply lanesGet_put_other.
  - unfold st2, putLane, withLanes, settle. simpl.
    rewrite map_app, onKey_app. simpl. rewrite (Hck task Hcur).
    destruct (String.eqb_spec k k'); [congruence|]. apply app_nil_r.
Qed.

Lemma other_lane_emptied cfg k lane e st k' :
  Inv cfg st -> k' <> k -> lanesGet k (lanes st) = Some lane ->
  let st' := putLane k {| queue := []; processing := processing lane;
                          currentTask := currentTask lane |}
               (rejectAll (queue lane) e st) in
  pending k' st' = pending k' st /\ settledOf k' st' = settledOf k' st.
Proof.
  intros HI Hne Hg st'. unfold st', settledOf.
  rewrite rejectAll_eq. unfold putLane, withLanes. simpl. split.
  - apply pending_ext. simpl. now apply lanesGet_put_other.
  - rewrite settledOf_map, (onKey_other k' k (queue lane)); auto.
    + apply app_nil_r.
    + intros t Hin. apply (queue_keys cfg k st t HI).
      unfold queueOf. now rewrite Hg.
Qed.

Lemma other_lane_enqueue cfg k m p now st k' :
  Inv cfg st -> k' <> k ->
  pending k' (snd (enqueue cfg k m p now st)) = pending k' st /\
  settledOf k' (snd (enqueue cfg k m p now st)) = settledOf k' st.
Proof.
  intros HI Hne. destruct (overflows cfg k st) eqn:Hov.
  - rewrite enqueue_overflow by assumption. simpl.
    destruct (getOrCreateLane_rest k st) as (_ & _ & Hlog & Hrest).
    unfold settledOf. rewrite Hlog. split; auto.
    apply pending_ext. auto.
  - rewrite enqueue_accepted by assumption. cbn [fst snd].
    pose proof (Inv_inserted cfg k m p now st HI) as HI2.
    rewrite (pending_processLane cfg k _ k' HI2).
    unfold settledOf.
    destruct (processLane_settled cfg k (inserted cfg k m p now st)) as [-> _].
    rewrite settled_inserted, settledOf_map. split.
    + apply pending_ext. now apply lane_inserted_other.
    + rewrite (onKey_other k' k); auto; [apply app_nil_r|].
      intros t Hin. apply (queue_keys cfg k st t HI).
      unfold superseded in Hin.
      destruct (QueueMode_eqb _ steer); [|destruct Hin].
      now apply filter_In in Hin.
Qed.

(** X5. An operation addressed to one lane ([enqueue] in any mode,
    [abort], [clear] with a key, or the settling of the lane's running
    task) leaves the tasks of every other lane as they are: the same tasks
    are settled, and the same tasks are pending in the same order.  (A lane
    that was waiting for a slot may be started by it.) *)
Theorem lanes_are_isolated (cfg : LaneQueueConfig) (ops : list Op) (op : Op)
  (k k' : string) :
  opKey op = Some k -> k' <> k ->
  let st := run cfg ops in
  pending k' (step cfg st op) = pending k' st /\
  settledOf k' (step cfg st op) = settledOf k' st.
Proof.
  intros Hop Hne st.
  pose proof (Inv_run cfg ops) as HI. fold st in HI.
  destruct op as [k1 m p now | k1 | [k1|] | k1 o]; simpl in Hop.
  - injection Hop as ->. now apply other_lane_enqueue.
  - injection Hop as ->. simpl. unfold abort.
    destruct (lanesGet k (lanes st)) as [lane|] eqn:Hg; auto.
    cbn [snd]. now apply (other_lane_emptied cfg).
  - simpl. destruct (String.eqb k1 EmptyString); [discriminate|].
    injection Hop as ->. unfold clearLane.
    destruct (lanesGet k (lanes st)) as [lane|] eqn:Hg; auto.
    now apply (other_lane_emptied cfg).
  - discriminate.
  - injection Hop as ->. simpl. now apply other_lane_pumpResume.
Qed.

Lemma lanes_are_isolated_witness :
  let cfg := constructor (mkOptions (Some 1) None None None None) in
  let ops := [Enqueue "s1" None None 0; Enqueue "s2" None None 1;
              Enqueue "s2" None (Some 3) 2] in
  let op := Resume "s1" TimerFired in
  opKey op = Some "s1"%string /\ "s2"%string <> "s1"%string /\
  map id (pending "s2" (step cfg (run cfg ops) op)) = [3; 2]%nat /\
  settledOf "s2" (step cfg (run cfg ops) op) = [].
Proof.
  intros cfg ops op.
  assert (H0 : opKey op = Some "s1"%string) by reflexivity.
  assert (H1 : "s2"%string <> "s1"%string) by discriminate.
  destruct (lanes_are_isolated cfg ops op "s1" "s2" H0 H1) as [Hp Hs].
  split; [exact H0|]. split; [exact H1|]. split.
  - rewrite Hp. reflexivity.
  - rewrite Hs. reflexivity.
Defined.

(** *** What is in the log *)

Lemma settled_pumpLoop cfg k st : settled (pumpLoop cfg k st) = settled st.
Proof.
  unfold pumpLoop. destruct (lanesGet k (lanes st)) as [lane|]; auto.
  destruct (len (queue lane) >? 0).
  - unfold pumpShift. destruct (lanesGet k (lanes st)) as [l|]; auto.
    destruct (queue l); reflexivity.
  - unfold pumpFinally.
    destruct (frame_tryProcessPendingLanes cfg (pumpRelease k st)) as (_ & _ & ->).
    unfold pumpRelease. destruct (lanesGet k (lanes st)) as [l|]; auto.
    unfold cleanupEmptyLane. simpl.
    destruct (lanesGet k _) as [l2|]; auto.
    destruct ((len (queue l2) =? 0) && negb (processing l2)); auto.
Qed.

Lemma settled_clearAll_In keys st e :
  In e (settled (fold_left (fun s k' => clearLane k' s) keys st)) ->
  In e (settled st) \/ snd e = Rejected QueueCleared.
Proof.
  revert st. induction keys as [|k keys IH]; simpl; intros st H; auto.
  apply IH in H as [H|H]; auto.
  unfold clearLane in H. destruct (lanesGet k (lanes st)) as [lane|]; auto.
  unfold putLane, withLanes in H. simpl in H.
  rewrite settled_rejectAll in H. apply in_app_or in H as [H|H]; auto.
  apply in_map_iff in H as (t & <- & _). now right.
Qed.

Lemma settled_step_In cfg st op t :
  In (t, Rejected SteerSuperseded) (settled (step cfg st op)) ->
  In (t, Rejected SteerSuperseded) (settled st) \/ mode t = collect.
Proof.
  destruct op as [k m p now | k | [k|] | k o]; simpl.
  - destruct (overflows cfg k st) eqn:Hov.
    + rewrite enqueue_overflow by assumption. simpl.
      destruct (getOrCreateLane_rest k st) as (_ & _ & -> & _). auto.
    + rewrite enqueue_accepted by assumption. simpl.
      destruct (processLane_settled cfg k (inserted cfg k m p now st)) as [-> _].
      rewrite settled_inserted. intros H.
      apply in_app_or in H as [H|H]; auto.
      apply in_map_iff in H as (t' & [= ->] & Hin).
      unfold superseded in Hin.
      destruct (QueueMode_eqb _ steer); [|destruct Hin].
      apply filter_In in Hin as [_ Hc]. right.
      unfold isCollect in Hc. destruct (mode t); auto; discriminate.
  - unfold abort. destruct (lanesGet k (lanes st)) as [lane|]; auto.
    unfold putLane, withLanes. simpl. rewrite settled_rejectAll. intros H.
    apply in_app_or in H as [H|H]; auto.
    apply in_map_iff in H as (t' & [=] & _).
  - intros H.
    assert (H' : In (t, Rejected SteerSuperseded) (settled st) \/
                 snd (t, Rejected SteerSuperseded) = Rejected QueueCleared).
    { destruct (String.eqb k EmptyString).
      - now apply settled_clearAll_In in H.
      - apply (settled_clearAll_In [k] st). exact H. }
    destruct H' as [H'|H']; auto. discriminate.
  - intros H. apply settled_clearAll_In in H as [H|H]; auto. discriminate.
  - unfold pumpResume.
    destruct (lanesGet k (lanes st)) as [lane|]; auto.
    destruct (currentTask lane) as [task|]; auto.
    rewrite settled_pumpLoop. unfold putLane, withLanes, settle. simpl.
    intros H. apply in_app_or in H as [H|[H|[]]]; auto.
    destruct o; discriminate.
Qed.

(** X6. In every execution, a task that was rejected as superseded by a
    steer call was a collect task: steer never cancels a steer or a
    followup task. *)
Theorem superseded_tasks_were_collect (cfg : LaneQueueConfig) (ops : list Op)
  (t : QueuedTask) :
  In (t, Rejected SteerSuperseded) (settled (run cfg ops)) -> mode t = collect.
Proof.
  unfold run.
  assert (H0 : ~ In (t, Rejected SteerSuperseded) (settled initial))
    by (intros []).
  revert H0. generalize initial.
  induction ops as [|op ops IH] using rev_ind; intros st H0 H.
  - contradiction.
  - rewrite fold_left_app in H. simpl in H.
    apply settled_step_In in H as [H|H]; auto.
    now apply (IH st).
Qed.

Lemma superseded_tasks_were_collect_witness :
  let cfg := constructor (mkOptions None None None None None) in
  let ops := [Enqueue "s1" None None 0; Enqueue "s1" (Some followup) None 1;
              Enqueue "s1" None None 2; Enqueue "s1" (Some steer) None 3] in
  let t := mkTask 3 "s1" collect 0 2 in
  In (t, Rejected SteerSuperseded) (settled (run cfg ops)) /\ mode t = collect.
Proof.
  intros cfg ops t.
  assert (H : In (t, Rejected SteerSuperseded) (settled (run cfg ops)))
    by (vm_compute; auto).
  split; [exact H|].
  exact (superseded_tasks_were_collect cfg ops t H).
Defined.

(** *** abort, and the task that is running *)

(** X7. [abort] on a lane with a running task returns the number of queued
    tasks, rejects exactly those, in queue order, as aborted, and leaves
    the running task and the other lanes alone.  When the running task
    settles afterwards it settles with its own outcome, and the lane,
    having nothing left, is removed from the table. *)
Theorem abort_spares_running_task (cfg : LaneQueueConfig) (k : string)
  (o : RaceOutcome) (st : State) (lane : Lane) (c : QueuedTask) :
  lanesGet k (lanes st) = Some lane -> currentTask lane = Some c ->
  let r := abort k st in
  let st2 := pumpResume cfg k o (snd r) in
  fst r = len (queue lane) /\
  settled (snd r) =
    settled st ++ map (fun t => (t, Rejected TaskAborted)) (queue lane) /\
  queueOf k (snd r) = [] /\ currentOf k (snd r) = Some c /\
  (forall k', k' <> k -> lanesGet k' (lanes (snd r)) = lanesGet k' (lanes st)) /\
  settled st2 = settled (snd r) ++ [(c, settlementOf o)] /\
  lanesGet k (lanes st2) = None.
Proof.
  intros Hg Hcur r st2.
  assert (Hr : r = (len (queue lane),
                    putLane k {| queue := []; processing := processing lane;
                                 currentTask := currentTask lane |}
                      (rejectAll (queue lane) TaskAborted st))).
  { unfold r, abort. now rewrite Hg. }
  assert (Hg1 : lanesGet k (lanes (snd r)) =
                Some {| queue := []; processing := processing lane;
                        currentTask := currentTask lane |}).
  { rewrite Hr. unfold putLane, withLanes. simpl.
    now rewrite lanesGet_put_same, lanes_rejectAll, Hg. }
  split; [now rewrite Hr|]. split; [|split; [|split; [|split]]].
  - rewrite Hr. unfold putLane, withLanes. simpl. apply settled_rejectAll.
  - unfold queueOf. now rewrite Hg1.
  - unfold currentOf. now rewrite Hg1.
  - intros k' Hne. rewrite Hr. unfold putLane, withLanes. simpl.
    rewrite lanesGet_put_other by assumption. now rewrite lanes_rejectAll.
  - unfold st2.
    rewrite (pumpResume_exit cfg k o (snd r) _ c Hg1 Hcur eq_refl).
    match goal with
    | |- context [tryProcessPendingLanes cfg ?s] =>
        destruct (frame_tryProcessPendingLanes cfg s) as (Hk & _ & Hs)
    end.
    rewrite Hs. split; [reflexivity|].
    apply lanesGet_None_notin. rewrite Hk. simpl.
    apply lanesGet_None_notin, lanesGet_delete_same.
Qed.

Lemma abort_spares_running_task_witness :
  let cfg := constructor (mkOptions None None None None None) in
  let st := run cfg [Enqueue "s1" None None 0; Enqueue "s1" None None 1;
                     Enqueue "s1" None None 2] in
  let r := abort "s1" st in
  fst r = 2 /\
  map (fun e => id (fst e)) (settled (pumpResume cfg "s1" HandlerResolved (snd r)))
    = [2; 3; 1]%nat /\
  lanesGet "s1" (lanes (pumpResume cfg "s1" HandlerResolved (snd r))) = None.
Proof.
  intros cfg st r.
  destruct (lanesGet "s1" (lanes st)) as [lane|] eqn:Hg;
    [|vm_compute in Hg; discriminate].
  assert (Hc : currentTask lane = Some (mkTask 1 "s1" collect 0 0))
    by (vm_compute in Hg; injection Hg as <-; reflexivity).
  assert (Hq : map id (queue lane) = [2; 3]%nat)
    by (vm_compute in Hg; injection Hg as <-; reflexivity).
  destruct (abort_spares_running_task cfg "s1" HandlerResolved st lane _ Hg Hc)
    as (Hn & Hlog & _ & _ & _ & Hlog2 & Hgone).
  fold r in Hn, Hlog, Hlog2, Hgone.
  split; [|split; [|exact Hgone]].
  - rewrite Hn. unfold len. rewrite <- (length_map id), Hq. reflexivity.
  - rewrite Hlog2, Hlog, !map_app, map_map. simpl.
    change (map (fun x => id x) (queue lane)) with (map id (queue lane)).
    rewrite Hq. reflexivity.
Defined.

(** *** A task that fails does not stop its lane *)

(** X8. When the running task of a lane settles while tasks are queued, then
    whatever the outcome (resolved, rejected or timed out) the task is
    settled with that outcome and nothing else is, the next queued task
    becomes the running one, the lane keeps its slot, and the other lanes
    are not touched. *)
Theorem lane_goes_on_after_any_outcome (cfg : LaneQueueConfig) (ops : list Op)
  (k : string) (o : RaceOutcome) (c t : QueuedTask) (rest : list QueuedTask) :
  let st := run cfg ops in
  currentOf k st = Some c -> queueOf k st = t :: rest ->
  let st' := step cfg st (Resume k o) in
  settled st' = settled st ++ [(c, settlementOf o)] /\
  currentOf k st' = Some t /\ queueOf k st' = rest /\
  isProcessing k st' = true /\
  globalConcurrency st' = globalConcurrency st /\
  (forall k', k' <> k -> lanesGet k' (lanes st') = lanesGet k' (lanes st)).
Proof.
  intros st Hcur Hq st'.
  pose proof (Inv_run cfg ops) as HI. fold st in HI.
  unfold currentOf, queueOf in Hcur, Hq.
  destruct (lanesGet k (lanes st)) as [lane|] eqn:Hg; [|discriminate].
  pose proof HI as (_ & _ & _ & Hok).
  pose proof (ok_get _ _ _ Hok Hg) as (Hidle & _). simpl in Hidle.
  assert (Hp : processing lane = true).
  { destruct (processing lane); auto. specialize (Hidle eq_refl). congruence. }
  unfold st'. simpl.
  rewrite (pumpResume_next cfg k o st lane c t rest Hg Hcur Hq).
  unfold currentOf, queueOf, isProcessing. simpl.
  rewrite lanesGet_put_same, Hg. simpl.
  repeat split; auto.
  intros k' Hne. now apply lanesGet_put_other.
Qed.

Lemma lane_goes_on_after_any_outcome_witness :
  let cfg := constructor (mkOptions None None None None None) in
  let ops := [Enqueue "s1" None None 0; Enqueue "s1" None None 1] in
  let st := run cfg ops in
  let st' := step cfg st (Resume "s1" TimerFired) in
  currentOf "s1" st = Some (mkTask 1 "s1" collect 0 0) /\
  queueOf "s1" st = [mkTask 2 "s1" collect 0 1] /\
  settled st' = [(mkTask 1 "s1" collect 0 0, Rejected TaskTimeout)] /\
  currentOf "s1" st' = Some (mkTask 2 "s1" collect 0 1).
Proof.
  intros cfg ops st st'.
  assert (H0 : currentOf "s1" st = Some (mkTask 1 "s1" collect 0 0))
    by reflexivity.
  assert (H1 : queueOf "s1" st = [mkTask 2 "s1" collect 0 1]) by reflexivity.
  destruct (lane_goes_on_after_any_outcome cfg ops "s1" TimerFired _ _ _ H0 H1)
    as (Hs & Hc & _).
  repeat split; auto.
Defined.

(** *** clear without a key *)

Lemma lane_clearLane k st k' :
  lanesGet k' (lanes (clearLane k st)) =
  option_map (fun l => if String.eqb k' k then emptied l else l)
    (lanesGet k' (lanes st)).
Proof.
  unfold clearLane.
  destruct (lanesGet k (lanes st)) as [lane|] eqn:Hg.
  - unfold putLane, withLanes. simpl. rewrite lanes_rejectAll.
    destruct (String.eqb_spec k' k) as [->|Hne].
    + rewrite lanesGet_put_same, Hg. reflexivity.
    + rewrite lanesGet_put_other by assumption.
      now destruct (lanesGet k' (lanes st)).
  - destruct (String.eqb_spec k' k) as [->|Hne].
    + now rewrite Hg.
    + now destruct (lanesGet k' (lanes st)).
Qed.

Lemma lane_clearAll keys st k :
  lanesGet k (lanes (fold_left (fun s k' => clearLane k' s) keys st)) =
  option_map (fun l => if in_dec string_dec k keys then emptied l else l)
    (lanesGet k (lanes st)).
Proof.
  revert st. induction keys as [|k0 keys IH]; intros st.
  - simpl. now destruct (lanesGet k (lanes st)).
  - cbn [fold_left]. rewrite IH, lane_clearLane.
    destruct (lanesGet k (lanes st)) as [l|]; [|reflexivity].
    cbn [option_map]. f_equal.
    destruct (String.eqb_spec k k0) as [->|Hne].
    + destruct (in_dec string_dec k0 (k0 :: keys)) as [_|Hn];
        [|exfalso; apply Hn; now left].
      now destruct (in_dec string_dec k0 keys).
    + destruct (in_dec string_dec k keys) as [Hin|Hn];
        destruct (in_dec string_dec k (k0 :: keys)) as [Hin'|Hn']; auto.
      * exfalso. apply Hn'. now right.
      * destruct Hin' as [E|Hin']; [congruence | contradiction].
Qed.

Lemma keys_clearAll keys st :
  map fst (lanes (fold_left (fun s k' => clearLane k' s) keys st)) =
  map fst (lanes st).
Proof.
  revert st. induction keys as [|k keys IH]; intros st; simpl; auto.
  rewrite IH. unfold clearLane.
  destruct (lanesGet k (lanes st)); auto.
  unfold putLane, withLanes. simpl. now rewrite keys_put, lanes_rejectAll.
Qed.

Lemma gc_clearAll keys st :
  globalConcurrency (fold_left (fun s k' => clearLane k' s) keys st) =
  globalConcurrency st.
Proof.
  revert st. induction keys as [|k keys IH]; intros st; simpl; auto.
  rewrite IH. unfold clearLane.
  destruct (lanesGet k (lanes st)); auto.
  unfold putLane, withLanes. simpl. now rewrite gc_rejectAll.
Qed.

Lemma settled_clearLane_mono k st e :
  In e (settled st) -> In e (settled (clearLane k st)).
Proof.
  intros H. unfold clearLane. destruct (lanesGet k (lanes st)); auto.
  unfold putLane, withLanes. simpl. rewrite settled_rejectAll.
  apply in_or_app. now left.
Qed.

Lemma settled_clearAll_mono keys st e :
  In e (settled st) ->
  In e (settled (fold_left (fun s k' => clearLane k' s) keys st)).
Proof.
  revert st. induction keys as [|k keys IH]; intros st H; simpl; auto.
  apply IH. now apply settled_clearLane_mono.
Qed.

Lemma cleared_are_logged keys st k t :
  NoDup keys -> In k keys -> In t (queueOf k st) ->
  In (t, Rejected QueueCleared)
    (settled (fold_left (fun s k' => clearLane k' s) keys st)).
Proof.
  revert st. induction keys as [|k0 keys IH]; intros st Hnd Hin Ht;
    [destruct Hin|].
  inversion Hnd as [|? ? Hnot Hnd']; subst. cbn [fold_left].
  destruct Hin as [->|Hin].
  - apply settled_clearAll_mono. unfold clearLane, queueOf in *.
    destruct (lanesGet k (lanes st)) as [lane|]; [|destruct Ht].
    unfold putLane, withLanes. simpl. rewrite settled_rejectAll.
    apply in_or_app. right.
    apply in_map_iff. now exists t.
  - apply IH; auto. unfold queueOf. rewrite lane_clearLane.
    unfold queueOf in Ht.
    destruct (lanesGet k (lanes st)) as [lane|]; [|destruct Ht]. simpl.
    destruct (String.eqb_spec k k0) as [->|Hne]; [contradiction | assumption].
Qed.

Lemma total_zero (m : list (string * Lane)) :
  (forall kl, In kl m -> queue (snd kl) = []) ->
  forall z, fold_left (fun total kl => total + len (queue (snd kl))) m z = z.
Proof.
  induction m as [|kl m IH]; intros H z; simpl; auto.
  rewrite (H kl) by now left. unfold len at 2. simpl.
  rewrite Z.add_0_r. apply IH. intros kl' Hin. apply H. now right.
Qed.

Lemma In_lanesGet k l (m : list (string * Lane)) :
  NoDup (map fst m) -> In (k, l) m -> lanesGet k m = Some l.
Proof.
  induction m as [|[k2 l2] m IH]; simpl; intros Hnd Hin; [destruct Hin|].
  inversion Hnd as [|? ? Hnot Hnd']; subst.
  destruct Hin as [[= -> ->]|Hin].
  - now rewrite String.eqb_refl.
  - destruct (String.eqb_spec k k2) as [->|Hne]; auto.
    exfalso. apply Hnot. apply in_map_iff. now exists (k2, l).
Qed.

(** X9. In every state an execution reaches, [clear()] without a key (or
    with the empty key) leaves no queued task in any lane: the total queue
    length is 0, every task that was queued is rejected as cleared, and the
    running tasks, the processing flags and the concurrency counter stay as
    they were. *)
Theorem clear_all_empties_every_queue (cfg : LaneQueueConfig) (ops : list Op) :
  let st := run cfg ops in
  let st' := clear None st in
  clear (Some EmptyString) st = st' /\
  getTotalQueueLength st' = 0 /\
  (forall k, currentOf k st' = currentOf k st /\
             isProcessing k st' = isProcessing k st) /\
  globalConcurrency st' = globalConcurrency st /\
  (forall k t, In t (queueOf k st) ->
               In (t, Rejected QueueCleared) (settled st')).
Proof.
  intros st st'.
  pose proof (Inv_run cfg ops) as HI. fold st in HI.
  pose proof HI as (Hnd & _).
  assert (Hlane : forall k,
            lanesGet k (lanes st') =
            option_map (fun l => if in_dec string_dec k (map fst (lanes st))
                                 then emptied l else l)
              (lanesGet k (lanes st)))
    by (intros k; apply lane_clearAll).
  split; [reflexivity|]. split; [|split; [|split]].
  - unfold getTotalQueueLength. apply total_zero. intros [k l] Hin. simpl.
    assert (Hnd' : NoDup (map fst (lanes st')))
      by (unfold st', clear; now rewrite keys_clearAll).
    pose proof (In_lanesGet k l _ Hnd' Hin) as Hg.
    rewrite Hlane in Hg.
    destruct (lanesGet k (lanes st)) as [l0|] eqn:Hg0; [|discriminate].
    simpl in Hg.
    destruct (in_dec string_dec k (map fst (lanes st))) as [_|Hn].
    + now injection Hg as <-.
    + exfalso. apply Hn. apply lanesGet_In in Hg0.
      apply in_map_iff. now exists (k, l0).
  - intros k. unfold currentOf, isProcessing. rewrite Hlane.
    destruct (lanesGet k (lanes st)) as [l0|]; auto. simpl.
    destruct (in_dec string_dec k (map fst (lanes st))); auto.
  - apply gc_clearAll.
  - intros k t Ht. apply cleared_are_logged with (k := k); auto.
    unfold queueOf in Ht.
    destruct (lanesGet k (lanes st)) as [l0|] eqn:Hg0; [|destruct Ht].
    apply lanesGet_In in Hg0. apply in_map_iff. now exists (k, l0).
Qed.

End LaneQueueFacts.

(* ================================================================== *)
(** * Properties of the streaming-card assembler *)
(* ================================================================== *)

Module CardFacts.

Import Js Card.
Open Scope Z_scope.

(** ** Packing *)

Lemma len_gtb_cons_card {A} (x : A) l : (len (x :: l) >? 0) = true.
Proof. unfold len. simpl. reflexivity. Qed.

Lemma estimateElementSize_nonneg e : 0 <= estimateElementSize e.
Proof.
  unfold estimateElementSize. destruct (stringify e); unfold len; lia.
Qed.

Lemma estimatedSize_snoc els e :
  estimatedSize (els ++ [e]) = estimatedSize els + estimateElementSize e.
Proof.
  unfold estimatedSize. induction els as [|x els IH]; simpl; lia.
Qed.

Lemma sealedFrom_snoc ic t i pages p :
  sealedFrom ic t i (pages ++ [p]) =
  sealedFrom ic t i pages ++ [createCard ic t (i + List.length pages) p false].
Proof.
  revert i. induction pages as [|x pages IH]; intros i; simpl.
  - now rewrite Nat.add_0_r.
  - rewrite IH, Nat.add_succ_r. reflexivity.
Qed.

Lemma sealedCards_snoc ic t pages p :
  sealedCards ic t (pages ++ [p]) =
  sealedCards ic t pages ++ [createCard ic t (List.length pages) p false].
Proof. unfold sealedCards. now rewrite sealedFrom_snoc. Qed.

Lemma length_sealedCards ic t pages :
  List.length (sealedCards ic t pages) = List.length pages.
Proof.
  unfold sealedCards. generalize 0%nat.
  induction pages as [|x pages IH]; intros i; simpl; auto.
Qed.

Lemma nth_sealedCards ic t pages i card :
  nth_error (sealedCards ic t pages) i = Some card ->
  exists els, In els pages /\ card = createCard ic t i els false.
Proof.
  revert i card. induction pages as [|p pages IH] using rev_ind;
    intros i card H.
  - destruct i; discriminate.
  - rewrite sealedCards_snoc in H.
    destruct (Nat.lt_ge_cases i (List.length (sealedCards ic t pages))) as [Hlt|Hge].
    + rewrite nth_error_app1 in H by assumption.
      destruct (IH i card H) as (els & Hin & ->).
      exists els. split; auto. apply in_or_app. now left.
    + rewrite nth_error_app2 in H by assumption.
      rewrite length_sealedCards in *.
      destruct (i - List.length pages)%nat as [|n] eqn:E; simpl in H.
      * injection H as <-. exists p. split; [apply in_or_app; right; now left|].
        f_equal. lia.
      * destruct n; discriminate.
Qed.

Lemma builderOK_new ic t : builderOK ic t newBuilder.
Proof.
  exists []. unfold newBuilder, fits, estimatedSize, MAX_CARD_SIZE. simpl.
  repeat split; auto. left. lia.
Qed.

Lemma builderOK_addElement ic t e b :
  builderOK ic t b -> builderOK ic t (addElement ic t e b).
Proof.
  intros (pages & Hcards & Hidx & Hpages & Hfit & Hsize).
  unfold addElement, flushCard.
  destruct (currentSize b + estimateElementSize e >? MAX_CARD_SIZE) eqn:Hbig;
    simpl.
  - destruct (currentElements b) as [|x els] eqn:Hcur.
    + simpl. rewrite Hcur. exists pages. simpl. repeat split; auto.
      * right. now exists e.
      * rewrite Hsize. unfold estimatedSize. simpl. lia.
    + rewrite len_gtb_cons_card. simpl.
      exists (pages ++ [x :: els]). simpl. repeat split.
      * rewrite sealedCards_snoc, Hcards, Hidx. reflexivity.
      * rewrite length_app, Hidx. simpl. lia.
      * apply Forall_app. split; auto.
      * right. now exists e.
      * unfold estimatedSize. simpl. lia.
  - exists pages. simpl. repeat split; auto.
    + left. rewrite estimatedSize_snoc, <- Hsize.
      rewrite Z.gtb_ltb in Hbig. apply Z.ltb_ge in Hbig. exact Hbig.
    + rewrite estimatedSize_snoc. lia.
Qed.

Lemma builderOK_renderGroup proc ic t groups b g :
  builderOK ic t b -> builderOK ic t (renderGroup proc ic t groups b g).
Proof.
  intros Hb. unfold renderGroup.
  destruct (groupType g).
  - destruct (len (truthyTexts (parts g)) =? 0); auto.
    apply builderOK_addElement.
    destruct (len (currentElements b) >? 0); auto using builderOK_addElement.
  - assert (Hb1 : builderOK ic t
                    {| cards := cards b; currentElements := currentElements b;
                       currentSize := currentSize b; cardIndex := cardIndex b;
                       reasoningIndex := S (reasoningIndex b) |})
      by exact Hb.
    destruct (len (truthyTexts (parts g)) =? 0); auto.
    now apply builderOK_addElement.
  - revert b Hb. induction (parts g) as [|tool tools IH]; simpl; auto.
    intros b Hb. apply IH.
    destruct (toolPanel proc tool); auto using builderOK_addElement.
Qed.

Lemma builderOK_assemble proc ps ic t : builderOK ic t (assemble proc ps ic t).
Proof.
  unfold assemble.
  generalize (groupConsecutiveParts ps) at 1 as groups.
  intros groups. generalize (builderOK_new ic t).
  generalize newBuilder.
  induction (groupConsecutiveParts ps) as [|g gs IH]; simpl; auto.
  intros b Hb. apply IH. now apply builderOK_renderGroup.
Qed.

(** The cards of a call: the sealed pages in order, then the final card. *)
Lemma buildStreamingCardsV2_pages proc ps ic t :
  exists pages final,
    resultCards (buildStreamingCardsV2 proc ps ic t) =
      sealedCards ic t pages ++ [createCard ic t (List.length pages) final true] /\
    Forall fits pages /\ fits final.
Proof.
  destruct (builderOK_assemble proc ps ic t)
    as (pages & Hcards & Hidx & Hpages & Hfit & _).
  unfold buildStreamingCardsV2, finish. simpl.
  rewrite Hcards, Hidx.
  exists pages. eexists. split; [reflexivity|]. split; auto.
  destruct (len (currentElements (assemble proc ps ic t)) =? 0); auto.
  right. eexists. reflexivity.
Qed.

(** ** Titles *)

Lemma titleOf_createCard ic t i els final :
  titleOf (createCard ic t i els final) = cardTitle (headerTitle ic t final) i.
Proof. reflexivity. Qed.

Lemma elementsOf_createCard ic t i els final :
  elementsOf (createCard ic t i els final) = els.
Proof. reflexivity. Qed.

Lemma digits_inj d d' : digits d = digits d' -> d = d'.
Proof.
  revert d'. induction d; destruct d'; simpl; intros H;
    try discriminate; try reflexivity;
    injection H as H; f_equal; auto.
Qed.

Lemma natToString_inj i j : natToString i = natToString j -> i = j.
Proof.
  unfold natToString. intros H. apply digits_inj in H.
  rewrite <- (Unsigned.of_to i), <- (Unsigned.of_to j). now rewrite H.
Qed.

Lemma cardTitle_inj h i j : cardTitle h i = cardTitle h j -> i = j.
Proof.
  unfold cardTitle.
  destruct i as [|i], j as [|j]; simpl; auto; intros H.
  - apply (f_equal (@List.length N)) in H. rewrite !length_app in H.
    simpl in H. lia.
  - apply (f_equal (@List.length N)) in H. rewrite !length_app in H.
    simpl in H. lia.
  - apply app_inv_head in H. injection H as H.
    apply app_inv_tail in H. now apply natToString_inj.
Qed.

Lemma no_marker_in_plain_title : ~ carriesPageMarker TITLE_PROCESSING.
Proof.
  intros (base & n & H).
  apply (f_equal (fun l => last l 0%N)) in H.
  rewrite !app_assoc in H. unfold lit in H. simpl in H.
  rewrite last_last in H. discriminate.
Qed.

(** C1, at an input where it fails.  A text of 26000 characters followed
    by a tool call gives two cards; the first one, the sealed one, has the
    bare title and no page marker, the final one has the marker 1. *)
Lemma first_sealed_card_has_no_marker :
  let ps := [textPart (List.repeat 97%N (Z.to_nat 26000));
             toolPart (lit "bash") None None None None] in
  let cs := resultCards (buildStreamingCardsV2 exampleProcess ps false None) in
  map titleOf cs = [TITLE_PROCESSING; TITLE_PROCESSING ++ CONTINUED ++ lit "1)"] /\
  ~ carriesPageMarker (hd [] (map titleOf cs)).
Proof.
  intros ps cs.
  assert (H : map titleOf cs =
              [TITLE_PROCESSING; TITLE_PROCESSING ++ CONTINUED ++ lit "1)"])
    by (vm_compute; reflexivity).
  split; [exact H|]. rewrite H. exact no_marker_in_plain_title.
Qed.

(** C1, amended.  In every call the card at position [i], counted from 0,
    has the header title of its kind (sealed or final) followed by the page
    marker [i] when [i] is positive, and nothing when [i] is 0: the first
    card carries no marker, the later ones, sealed or final, carry the
    markers 1, 2, ... and titles over one header title differ when their
    positions differ.  The elements of every card have an estimated size
    within [MAX_CARD_SIZE], unless the card holds one element only. *)
Theorem page_titles_and_sizes (proc : Process) (ps : list OrderedPart)
  (isComplete : bool) (title : option jsstring) :
  let cs := resultCards (buildStreamingCardsV2 proc ps isComplete title) in
  (forall i card,
     nth_error cs i = Some card ->
     let isFinal := Nat.eqb (S i) (List.length cs) in
     let h := orElse title (if isFinal && isComplete
                            then TITLE_DONE else TITLE_PROCESSING) in
     titleOf card =
       match i with
       | O => h
       | S _ => h ++ CONTINUED ++ natToString i ++ lit ")"
       end /\
     (estimatedSize (elementsOf card) <= MAX_CARD_SIZE \/
      exists e, elementsOf card = [e])) /\
  (forall h i j, cardTitle h i = cardTitle h j -> i = j).
Proof.
  intros cs. split; [|exact cardTitle_inj].
  destruct (buildStreamingCardsV2_pages proc ps isComplete title)
    as (pages & final & Hcs & Hpages & Hfinal).
  fold cs in Hcs. intros i card Hnth isFinal h.
  assert (Ht : titleOf card = cardTitle (headerTitle isComplete title isFinal) i
               -> titleOf card =
                  match i with
                  | O => h
                  | S _ => h ++ CONTINUED ++ natToString i ++ lit ")"
                  end).
  { intros ->. unfold cardTitle. destruct i; reflexivity. }
  assert (Hlen : List.length cs = S (List.length pages)).
  { rewrite Hcs, length_app, length_sealedCards. simpl. lia. }
  unfold isFinal in *. rewrite Hlen in *. rewrite Hcs in Hnth.
  destruct (Nat.lt_ge_cases i (List.length pages)) as [Hlt|Hge].
  - rewrite nth_error_app1 in Hnth by now rewrite length_sealedCards.
    destruct (nth_sealedCards _ _ _ _ _ Hnth) as (els & Hin & ->).
    replace (Nat.eqb (S i) (S (List.length pages))) with false in *
      by (symmetry; apply Nat.eqb_neq; lia).
    split; [apply Ht; apply titleOf_createCard|].
    rewrite elementsOf_createCard.
    rewrite Forall_forall in Hpages. now apply Hpages.
  - rewrite nth_error_app2 in Hnth by now rewrite length_sealedCards.
    rewrite length_sealedCards in Hnth.
    destruct (i - List.length pages)%nat as [|n] eqn:E; simpl in Hnth.
    + injection Hnth as <-.
      assert (i = List.length pages) by lia. subst i.
      rewrite Nat.eqb_refl in *.
      split; [apply Ht; apply titleOf_createCard|].
      now rewrite elementsOf_createCard.
    + destruct n; discriminate.
Qed.

Lemma page_titles_and_sizes_witness :
  let ps := [textPart (List.repeat 97%N (Z.to_nat 26000));
             toolPart (lit "bash") None None None None] in
  let cs := resultCards (buildStreamingCardsV2 exampleProcess ps true None) in
  exists card,
    nth_error cs 1 = Some card /\
    titleOf card = TITLE_DONE ++ CONTINUED ++ lit "1)" /\
    (estimatedSize (elementsOf card) <= MAX_CARD_SIZE \/
     exists e, elementsOf card = [e]).
Proof.
  intros ps cs.
  destruct (nth_error cs 1) as [card|] eqn:Hnth;
    [|vm_compute in Hnth; discriminate].
  exists card. split; [reflexivity|].
  destruct (page_titles_and_sizes exampleProcess ps true None) as [H _].
  destruct (H 1%nat card Hnth) as [Ht Hs].
  split; [|exact Hs]. rewrite Ht.
  replace (List.length (resultCards (buildStreamingCardsV2 exampleProcess ps true None)))
    with 2%nat by (vm_compute; reflexivity).
  reflexivity.
Defined.

(** ** Tool panels *)

Lemma elementsOf_collapsiblePanel t els :
  elementsOf (collapsiblePanel t els) = els.
Proof. reflexivity. Qed.

Lemma addElement_first ic t e :
  addElement ic t e newBuilder =
  {| cards := []; currentElements := [e];
     currentSize := 0 + estimateElementSize e;
     cardIndex := 0; reasoningIndex := 0 |}.
Proof.
  unfold addElement. simpl.
  destruct (estimateElementSize e >? MAX_CARD_SIZE); reflexivity.
Qed.

(** C2, at an input where it fails.  A running tool call whose input is
    [{command: "ls"}], without output or error, gets a panel whose body is
    the input line alone; the placeholder occurs nowhere in the panel. *)
Lemma running_tool_with_input_has_no_placeholder :
  let tool := toolPart (lit "bash") (Some (lit "running"))
                (Some [(lit "command", VStr (lit "ls"))]) None None in
  exists panel text,
    toolPanel exampleProcess tool = Some panel /\
    elementsOf panel = [markdown (lit "**command**: `ls`")] /\
    stringify panel = Some text /\ includes RUNNING text = false.
Proof.
  intros tool. eexists. eexists.
  split; [reflexivity|]. split; [reflexivity|].
  split; [vm_compute; reflexivity | vm_compute; reflexivity].
Qed.

(** C2, amended.  The panel of a named tool call that has neither an error
    nor an output has one markdown element: the input lines when the input
    has properties and they render to at least one line, and the
    placeholder otherwise.  Rendered on its own, the call gives one card
    with that panel. *)
Theorem tool_without_result_body (proc : Process) (tool : OrderedPart) :
  type tool = tool_call ->
  truthy (name tool) = true ->
  truthy (error tool) = false ->
  truthy (output tool) = false ->
  exists panel,
    toolPanel proc tool = Some panel /\
    elementsOf panel =
      match input tool with
      | Some (kv :: more) =>
          match formatToolInput proc (kv :: more) with
          | [] => [markdown RUNNING]
          | inputLines => [markdown inputLines]
          end
      | _ => [markdown RUNNING]
      end /\
    forall isComplete title,
      resultCards (buildStreamingCardsV2 proc [tool] isComplete title) =
      [createCard isComplete title 0 [panel] true].
Proof.
  intros Hty Hname Herr Hout.
  unfold toolPanel. rewrite Hname.
  eexists. split; [reflexivity|]. split.
  - rewrite elementsOf_collapsiblePanel.
    unfold toolElements. rewrite Herr, Hout, app_nil_r.
    destruct (input tool) as [[|kv more]|]; try reflexivity.
    destruct (formatToolInput proc (kv :: more)); reflexivity.
  - intros isComplete title.
    unfold buildStreamingCardsV2, assemble, groupConsecutiveParts. simpl.
    unfold renderGroup. simpl. rewrite Hty. simpl.
    unfold toolPanel. rewrite Hname, addElement_first. reflexivity.
Qed.

Lemma tool_without_result_body_witness :
  let tool := toolPart (lit "bash") (Some (lit "running"))
                (Some [(lit "command", VStr (lit "ls"))]) None None in
  exists panel,
    toolPanel exampleProcess tool = Some panel /\
    elementsOf panel = [markdown (lit "**command**: `ls`")].
Proof.
  intros tool.
  destruct (tool_without_result_body exampleProcess tool
              eq_refl eq_refl eq_refl eq_refl) as (panel & Hp & He & _).
  exists panel. split; [exact Hp|]. rewrite He. reflexivity.
Defined.

(** ** Code blocks *)

(** Text without three backticks in a row goes through unchanged. *)
Lemma escape_without_fence s :
  hasTripleTick s = false -> escapeCodeBlockContent s = s.
Proof.
  induction s as [|a s IH]; intros H; [reflexivity|].
  destruct s as [|b [|c s']]; [reflexivity | reflexivity |].
  change (hasTripleTick (a :: b :: c :: s'))
    with ((isTick a && isTick b && isTick c)
          || hasTripleTick (b :: c :: s')) in H.
  apply orb_false_elim in H as [H1 H2].
  change (escapeCodeBlockContent (a :: b :: c :: s'))
    with (if isTick a && isTick b && isTick c
          then [96; 32; 96; 32; 96]%N ++ escapeCodeBlockContent s'
          else a :: escapeCodeBlockContent (b :: c :: s')).
  rewrite H1. f_equal. now apply IH.
Qed.

(** C9, at an input where it fails.  Five backticks are rewritten to
    "` ` ```": the first three are replaced, and the last backtick of the
    replacement joins the two that are left.  The escaped text of an
    output, of an error and of a reasoning run then holds three backticks
    in a row inside its code block. *)
Lemma five_backticks_leave_a_fence :
  let ticks := lit "`````" in
  let body := FENCE_OPEN ++ lit "` ` ```" ++ FENCE_CLOSE in
  escapeCodeBlockContent ticks = lit "` ` ```" /\
  hasTripleTick (escapeCodeBlockContent ticks) = true /\
  map elementsOf
    (flat_map elementsOf
       (resultCards
          (buildStreamingCardsV2 exampleProcess
             [toolPart (lit "bash") (Some (lit "completed")) None
                (Some ticks) None] true None)))
    = [[markdown body]] /\
  option_map elementsOf
    (toolPanel exampleProcess (toolPart (lit "bash") None None (Some ticks) None))
    = Some [markdown body] /\
  option_map elementsOf
    (toolPanel exampleProcess (toolPart (lit "bash") None None None (Some ticks)))
    = Some [markdown (ERROR_HEAD ++ lit "` ` ```" ++ FENCE_CLOSE)] /\
  elementsOf (reasoningPanel false 1 [ticks]) = [markdown body].
Proof.
  vm_compute. repeat split; reflexivity.
Qed.

(** ** The working directory *)

(** The one thing a call reads from its process: a relative path in a tool
    input is shown resolved against the working directory. *)
Lemma render_reads_cwd :
  let elsewhere := {| cwd := lit "/tmp" |} in
  let tool := toolPart (lit "read") None
                (Some [(lit "filePath", VStr (lit "src/index.ts"))]) None None in
  option_map elementsOf (toolPanel exampleProcess tool) =
    Some [markdown (lit "**filePath**: `/srv/bot/src/index.ts`")] /\
  option_map elementsOf (toolPanel elsewhere tool) =
    Some [markdown (lit "**filePath**: `/tmp/src/index.ts`")].
Proof.
  vm_compute. split; reflexivity.
Qed.

(* ================================================================== *)
(** ** Further properties of the assembler *)

(** *** Grouping *)

Lemma PartType_eqb_eq a b : PartType_eqb a b = true <-> a = b.
Proof. destruct a, b; simpl; split; intros H; congruence. Qed.

Lemma pushPart_snoc G g p :
  pushPart (G ++ [g]) p =
  if PartType_eqb (groupType g) (type p)
  then G ++ [{| groupType := groupType g; parts := parts g ++ [p] |}]
  else (G ++ [g]) ++ [{| groupType := type p; parts := [p] |}].
Proof.
  unfold pushPart. rewrite rev_app_distr. simpl.
  now rewrite rev_involutive.
Qed.

Lemma snoc_cases {A} (l : list A) : l = [] \/ exists l' x, l = l' ++ [x].
Proof.
  destruct l as [|a l] using rev_ind; [now left|].
  right. eauto.
Qed.

Lemma alternating_snoc_same G g g' :
  alternating (G ++ [g]) -> groupType g' = groupType g ->
  alternating (G ++ [g']).
Proof.
  intros H E. induction G as [|a G IH]; [exact I|].
  destruct G as [|b G].
  - destruct H as [H _]. split; [congruence|exact I].
  - destruct H as [H1 H2]. split; [exact H1|]. apply IH. exact H2.
Qed.

Lemma alternating_snoc_new G g n :
  alternating (G ++ [g]) -> groupType g <> groupType n ->
  alternating ((G ++ [g]) ++ [n]).
Proof.
  intros H E. induction G as [|a G IH].
  - split; [exact E|exact I].
  - destruct G as [|b G].
    + destruct H as [H _]. split; [exact H|]. split; [exact E|exact I].
    + destruct H as [H1 H2]. split; [exact H1|]. apply IH. exact H2.
Qed.

Lemma group_step G p :
  Forall groupOK G -> alternating G ->
  List.concat (map parts (pushPart G p)) = List.concat (map parts G) ++ [p] /\
  Forall groupOK (pushPart G p) /\ alternating (pushPart G p).
Proof.
  intros Hok Halt.
  destruct (snoc_cases G) as [->|(G' & g & ->)].
  - unfold pushPart, groupOK. simpl. repeat split; auto.
    constructor; [|constructor]. simpl. split; [discriminate|].
    intros q [<-|[]]. reflexivity.
  - rewrite pushPart_snoc.
    apply Forall_app in Hok as [Hok' Hg]. inversion Hg as [|? ? [Hne Hty] _]; subst.
    destruct (PartType_eqb (groupType g) (type p)) eqn:E.
    + apply PartType_eqb_eq in E. repeat split.
      * rewrite !map_app, !concat_app. simpl.
        now rewrite !app_nil_r, app_assoc.
      * apply Forall_app. split; auto. constructor; [|constructor].
        split; simpl.
        -- intros H. now apply app_eq_nil in H as [_ H].
        -- intros q Hq. apply in_app_or in Hq as [Hq|[<-|[]]]; auto.
      * now apply alternating_snoc_same with (g := g).
    + assert (Hd : groupType g <> type p).
      { intros H. apply PartType_eqb_eq in H. congruence. }
      repeat split.
      * rewrite !map_app, !concat_app. simpl. now rewrite !app_nil_r.
      * apply Forall_app. split; [apply Forall_app; split; auto|].
        constructor; [|constructor]. split; simpl; [discriminate|].
        intros q [<-|[]]. reflexivity.
      * now apply alternating_snoc_new.
Qed.

Lemma group_fold ps G :
  Forall groupOK G -> alternating G ->
  List.concat (map parts (fold_left pushPart ps G)) = List.concat (map parts G) ++ ps /\
  Forall groupOK (fold_left pushPart ps G) /\
  alternating (fold_left pushPart ps G).
Proof.
  revert G. induction ps as [|p ps IH]; intros G Hok Halt; simpl.
  - rewrite app_nil_r. auto.
  - destruct (group_step G p Hok Halt) as (Hc & Hok' & Halt').
    destruct (IH _ Hok' Halt') as (Hc2 & Hok2 & Halt2).
    repeat split; auto. rewrite Hc2, Hc, <- app_assoc. reflexivity.
Qed.

(** X10. [groupConsecutiveParts] cuts the parts into their maximal runs of
    one type: the groups, put end to end, are the parts in their order;
    every group holds at least one part and only parts of its type; and no
    two neighbouring groups have the same type. *)
Theorem groups_are_maximal_runs (ps : list OrderedPart) :
  let gs := groupConsecutiveParts ps in
  List.concat (map parts gs) = ps /\
  (forall g, In g gs ->
     parts g <> [] /\ forall p, In p (parts g) -> type p = groupType g) /\
  alternating gs.
Proof.
  intros gs.
  destruct (group_fold ps [] (Forall_nil _) I) as (Hc & Hok & Halt).
  repeat split; auto.
  - rewrite Forall_forall in Hok. apply (Hok g H).
  - rewrite Forall_forall in Hok. apply (Hok g H).
Qed.

(** *** The content cap *)

Lemma len_slice0 n (s : jsstring) :
  0 <= n -> len (slice0 n s) = Z.min n (len s).
Proof.
  intros Hn. unfold len, slice0. rewrite length_firstn. lia.
Qed.

Lemma len_app {A} (a b : list A) : len (a ++ b) = len a + len b.
Proof. unfold len. rewrite length_app. lia. Qed.

(** X11. [truncateContent] never returns more than
    [MAX_CARD_CONTENT_LENGTH] code units: content within the cap comes back
    unchanged, longer content is cut to its first 27987 code units followed
    by the truncation suffix, which makes exactly the cap. *)
Theorem truncateContent_within_cap (content : jsstring) :
  len (truncateContent content) <= MAX_CARD_CONTENT_LENGTH /\
  (len content <= MAX_CARD_CONTENT_LENGTH -> truncateContent content = content) /\
  (MAX_CARD_CONTENT_LENGTH < len content ->
   truncateContent content = slice0 27987 content ++ TRUNCATION_SUFFIX /\
   len (truncateContent content) = MAX_CARD_CONTENT_LENGTH).
Proof.
  unfold truncateContent.
  destruct (len content <=? MAX_CARD_CONTENT_LENGTH) eqn:E.
  - apply Z.leb_le in E. split; [exact E|]. split; [reflexivity|]. lia.
  - apply Z.leb_gt in E.
    change (MAX_CARD_CONTENT_LENGTH - len TRUNCATION_SUFFIX) with 27987.
    rewrite len_app, len_slice0 by lia.
    change (len TRUNCATION_SUFFIX) with 13.
    unfold MAX_CARD_CONTENT_LENGTH in *.
    split; [lia|]. split; [lia|]. split; [reflexivity|lia].
Qed.

Lemma truncateContent_within_cap_witness :
  let content := List.repeat 120%N (Z.to_nat 30000) in
  MAX_CARD_CONTENT_LENGTH < len content /\
  len (truncateContent content) = MAX_CARD_CONTENT_LENGTH.
Proof.
  intros content.
  assert (H : MAX_CARD_CONTENT_LENGTH < len content).
  { unfold content, len. rewrite repeat_length. vm_compute. reflexivity. }
  split; [exact H|].
  destruct (truncateContent_within_cap content) as (_ & _ & Hlong).
  now destruct (Hlong H).
Defined.


(** *** The cards of a call *)

Lemma noEmptyPage_addElement ic t e b :
  noEmptyPage ic t b -> noEmptyPage ic t (addElement ic t e b).
Proof.
  intros (pages & Hcards & Hidx & Hne).
  unfold addElement, flushCard.
  destruct (currentSize b + estimateElementSize e >? MAX_CARD_SIZE); simpl;
    [|exists pages; auto].
  destruct (currentElements b) as [|x els] eqn:Hcur.
  - simpl. exists pages. auto.
  - rewrite len_gtb_cons_card. simpl.
    exists (pages ++ [x :: els]). split; [|split].
    + rewrite sealedCards_snoc, Hcards, Hidx. reflexivity.
    + rewrite length_app, Hidx. simpl. lia.
    + apply Forall_app. split; auto. constructor; [discriminate|constructor].
Qed.

Lemma noEmptyPage_renderGroup proc ic t groups b g :
  noEmptyPage ic t b -> noEmptyPage ic t (renderGroup proc ic t groups b g).
Proof.
  intros Hb. unfold renderGroup.
  destruct (groupType g).
  - destruct (len (truthyTexts (parts g)) =? 0); auto.
    apply noEmptyPage_addElement.
    destruct (len (currentElements b) >? 0); auto using noEmptyPage_addElement.
  - assert (Hb1 : noEmptyPage ic t
                    {| cards := cards b; currentElements := currentElements b;
                       currentSize := currentSize b; cardIndex := cardIndex b;
                       reasoningIndex := S (reasoningIndex b) |})
      by exact Hb.
    destruct (len (truthyTexts (parts g)) =? 0); auto.
    now apply noEmptyPage_addElement.
  - revert b Hb. induction (parts g) as [|tool tools IH]; simpl; auto.
    intros b Hb. apply IH.
    destruct (toolPanel proc tool); auto using noEmptyPage_addElement.
Qed.

Lemma noEmptyPage_assemble proc ps ic t : noEmptyPage ic t (assemble proc ps ic t).
Proof.
  unfold assemble.
  generalize (groupConsecutiveParts ps) at 1 as groups.
  intros groups.
  assert (H0 : noEmptyPage ic t newBuilder).
  { exists []. repeat split; auto. }
  revert H0. generalize newBuilder.
  induction (groupConsecutiveParts ps) as [|g gs IH]; simpl; auto.
  intros b Hb. apply IH. now apply noEmptyPage_renderGroup.
Qed.

(** The cards of a call, with what they hold: sealed pages, none of them
    empty, then the final card, not empty either. *)
Lemma cards_shape proc ps ic t :
  exists pages final,
    resultCards (buildStreamingCardsV2 proc ps ic t) =
      sealedCards ic t pages ++ [createCard ic t (List.length pages) final true] /\
    Forall (fun p => p <> []) pages /\ final <> [].
Proof.
  destruct (noEmptyPage_assemble proc ps ic t) as (pages & Hcards & Hidx & Hne).
  unfold buildStreamingCardsV2, finish. simpl.
  rewrite Hcards, Hidx.
  exists pages. eexists. split; [reflexivity|]. split; auto.
  destruct (currentElements (assemble proc ps ic t)) as [|x els]; simpl;
    discriminate.
Qed.

Lemma templateOf_createCard ic t i els final :
  templateOf (createCard ic t i els final) =
  if final && ic then lit "green" else lit "wathet".
Proof. destruct final, ic; reflexivity. Qed.

(** X12. The list of cards of [buildStreamingCardsV2] is never empty and
    [hasMore] is always false.  Every card has at least one element.  Only
    the last card of a complete response has the template green; every
    other card, and every card of a response in progress, has wathet. *)
Theorem cards_have_content_and_template (proc : Process)
  (ps : list OrderedPart) (isComplete : bool) (title : option jsstring) :
  let r := buildStreamingCardsV2 proc ps isComplete title in
  hasMore r = false /\
  resultCards r <> [] /\
  forall i card,
    nth_error (resultCards r) i = Some card ->
    elementsOf card <> [] /\
    templateOf card =
      if Nat.eqb (S i) (List.length (resultCards r)) && isComplete
      then lit "green" else lit "wathet".
Proof.
  intros r. split; [reflexivity|].
  destruct (cards_shape proc ps isComplete title)
    as (pages & final & Hcs & Hpages & Hfinal).
  fold r in Hcs.
  assert (Hlen : List.length (resultCards r) = S (List.length pages)).
  { rewrite Hcs, length_app, length_sealedCards. simpl. lia. }
  split.
  { intros E. rewrite E in Hlen. discriminate. }
  intros i card Hnth. rewrite Hlen. rewrite Hcs in Hnth.
  destruct (Nat.lt_ge_cases i (List.length pages)) as [Hlt|Hge].
  - rewrite nth_error_app1 in Hnth by now rewrite length_sealedCards.
    destruct (nth_sealedCards _ _ _ _ _ Hnth) as (els & Hin & ->).
    replace (Nat.eqb (S i) (S (List.length pages))) with false
      by (symmetry; apply Nat.eqb_neq; lia).
    rewrite elementsOf_createCard, templateOf_createCard.
    rewrite Forall_forall in Hpages. split; [now apply Hpages|reflexivity].
  - rewrite nth_error_app2 in Hnth by now rewrite length_sealedCards.
    rewrite length_sealedCards in Hnth.
    destruct (i - List.length pages)%nat as [|n] eqn:E; simpl in Hnth.
    + injection Hnth as <-.
      assert (i = List.length pages) by lia. subst i.
      rewrite Nat.eqb_refl.
      rewrite elementsOf_createCard, templateOf_createCard.
      split; [exact Hfinal|reflexivity].
    + destruct n; discriminate.
Qed.

(** *** Parts that render to nothing *)

Lemma truthyTexts_blank ps :
  (forall p, In p ps -> truthy (text p) = false) -> truthyTexts ps = [].
Proof.
  induction ps as [|p ps IH]; intros H; [reflexivity|].
  unfold truthyTexts in *. simpl.
  rewrite IH by (intros q Hq; apply H; now right).
  assert (Hp := H p (or_introl eq_refl)).
  destruct (text p) as [[|c s]|]; simpl in *; try reflexivity. discriminate.
Qed.

Lemma untouched_renderGroup proc ic t groups b g :
  groupOK g -> (forall p, In p (parts g) -> blank p = true) ->
  untouched b -> untouched (renderGroup proc ic t groups b g).
Proof.
  intros [_ Hty] Hblank Hb. unfold renderGroup.
  destruct (groupType g) eqn:E.
  - rewrite truthyTexts_blank; [exact Hb|].
    intros p Hp. specialize (Hblank p Hp). unfold blank in Hblank.
    rewrite (Hty p Hp) in Hblank. now apply negb_true_iff in Hblank.
  - rewrite truthyTexts_blank; [exact Hb|].
    intros p Hp. specialize (Hblank p Hp). unfold blank in Hblank.
    rewrite (Hty p Hp) in Hblank. now apply negb_true_iff in Hblank.
  - assert (Hn : forall p, In p (parts g) -> toolPanel proc p = None).
    { intros p Hp. specialize (Hblank p Hp). unfold blank in Hblank.
      rewrite (Hty p Hp) in Hblank. apply negb_true_iff in Hblank.
      unfold toolPanel. now rewrite Hblank. }
    clear Hty Hblank. revert b Hb.
    induction (parts g) as [|tool tools IH]; simpl; auto.
    intros b Hb. rewrite (Hn tool (or_introl eq_refl)).
    apply IH; auto. intros p Hp. apply Hn. now right.
Qed.

Lemma untouched_fold proc ic t groups gs b :
  (forall g, In g gs ->
     groupOK g /\ forall p, In p (parts g) -> blank p = true) ->
  untouched b -> untouched (fold_left (renderGroup proc ic t groups) gs b).
Proof.
  revert b. induction gs as [|g gs IH]; intros b Hall Hb; simpl; auto.
  apply IH.
  - intros g' Hg'. apply Hall. now right.
  - destruct (Hall g (or_introl eq_refl)). now apply untouched_renderGroup.
Qed.

Lemma untouched_assemble proc ps ic t :
  forallb blank ps = true -> untouched (assemble proc ps ic t).
Proof.
  intros Hb. rewrite forallb_forall in Hb.
  destruct (group_fold ps [] (Forall_nil _) I) as (Hc & Hok & _).
  simpl in Hc. fold (groupConsecutiveParts ps) in Hc, Hok.
  unfold assemble. apply untouched_fold; [|repeat split].
  intros g Hg. rewrite Forall_forall in Hok. split; [now apply Hok|].
  intros p Hp. apply Hb. rewrite <- Hc. apply in_concat.
  exists (parts g). split; [now apply in_map|exact Hp].
Qed.

(** X13. When no part has anything to show (no text in the text and
    reasoning parts, no name in the tool calls; no part at all is one such
    case), the result is one card, without page marker, whose only element
    is the placeholder: the no-content notice when the response is complete,
    three dots while it is in progress. *)
Theorem blank_parts_give_placeholder (proc : Process) (ps : list OrderedPart)
  (isComplete : bool) (title : option jsstring) :
  forallb blank ps = true ->
  buildStreamingCardsV2 proc ps isComplete title =
  {| resultCards :=
       [createCard isComplete title 0
          [markdown (if isComplete then NO_CONTENT else lit "...")] true];
     hasMore := false |}.
Proof.
  intros Hb.
  destruct (untouched_assemble proc ps isComplete title Hb) as (Hc & He & Hi).
  unfold buildStreamingCardsV2, finish. rewrite Hc, He, Hi. reflexivity.
Qed.

Lemma blank_parts_give_placeholder_witness :
  let ps := [reasoningPart []; toolPart [] (Some (lit "running")) None None None;
             textPart []] in
  forallb blank ps = true /\
  map titleOf (resultCards (buildStreamingCardsV2 exampleProcess ps true None))
  = [TITLE_DONE].
Proof.
  intros ps.
  assert (H : forallb blank ps = true) by reflexivity.
  split; [exact H|].
  rewrite (blank_parts_give_placeholder exampleProcess ps true None H).
  reflexivity.
Defined.

(** *** The single card of the older entry point *)

(** X14. [buildStreamingCardV2] returns the first card of the list that
    [buildStreamingCardsV2] builds from the reasoning, the tool calls and
    the text, in this order; the list is never empty, so the object after
    [??] is never returned.  The cards after the first are dropped; when
    there are some, the card returned is a sealed page and has the template
    wathet even if the response is complete. *)
Theorem single_card_is_first_page (proc : Process) (sp : StreamingCardParts)
  (isComplete : bool) (title : option jsstring) :
  exists rest,
    resultCards (buildStreamingCardsV2 proc (orderedPartsOf sp) isComplete title)
    = buildStreamingCardV2 proc sp isComplete title :: rest /\
    templateOf (buildStreamingCardV2 proc sp isComplete title) =
      if isComplete && (len rest =? 0) then lit "green" else lit "wathet".
Proof.
  unfold buildStreamingCardV2.
  destruct (cards_shape proc (orderedPartsOf sp) isComplete title)
    as (pages & final & Hcs & _ & _).
  rewrite Hcs. destruct pages as [|p pages].
  - exists []. split; [reflexivity|].
    simpl. rewrite templateOf_createCard. destruct isComplete; reflexivity.
  - unfold sealedCards. simpl. eexists. split; [reflexivity|].
    rewrite templateOf_createCard. simpl.
    replace (len _ =? 0) with false; [now rewrite andb_false_r|].
    symmetry. apply Z.eqb_neq. unfold len.
    rewrite length_app. simpl. lia.
Qed.

(** The dropped cards exist: a tool call and a text of 26000 characters
    make two cards, and the card returned for the complete response is the
    first, in-progress looking one. *)
Lemma single_card_can_drop_a_page :
  let sp := {| textContent := List.repeat 97%N (Z.to_nat 26000);
               reasoningContent := [];
               toolCalls := [{| tcName := lit "bash"; tcState := lit "completed";
                                tcTitle := None; tcInput := None;
                                tcOutput := None; tcError := None |}] |} in
  List.length (resultCards
     (buildStreamingCardsV2 exampleProcess (orderedPartsOf sp) true None)) = 2%nat /\
  templateOf (buildStreamingCardV2 exampleProcess sp true None) = lit "wathet".
Proof. vm_compute. split; reflexivity. Qed.


(** *** Markdown escaping *)

Lemma replaceCode_app c rep a b :
  replaceCode c rep (a ++ b) = replaceCode c rep a ++ replaceCode c rep b.
Proof. unfold replaceCode. apply flat_map_app. Qed.

Lemma escapeMarkdown_fold_app cs a b :
  fold_left (fun s c => replaceCode c [92%N; c] s) cs (a ++ b) =
  fold_left (fun s c => replaceCode c [92%N; c] s) cs a ++
  fold_left (fun s c => replaceCode c [92%N; c] s) cs b.
Proof.
  revert a b. induction cs as [|c cs IH]; intros a b; simpl; auto.
  rewrite replaceCode_app. apply IH.
Qed.

Ltac split_code x n :=
  destruct (N.eqb_spec x n) as [->|?]; [vm_compute; reflexivity|simpl].

Lemma escapeMarkdown_one x : escapeMarkdown [x] = escapeCode x.
Proof.
  unfold escapeCode, isSpecial, escapeMarkdown, markdownSpecials, replaceCode,
    codeEqb.
  simpl.
  split_code x 92%N. split_code x 42%N. split_code x 95%N. split_code x 91%N.
  split_code x 93%N. split_code x 40%N. split_code x 41%N. split_code x 126%N.
  split_code x 96%N. split_code x 62%N. split_code x 35%N. split_code x 43%N.
  split_code x 45%N. split_code x 46%N. split_code x 33%N.
  reflexivity.
Qed.

Lemma escapeMarkdown_flat s : escapeMarkdown s = flat_map escapeCode s.
Proof.
  induction s as [|x s IH]; [reflexivity|].
  change (x :: s) with ([x] ++ s).
  unfold escapeMarkdown. rewrite escapeMarkdown_fold_app.
  fold (escapeMarkdown [x]). fold (escapeMarkdown s).
  rewrite escapeMarkdown_one, IH. reflexivity.
Qed.

Lemma isSpecial_backslash : isSpecial 92 = true.
Proof. reflexivity. Qed.

Lemma escape_flat_inj a b :
  flat_map escapeCode a = flat_map escapeCode b -> a = b.
Proof.
  revert b. induction a as [|x a IH]; intros [|y b] H; simpl in H.
  - reflexivity.
  - unfold escapeCode in H. destruct (isSpecial y); discriminate.
  - unfold escapeCode in H. destruct (isSpecial x); discriminate.
  - unfold escapeCode in H.
    destruct (isSpecial x) eqn:Ex, (isSpecial y) eqn:Ey; simpl in H.
    + injection H as -> H. f_equal. now apply IH.
    + injection H as <- _. rewrite isSpecial_backslash in Ey. discriminate.
    + injection H as -> _. rewrite isSpecial_backslash in Ex. discriminate.
    + injection H as -> H. f_equal. now apply IH.
Qed.

(** X15. The fifteen replacements of [escapeMarkdown], done one after the
    other with the backslash first, come to one pass over the text that
    puts a backslash before each of the fifteen special characters and
    leaves the others: no backslash is escaped twice.  The result is longer
    than the text by the number of special characters in it, and two
    different texts never escape to the same string. *)
Theorem escapeMarkdown_single_pass (text : jsstring) :
  escapeMarkdown text = flat_map escapeCode text /\
  len (escapeMarkdown text) = len text + len (filter isSpecial text) /\
  (forall other, escapeMarkdown other = escapeMarkdown text -> other = text).
Proof.
  split; [apply escapeMarkdown_flat|]. split.
  - rewrite escapeMarkdown_flat. unfold len.
    induction text as [|x s IH]; [reflexivity|].
    simpl flat_map. simpl filter. rewrite length_app.
    unfold escapeCode at 1. destruct (isSpecial x); simpl List.length; lia.
  - intros other H. rewrite !escapeMarkdown_flat in H.
    now apply escape_flat_inj.
Qed.


(** *** Thinking blocks *)

Lemma trimStart_nil_iff s : trimStart s = [] <-> forallb isWhiteSpace s = true.
Proof.
  induction s as [|c s IH]; simpl; [tauto|].
  destruct (isWhiteSpace c); simpl; [exact IH|].
  split; discriminate.
Qed.

Lemma trimStart_head s c r : trimStart s = c :: r -> isWhiteSpace c = false.
Proof.
  induction s as [|x s IH]; simpl; [discriminate|].
  destruct (isWhiteSpace x) eqn:E; auto.
  intros H. injection H as -> _. exact E.
Qed.

Lemma trimTruthy_false_iff s :
  trimTruthy s = false <-> forallb isWhiteSpace s = true.
Proof.
  unfold trimTruthy. induction s as [|c s IH]; simpl; [tauto|].
  destruct (isWhiteSpace c); simpl; [exact IH|]. split; discriminate.
Qed.

(** [s.trim()] is the empty string exactly when [trimTruthy] says so. *)
Lemma trim_nil_iff s : trim s = [] <-> trimTruthy s = false.
Proof.
  rewrite trimTruthy_false_iff, <- trimStart_nil_iff. unfold trim. split.
  - intros H.
    assert (H1 : trimStart (List.rev (trimStart s)) = []).
    { destruct (trimStart (List.rev (trimStart s))); [reflexivity|].
      simpl in H. now apply app_eq_nil in H as [_ H]. }
    apply trimStart_nil_iff in H1. rewrite forallb_forall in H1.
    destruct (trimStart s) as [|c r] eqn:E; [reflexivity|].
    apply trimStart_head in E.
    rewrite (H1 c) in E; [discriminate|].
    apply in_rev. rewrite rev_involutive. now left.
  - intros ->. reflexivity.
Qed.

Lemma splitOn_not_nil sep seg s : splitOn sep seg s <> [].
Proof.
  revert seg. induction s as [|c s IH]; intros seg; simpl; [discriminate|].
  destruct (codeEqb c sep); [discriminate|apply IH].
Qed.

Lemma len_thinkingLine line : len (thinkingLine line) <= 85.
Proof.
  unfold thinkingLine. rewrite len_app.
  change (len (lit "> ")) with 2.
  destruct (len line >? 80) eqn:E.
  - rewrite len_app, len_slice0 by lia. change (len (lit "...")) with 3. lia.
  - rewrite Z.gtb_ltb in E. apply Z.ltb_ge in E. lia.
Qed.

(** X16. [formatThinkingBlock] returns the empty string for a text of
    white space only.  For any other text it returns the lines of
    [thinkingLines], joined by line feeds: at least one and at most six
    lines, each a block quote (it starts with "> "), and each of the first
    five no longer than 85 code units (the mark, 80 code units of the line
    and three dots). *)
Theorem thinking_block_is_short_quote (text : jsstring) :
  (trimTruthy text = false -> formatThinkingBlock text = []) /\
  (trimTruthy text = true ->
   let ls := thinkingLines (trim text) in
   formatThinkingBlock text = join [10%N] ls /\
   (1 <= List.length ls <= 6)%nat /\
   forall i l, nth_error ls i = Some l ->
     startsWith (lit "> ") l = true /\ ((i < 5)%nat -> len l <= 85)).
Proof.
  split.
  - intros H. apply trim_nil_iff in H. unfold formatThinkingBlock.
    now rewrite H.
  - intros H ls.
    assert (Hne : trim text <> []).
    { intros E. apply trim_nil_iff in E. congruence. }
    split; [|split].
    + unfold formatThinkingBlock. destruct (trim text); [contradiction|reflexivity].
    + unfold ls, thinkingLines. rewrite length_app, length_map, length_firstn.
      assert (Hl : split 10 (trim text) <> []) by apply splitOn_not_nil.
      destruct (split 10 (trim text)) as [|x xs]; [contradiction|].
      destruct (len (x :: xs) >? 5); simpl List.length; lia.
    + intros i l Hnth. unfold ls, thinkingLines in Hnth.
      set (lines := split 10 (trim text)) in *.
      set (shown := map thinkingLine (firstn (Z.to_nat 5) lines)) in *.
      destruct (Nat.lt_ge_cases i (List.length shown)) as [Hlt|Hge].
      * rewrite nth_error_app1 in Hnth by assumption.
        apply nth_error_In in Hnth. unfold shown in Hnth.
        apply in_map_iff in Hnth as (x & <- & _).
        split; [reflexivity|]. intros _. apply len_thinkingLine.
      * rewrite nth_error_app2 in Hnth by assumption.
        destruct (len lines >? 5) eqn:E.
        -- destruct (i - List.length shown)%nat as [|n] eqn:En; simpl in Hnth;
             [|destruct n; discriminate].
           injection Hnth as <-. split; [reflexivity|].
           intros Hi. exfalso.
           rewrite Z.gtb_ltb in E. apply Z.ltb_lt in E. unfold len in E.
           unfold shown in Hge. rewrite length_map, length_firstn in Hge. lia.
        -- destruct (i - List.length shown)%nat; discriminate.
Qed.

Lemma thinking_block_is_short_quote_witness :
  let text := List.repeat 120%N 600 in
  trimTruthy text = true /\ len (formatThinkingBlock text) <= 85.
Proof.
  intros text.
  assert (H : trimTruthy text = true) by (vm_compute; reflexivity).
  split; [exact H|].
  destruct (thinking_block_is_short_quote text) as [_ Hq].
  destruct (Hq H) as (Hfmt & _ & Hlines).
  rewrite Hfmt.
  destruct (thinkingLines (trim text)) as [|l ls] eqn:E;
    [vm_compute in E; discriminate|].
  destruct ls; [|vm_compute in E; discriminate].
  apply (Hlines 0%nat l eq_refl). lia.
Defined.

(** *** Tool inputs *)




Lemma isAbsolute_resolve cwd v : isAbsolute (resolve cwd v) = true.
Proof. unfold resolve. destruct (isAbsolute v); reflexivity. Qed.

Lemma isAbsolute_ensure proc v : isAbsolute (ensureAbsolutePath proc v) = true.
Proof.
  unfold ensureAbsolutePath. destruct (isAbsolute v) eqn:E; [exact E|].
  apply isAbsolute_resolve.
Qed.

Lemma isAbsolute_shorten s : isAbsolute s = true -> isAbsolute (shorten s) = true.
Proof.
  unfold shorten. destruct (len s >? 100); auto.
  destruct s as [|c s]; [discriminate|]. intros H. exact H.
Qed.

(** X18. A string input whose key names a path (it contains "path" or
    "file", or is "workdir", whatever the case of the letters) and whose
    value is not blank is always shown as an absolute path: a value that
    is absolute already is shown as it is (cut at 100 code units), any
    other is resolved against the working directory first.  Resolving
    twice changes nothing. *)
Theorem path_inputs_are_shown_absolute (proc : Process) (key s : jsstring) :
  isPathKey key = true -> trimTruthy s = true ->
  toolInputLine proc key (VStr s) =
    [lit "**" ++ key ++ lit "**: `" ++ shorten (ensureAbsolutePath proc s)
     ++ lit "`"] /\
  isAbsolute (shorten (ensureAbsolutePath proc s)) = true /\
  (isAbsolute s = true -> ensureAbsolutePath proc s = s) /\
  ensureAbsolutePath proc (ensureAbsolutePath proc s) = ensureAbsolutePath proc s.
Proof.
  intros Hk Hs. split; [|split; [|split]].
  - simpl. now rewrite Hk, Hs.
  - apply isAbsolute_shorten, isAbsolute_ensure.
  - intros H. unfold ensureAbsolutePath. now rewrite H.
  - unfold ensureAbsolutePath at 1. now rewrite isAbsolute_ensure.
Qed.

Lemma path_inputs_are_shown_absolute_witness :
  toolInputLine exampleProcess (lit "filePath") (VStr (lit "src/../a.ts")) =
    [lit "**filePath**: `/srv/bot/a.ts`"].
Proof.
  destruct (path_inputs_are_shown_absolute exampleProcess (lit "filePath")
              (lit "src/../a.ts") eq_refl eq_refl) as [H _].
  rewrite H. vm_compute. reflexivity.
Defined.

(** *** The plain streaming card *)

(** X20. [buildStreamingCard] gives a card of one markdown element, the
    content cut to [MAX_CARD_CONTENT_LENGTH].  With any title but the empty
    string the header carries the title (the default one when none is
    given) and the template green or wathet; with the empty string as the
    title the default is not taken and [createCard] leaves the header out,
    template included. *)
Theorem streaming_card_header (content : jsstring) (isComplete : bool)
  (title : option jsstring) :
  let card := buildStreamingCard content isComplete title in
  elementsOf card = [markdown (truncateContent content)] /\
  (title = Some [] -> prop (lit "header") card = None) /\
  (title <> Some [] ->
   titleOf card =
     orElse title (if isComplete then TITLE_DONE else TITLE_PROCESSING) /\
   templateOf card = if isComplete then lit "green" else lit "wathet").
Proof.
  intros card. split; [|split].
  - unfold card, buildStreamingCard, createFeishuCard.
    destruct title as [[|c s]|], isComplete; reflexivity.
  - intros ->. reflexivity.
  - intros H. unfold card, buildStreamingCard, createFeishuCard.
    destruct title as [[|c s]|]; [contradiction| |];
      destruct isComplete; split; reflexivity.
Qed.

Lemma streaming_card_header_witness :
  titleOf (buildStreamingCard (lit "Content") false (Some (lit "Custom Title")))
  = lit "Custom Title".
Proof.
  destruct (streaming_card_header (lit "Content") false
              (Some (lit "Custom Title"))) as (_ & _ & H).
  destruct H as [H _]; [discriminate|]. exact H.
Defined.


(** *** Cutting and escaping *)

Lemma escape_cons3 a b c r :
  escapeCodeBlockContent (a :: b :: c :: r) =
  if isTick a && isTick b && isTick c
  then [96; 32; 96; 32; 96]%N ++ escapeCodeBlockContent r
  else a :: escapeCodeBlockContent (b :: c :: r).
Proof. reflexivity. Qed.

Lemma escape_len_fuel n : forall s,
  (List.length s <= n)%nat ->
  len s <= len (escapeCodeBlockContent s) /\
  3 * len (escapeCodeBlockContent s) <= 5 * len s.
Proof.
  induction n as [|n IH]; intros s Hs.
  - destruct s; [unfold len; simpl; lia|simpl in Hs; lia].
  - destruct s as [|a [|b [|c r]]]; try (unfold len; simpl; lia).
    rewrite escape_cons3. simpl in Hs.
    destruct (isTick a && isTick b && isTick c).
    + destruct (IH r ltac:(lia)) as [H1 H2].
      unfold len in *. rewrite length_app. simpl List.length. lia.
    + destruct (IH (b :: c :: r) ltac:(simpl; lia)) as [H1 H2].
      unfold len in *. simpl List.length in *. lia.
Qed.

(** Escaping makes a text longer by two thirds at most. *)
Lemma escape_len s :
  len s <= len (escapeCodeBlockContent s) /\
  3 * len (escapeCodeBlockContent s) <= 5 * len s.
Proof. apply (escape_len_fuel (List.length s)). lia. Qed.

Lemma plain_no_fence m :
  forallb (fun c => negb (isTick c)) m = true -> hasTripleTick m = false.
Proof.
  induction m as [|a m IH]; intros H; [reflexivity|].
  simpl in H. apply andb_true_iff in H as [Ha Hm].
  destruct m as [|b [|c r]]; try reflexivity.
  change (hasTripleTick (a :: b :: c :: r))
    with ((isTick a && isTick b && isTick c) || hasTripleTick (b :: c :: r)).
  rewrite (IH Hm). apply negb_true_iff in Ha. now rewrite Ha.
Qed.

Lemma escape_app_fuel n m :
  forallb (fun c => negb (isTick c)) m = true ->
  forall s, (List.length s <= n)%nat ->
  escapeCodeBlockContent (s ++ m) = escapeCodeBlockContent s ++ m.
Proof.
  intros Hm.
  assert (Hplain : escapeCodeBlockContent m = m)
    by (apply escape_without_fence, plain_no_fence, Hm).
  induction n as [|n IH]; intros s Hs.
  - destruct s; [exact Hplain|simpl in Hs; lia].
  - destruct s as [|a [|b [|c r]]].
    + exact Hplain.
    + destruct m as [|x [|y m']]; [reflexivity| |].
      * simpl in Hm. reflexivity.
      * change ([a] ++ x :: y :: m') with (a :: x :: y :: m').
        rewrite escape_cons3.
        simpl in Hm. apply andb_true_iff in Hm as [Hx _].
        apply negb_true_iff in Hx. rewrite Hx, andb_false_r. cbn [andb].
        rewrite Hplain. reflexivity.
    + destruct m as [|x m']; [reflexivity|].
      change ([a; b] ++ x :: m') with (a :: b :: x :: m').
      rewrite escape_cons3.
      assert (Hx : isTick x = false).
      { simpl in Hm. apply andb_true_iff in Hm as [Hx _].
        now apply negb_true_iff in Hx. }
      rewrite Hx, andb_false_r.
      change (b :: x :: m') with ([b] ++ x :: m').
      rewrite (IH [b]) by (simpl in Hs |- *; lia). reflexivity.
    + change ((a :: b :: c :: r) ++ m) with (a :: b :: c :: (r ++ m)).
      rewrite !escape_cons3. simpl in Hs.
      destruct (isTick a && isTick b && isTick c).
      * rewrite (IH r) by lia. reflexivity.
      * change (b :: c :: r ++ m) with ((b :: c :: r) ++ m).
        rewrite (IH (b :: c :: r)) by (simpl; lia). reflexivity.
Qed.

(** A marker without backticks comes through the escaping as it is. *)
Lemma escape_app_plain s m :
  forallb (fun c => negb (isTick c)) m = true ->
  escapeCodeBlockContent (s ++ m) = escapeCodeBlockContent s ++ m.
Proof. intros Hm. apply (escape_app_fuel (List.length s) m Hm). lia. Qed.

(** A text cut at [n] code units, marked and escaped. *)
Lemma cut_then_escape n marker s :
  0 <= n -> forallb (fun c => negb (isTick c)) marker = true ->
  let shown := if len s >? n then slice0 n s ++ marker else s in
  (len s <= n -> escapeCodeBlockContent shown = escapeCodeBlockContent s) /\
  (n < len s ->
   escapeCodeBlockContent shown =
     escapeCodeBlockContent (slice0 n s) ++ marker) /\
  3 * len (escapeCodeBlockContent shown) <= 5 * n + 3 * len marker.
Proof.
  intros Hn Hm shown. unfold shown.
  destruct (len s >? n) eqn:E; rewrite Z.gtb_ltb in E.
  - apply Z.ltb_lt in E. rewrite escape_app_plain by exact Hm.
    split; [lia|]. split; [reflexivity|].
    rewrite len_app.
    pose proof (proj2 (escape_len (slice0 n s))) as H.
    rewrite len_slice0 in H by lia. lia.
  - apply Z.ltb_ge in E. split; [reflexivity|]. split; [lia|].
    pose proof (proj2 (escape_len s)) as H.
    assert (0 <= len marker) by (unfold len; lia). lia.
Qed.

(** X19. The panel of a run of reasoning holds one fenced block.  Reasoning
    of at most [MAX_REASONING_LENGTH] code units is shown whole, with its
    fences escaped; longer reasoning is cut to its first 3000 code units,
    escaped, and followed by the truncation marker, which the escaping
    leaves as it is.  The cut is made before the escaping, so the block can
    be longer than 3000 code units, but never longer than 5014. *)
Theorem reasoning_is_cut_then_escaped (several : bool) (index : nat)
  (texts : list jsstring) :
  let whole := join [10; 10]%N texts in
  exists body,
    elementsOf (reasoningPanel several index texts) =
      [markdown (FENCE_OPEN ++ body ++ FENCE_CLOSE)] /\
    (len whole <= MAX_REASONING_LENGTH ->
     body = escapeCodeBlockContent whole) /\
    (MAX_REASONING_LENGTH < len whole ->
     body = escapeCodeBlockContent (slice0 MAX_REASONING_LENGTH whole)
            ++ REASONING_CUT) /\
    len body <= 5014.
Proof.
  intros whole.
  destruct (cut_then_escape MAX_REASONING_LENGTH REASONING_CUT whole)
    as (Hshort & Hlong & Hlen); [unfold MAX_REASONING_LENGTH; lia|reflexivity|].
  eexists. split; [reflexivity|].
  fold whole. split; [exact Hshort|]. split; [exact Hlong|].
  change (len REASONING_CUT) with 14 in Hlen.
  change (5 * MAX_REASONING_LENGTH) with 15000 in Hlen. lia.
Qed.

Lemma reasoning_is_cut_then_escaped_witness :
  let texts := [List.repeat 96%N 3600] in
  MAX_REASONING_LENGTH < len (join [10; 10]%N texts) /\
  exists body,
    elementsOf (reasoningPanel false 1 texts) =
      [markdown (FENCE_OPEN ++ body ++ FENCE_CLOSE)] /\
    len body = 5014.
Proof.
  intros texts.
  assert (H : MAX_REASONING_LENGTH < len (join [10; 10]%N texts))
    by (vm_compute; reflexivity).
  split; [exact H|].
  destruct (reasoning_is_cut_then_escaped false 1 texts)
    as (body & Hel & _ & Hlong & _).
  exists body. split; [exact Hel|].
  rewrite (Hlong H). vm_compute. reflexivity.
Defined.

(** X21. The result of a tool call that ended without error and with an
    output is the last element of its panel, one fenced block: an output of
    at most [MAX_TOOL_OUTPUT_LENGTH] code units whole, a longer one cut to
    its first 5000 code units and followed by the truncation marker, both
    with their fences escaped after the cut; the block is never longer than
    8345 code units. *)
Theorem tool_output_is_cut_then_escaped (proc : Process) (tool : OrderedPart)
  (out : jsstring) :
  truthy (error tool) = false -> output tool = Some out -> out <> [] ->
  exists before body,
    toolElements proc tool =
      before ++ [markdown (FENCE_OPEN ++ body ++ FENCE_CLOSE)] /\
    (len out <= MAX_TOOL_OUTPUT_LENGTH -> body = escapeCodeBlockContent out) /\
    (MAX_TOOL_OUTPUT_LENGTH < len out ->
     body = escapeCodeBlockContent (slice0 MAX_TOOL_OUTPUT_LENGTH out)
            ++ OUTPUT_CUT) /\
    len body <= 8345.
Proof.
  intros He Ho Hne.
  destruct (cut_then_escape MAX_TOOL_OUTPUT_LENGTH OUTPUT_CUT out)
    as (Hshort & Hlong & Hlen); [unfold MAX_TOOL_OUTPUT_LENGTH; lia|reflexivity|].
  unfold toolElements. rewrite He, Ho.
  destruct out as [|c out']; [contradiction|].
  cbn [truthy orElse].
  eexists. eexists. split; [reflexivity|].
  split; [exact Hshort|]. split; [exact Hlong|].
  change (len OUTPUT_CUT) with 12 in Hlen.
  change (5 * MAX_TOOL_OUTPUT_LENGTH) with 25000 in Hlen. lia.
Qed.

Lemma tool_output_is_cut_then_escaped_witness :
  let out := List.repeat 96%N (Z.to_nat 6000) in
  let tool := toolPart (lit "bash") (Some (lit "completed")) None (Some out) None in
  exists before body,
    toolElements exampleProcess tool =
      before ++ [markdown (FENCE_OPEN ++ body ++ FENCE_CLOSE)] /\
    len body <= 8345.
Proof.
  intros out tool.
  destruct (tool_output_is_cut_then_escaped exampleProcess tool out
              eq_refl eq_refl ltac:(discriminate))
    as (before & body & H & _ & _ & Hlen).
  exists before, body. split; [exact H|exact Hlen].
Defined.


(** *** The groups of the older entry point *)

Lemma fold_same G g ps :
  (forall p, In p ps -> type p = groupType g) ->
  fold_left pushPart ps (G ++ [g]) =
  G ++ [{| groupType := groupType g; parts := parts g ++ ps |}].
Proof.
  revert g. induction ps as [|p ps IH]; intros g H.
  - simpl. rewrite app_nil_r. now destruct g.
  - simpl fold_left. rewrite pushPart_snoc.
    rewrite (proj2 (PartType_eqb_eq _ _)) by (symmetry; apply H; now left).
    rewrite IH by (intros q Hq; simpl; apply H; now right).
    simpl. now rewrite <- app_assoc.
Qed.

Lemma push_run G p ps :
  (G = [] \/ exists G' g, G = G' ++ [g] /\ groupType g <> type p) ->
  (forall q, In q ps -> type q = type p) ->
  fold_left pushPart (p :: ps) G =
  G ++ [{| groupType := type p; parts := p :: ps |}].
Proof.
  intros HG Hps. simpl fold_left.
  assert (E : pushPart G p = G ++ [{| groupType := type p; parts := [p] |}]).
  { destruct HG as [->|(G' & g & -> & Hd)]; [reflexivity|].
    rewrite pushPart_snoc.
    destruct (PartType_eqb (groupType g) (type p)) eqn:E; [|reflexivity].
    apply PartType_eqb_eq in E. contradiction. }
  rewrite E, fold_same by exact Hps. reflexivity.
Qed.

Lemma push_typed_run G ty p ps :
  (G = [] \/ exists G' g, G = G' ++ [g] /\ groupType g <> ty) ->
  (forall q, In q (p :: ps) -> type q = ty) ->
  fold_left pushPart (p :: ps) G = G ++ groupOf ty (p :: ps).
Proof.
  intros HG H.
  assert (Hp : type p = ty) by (apply H; now left).
  rewrite push_run.
  - unfold groupOf. now rewrite Hp.
  - now rewrite Hp.
  - intros q Hq. rewrite Hp. apply H. now right.
Qed.

Lemma groups_of_three (R T X : list OrderedPart) :
  (forall p, In p R -> type p = reasoning) ->
  (forall p, In p T -> type p = tool_call) ->
  (forall p, In p X -> type p = text_) ->
  groupConsecutiveParts (R ++ T ++ X) =
  groupOf reasoning R ++ groupOf tool_call T ++ groupOf text_ X.
Proof.
  intros HR HT HX. unfold groupConsecutiveParts. rewrite !fold_left_app.
  assert (E0 : fold_left pushPart R [] = groupOf reasoning R).
  { destruct R as [|r R]; [reflexivity|].
    rewrite (push_typed_run [] reasoning); auto. }
  rewrite E0.
  assert (E1 : fold_left pushPart T (groupOf reasoning R) =
               groupOf reasoning R ++ groupOf tool_call T).
  { destruct T as [|t T]; [simpl; now rewrite app_nil_r|].
    apply push_typed_run; auto.
    destruct R as [|r R]; [now left|right].
    exists []. eexists. split; [reflexivity|discriminate]. }
  rewrite E1.
  destruct X as [|x X]; [simpl; now rewrite !app_nil_r|].
  rewrite (push_typed_run _ text_); auto; [now rewrite <- app_assoc|].
  destruct R as [|r R], T as [|t T]; simpl; [now left| | |]; right.
  - exists []. eexists. split; [reflexivity|discriminate].
  - exists []. eexists. split; [reflexivity|discriminate].
  - eexists [_]. eexists. split; [reflexivity|discriminate].
Qed.

(** X22. The parts [buildStreamingCardV2] hands on make at most three
    groups, in a fixed order whatever the order of the message was: the
    reasoning if there is some, then all the tool calls together, then the
    text if there is some.  There is never more than one group of
    reasoning, so the reasoning panel of this entry point is never
    numbered. *)
Theorem single_card_groups (sp : StreamingCardParts) :
  let gs := groupConsecutiveParts (orderedPartsOf sp) in
  map groupType gs =
    (if len (reasoningContent sp) >? 0 then [reasoning] else []) ++
    (if len (toolCalls sp) >? 0 then [tool_call] else []) ++
    (if len (textContent sp) >? 0 then [text_] else []) /\
  (len (filter (fun g => PartType_eqb (groupType g) reasoning) gs) >? 1) = false.
Proof.
  intros gs. unfold gs, orderedPartsOf.
  rewrite groups_of_three.
  - destruct (reasoningContent sp), (toolCalls sp), (textContent sp);
      split; reflexivity.
  - destruct (reasoningContent sp); intros p [].
    + subst p. reflexivity.
    + contradiction.
  - intros p Hp. apply in_map_iff in Hp as (x & <- & _). reflexivity.
  - destruct (textContent sp); intros p [].
    + subst p. reflexivity.
    + contradiction.
Qed.


(** *** Messages without content *)

Lemma flat_map_nil {A B} (f : A -> list B) l :
  (forall x, In x l -> f x = []) -> flat_map f l = [].
Proof.
  induction l as [|x l IH]; intros H; [reflexivity|].
  simpl. rewrite (H x (or_introl eq_refl)), IH; auto.
  intros y Hy. apply H. now right.
Qed.

(** X26. A message in which no part has content (no text or reasoning
    part with a text, no tool call with a name; parts of any other type
    never count) is formatted to the empty string by [formatMessageParts],
    and [categorizeMessageParts] followed by [buildStreamingCardV2] makes
    the placeholder card of it. *)
Theorem message_without_content (proc : Process) (ps : list MessagePart)
  (isComplete : bool) (title : option jsstring) :
  (forall part, In part ps -> hasContent part = false) ->
  formatMessageParts ps = [] /\
  buildStreamingCardV2 proc (categorizeMessageParts ps) isComplete title =
  createCard isComplete title 0
    [markdown (if isComplete then NO_CONTENT else lit "...")] true.
Proof.
  intros H.
  assert (Hc : forall part, In part ps ->
     (streqb (mtype part) (lit "text") && truthy (mtext part) = false) /\
     (streqb (mtype part) (lit "reasoning") && truthy (mtext part) = false) /\
     (streqb (mtype part) (lit "tool-call") && truthy (mname part) = false)).
  { intros part Hp. specialize (H part Hp). unfold hasContent in H.
    apply orb_false_iff in H as [H H3]. apply orb_false_iff in H as [H1 H2].
    auto. }
  split.
  - unfold formatMessageParts. rewrite flat_map_nil; [reflexivity|].
    intros part Hp. destruct (Hc part Hp) as (H1 & H2 & H3).
    unfold formatMessagePart.
    destruct (streqb (mtype part) (lit "text")); simpl in H1;
      [now rewrite H1|].
    destruct (streqb (mtype part) (lit "reasoning")); simpl in H2;
      [now rewrite H2|].
    destruct (streqb (mtype part) (lit "tool-call")); simpl in H3;
      [now rewrite H3|reflexivity].
  - unfold categorizeMessageParts.
    rewrite !flat_map_nil; [reflexivity| | |];
      intros part Hp; destruct (Hc part Hp) as (H1 & H2 & H3);
      [now rewrite H3|now rewrite H2|now rewrite H1].
Qed.

Lemma message_without_content_witness :
  let ps := [{| mtype := lit "step-start"; mtext := Some (lit "x");
                mname := None; mstate := None; mtitle := None;
                minput := None; moutput := None; merror := None |};
             {| mtype := lit "text"; mtext := Some [];
                mname := None; mstate := None; mtitle := None;
                minput := None; moutput := None; merror := None |}] in
  formatMessageParts ps = [] /\
  titleOf (buildStreamingCardV2 exampleProcess (categorizeMessageParts ps)
             false None) = TITLE_PROCESSING.
Proof.
  intros ps.
  destruct (message_without_content exampleProcess ps false None) as [H1 H2].
  - intros part [<-|[<-|[]]]; reflexivity.
  - split; [exact H1|]. rewrite H2. reflexivity.
Defined.

End CardFacts.

(* ================================================================== *)
(** * Properties of the question card *)
(* ================================================================== *)

Module QuestionCardFacts.

Import Js QuestionCard.
Open Scope Z_scope.

(** What a control of the question [q] at [questionIndex] looks like. *)
Lemma controls_of_question requestId questionIndex q control :
  In control (flat_map actionsOf (questionElements requestId questionIndex q)) ->
  (useDropdown q = true /\ control = selectStatic requestId questionIndex q) \/
  (useDropdown q = false /\
   exists opt, In opt (options q) /\ control = button requestId questionIndex opt).
Proof.
  unfold questionElements. rewrite !flat_map_app. intros H.
  apply in_app_or in H as [H|H].
  { destruct (0 <? questionIndex)%nat; simpl in H; contradiction. }
  apply in_app_or in H as [H|H]; [simpl in H; contradiction|].
  destruct (len (options q) >? 0); [|simpl in H; contradiction].
  rewrite flat_map_app in H. apply in_app_or in H as [H|H].
  { destruct (nonEmpty _); simpl in H; contradiction. }
  simpl in H. rewrite app_nil_r in H.
  destruct (useDropdown q).
  - left. destruct H as [<-|[]]. split; reflexivity.
  - right. split; [reflexivity|].
    apply in_map_iff in H as (opt & <- & Hin). now exists opt.
Qed.

Lemma controls_of_questions requestId qs : forall start control,
  In control (flat_map actionsOf (forEachQuestion requestId start qs)) ->
  exists offset q,
    nth_error qs offset = Some q /\
    In control
      (flat_map actionsOf (questionElements requestId (start + offset) q)).
Proof.
  induction qs as [|q qs IH]; intros start control H; [contradiction|].
  simpl in H. rewrite flat_map_app in H. apply in_app_or in H as [H|H].
  - exists 0%nat, q. rewrite Nat.add_0_r. split; [reflexivity|exact H].
  - destruct (IH _ _ H) as (offset & q' & Hnth & Hin).
    exists (S offset), q'. split; [exact Hnth|].
    now rewrite Nat.add_succ_r.
Qed.

Lemma useDropdown_true q :
  useDropdown q = true -> multiple q = Some true \/ 3 < len (options q).
Proof.
  unfold useDropdown. destruct (multiple q) as [[|]|]; auto;
    intros H; right; rewrite Z.gtb_ltb in H; now apply Z.ltb_lt.
Qed.

Lemma useDropdown_false q :
  useDropdown q = false -> multiple q <> Some true /\ len (options q) <= 3.
Proof.
  unfold useDropdown. destruct (multiple q) as [[|]|]; try discriminate;
    intros H; (split; [discriminate|]);
    rewrite Z.gtb_ltb in H; now apply Z.ltb_ge.
Qed.

(** X23. Whatever the user can act on in a question card leads back to a
    question of the request: the value of every button and dropdown names
    the action question_answer, the id of the request and the index of one
    of its questions.  A button belongs to a single-choice question of at
    most three options and carries the label of one of them; a dropdown
    belongs to a question that is multiple-choice or has more than three
    options, and lists the labels of all of them. *)
Theorem answer_controls_route_back (request : QuestionRequest)
  (control : jsval) :
  In control (controlsOf (createQuestionCard request)) ->
  exists questionIndex q value,
    nth_error (questions request) questionIndex = Some q /\
    Card.prop (lit "value") control = Some value /\
    Card.prop (lit "action") value = Some (VStr (lit "question_answer")) /\
    Card.prop (lit "requestId") value = Some (VStr (id request)) /\
    Card.prop (lit "questionIndex") value =
      Some (VNum (Z.of_nat questionIndex)) /\
    ((tagOf control = lit "button" /\
      multiple q <> Some true /\ len (options q) <= 3 /\
      exists opt, In opt (options q) /\
        Card.prop (lit "answerLabel") value = Some (VStr (label opt)))
     \/
     (tagOf control = lit "select_static" /\
      (multiple q = Some true \/ 3 < len (options q)) /\
      Card.prop (lit "options") control =
        Some (VArr (map optionChoice (options q))))).
Proof.
  unfold controlsOf, createQuestionCard.
  change (Card.elementsOf (VObj ?l))
    with (forEachQuestion (id request) 0 (questions request) ++
          [createDivider; createMarkdown HINT]).
  rewrite flat_map_app. intros H.
  apply in_app_or in H as [H|H]; [|simpl in H; contradiction].
  apply controls_of_questions in H as (i & q & Hnth & H).
  simpl in H.
  apply controls_of_question in H as [[Hd ->]|[Hd (opt & Hin & ->)]].
  - exists i, q. eexists. split; [exact Hnth|].
    split; [reflexivity|]. repeat (split; [reflexivity|]).
    right. split; [reflexivity|]. split; [now apply useDropdown_true|reflexivity].
  - exists i, q. eexists. split; [exact Hnth|].
    split; [reflexivity|]. repeat (split; [reflexivity|]).
    left. split; [reflexivity|].
    destruct (useDropdown_false q Hd) as [Hm Hl].
    split; [exact Hm|]. split; [exact Hl|]. now exists opt.
Qed.

Lemma answer_controls_route_back_witness :
  let request :=
    {| id := lit "req-123"; sessionID := lit "ses-1";
       questions :=
         [{| question := lit "Which one?"; header := lit "Choice";
             options := [{| label := lit "A"; description := [] |};
                         {| label := lit "B"; description := lit "second" |}];
             multiple := None; custom := None |}] |} in
  let control := button (lit "req-123") 0 {| label := lit "B"; description := lit "second" |} in
  In control (controlsOf (createQuestionCard request)) /\
  exists questionIndex q value,
    nth_error (questions request) questionIndex = Some q /\
    Card.prop (lit "value") control = Some value /\
    Card.prop (lit "requestId") value = Some (VStr (lit "req-123")).
Proof.
  intros request control.
  assert (H : In control (controlsOf (createQuestionCard request)))
    by (vm_compute; right; left; reflexivity).
  split; [exact H|].
  destruct (answer_controls_route_back request control H)
    as (i & q & v & Hnth & Hv & _ & Hid & _).
  exists i, q, v. split; [exact Hnth|]. split; [exact Hv|exact Hid].
Defined.

Lemma actions_of_question requestId questionIndex q :
  List.length (filter (fun e => streqb (tagOf e) (lit "action"))
                 (questionElements requestId questionIndex q)) =
  if len (options q) >? 0 then 1%nat else 0%nat.
Proof.
  unfold questionElements. rewrite !filter_app, !length_app.
  destruct (0 <? questionIndex)%nat; simpl;
    destruct (len (options q) >? 0); simpl; try reflexivity;
    rewrite filter_app, length_app;
    destruct (nonEmpty _); reflexivity.
Qed.

(** X24. A question card has the template orange and a title that is never
    empty: the header of the first question, or the default title when
    that is empty or there is no question.  It has one row of controls for
    each question that has options, none for the others, and always ends
    with a divider and the hint that a message can be sent instead. *)
Theorem question_card_layout (request : QuestionRequest) :
  let card := createQuestionCard request in
  Card.templateOf card = lit "orange" /\
  Card.titleOf card <> [] /\
  List.length (filter (fun e => streqb (tagOf e) (lit "action"))
                 (Card.elementsOf card)) =
  List.length (filter (fun q => len (options q) >? 0) (questions request)) /\
  exists before,
    Card.elementsOf card = before ++ [createDivider; createMarkdown HINT].
Proof.
  intros card. split; [reflexivity|]. split; [|split].
  - unfold card, createQuestionCard.
    destruct (questions request) as [|q qs]; [discriminate|].
    destruct (header q) as [|c s] eqn:E; discriminate.
  - unfold card, createQuestionCard.
    change (Card.elementsOf (VObj ?l))
      with (forEachQuestion (id request) 0 (questions request) ++
            [createDivider; createMarkdown HINT]).
    rewrite filter_app, length_app. simpl (List.length (filter _ [_; _])).
    rewrite Nat.add_0_r. generalize 0%nat.
    induction (questions request) as [|q qs IH]; intros i; [reflexivity|].
    simpl forEachQuestion. rewrite filter_app, length_app, IH.
    rewrite actions_of_question. simpl filter.
    destruct (len (options q) >? 0); reflexivity.
  - eexists. reflexivity.
Qed.

End QuestionCardFacts.

(* ================================================================== *)
(** * Properties of the permission manager *)
(* ================================================================== *)

Module AuthManagerFacts.

Import AuthManager.

(** X25. Calls of [addToWhitelist] and [removeFromWhitelist] made in the
    name of users who are not administrators all return false and never
    reach the database: it is left as it was, and so is the answer of
    [isAuthorized] for every user. *)
Theorem only_admins_change_whitelist (BotDatabase : Type)
  (isUserWhitelisted : string -> BotDatabase -> bool)
  (dbAdd : string -> string -> BotDatabase -> bool * BotDatabase)
  (dbRemove : string -> BotDatabase -> bool * BotDatabase)
  (config : AuthConfig) (cs : list (Call)) (db : BotDatabase) :
  (forall c, In c cs -> isAdmin config (caller c) = false) ->
  calls BotDatabase dbAdd dbRemove config cs db = (map (fun _ => false) cs, db) /\
  forall userId,
    isAuthorized BotDatabase isUserWhitelisted config
      (snd (calls BotDatabase dbAdd dbRemove config cs db)) userId =
    isAuthorized BotDatabase isUserWhitelisted config db userId.
Proof.
  intros H.
  assert (E : calls BotDatabase dbAdd dbRemove config cs db =
              (map (fun _ => false) cs, db)).
  { induction cs as [|c cs IH]; [reflexivity|].
    simpl calls.
    assert (Hc : call BotDatabase dbAdd dbRemove config c db = (false, db)).
    { specialize (H c (or_introl eq_refl)).
      destruct c; simpl in *; unfold addToWhitelist, removeFromWhitelist;
        now rewrite H. }
    rewrite Hc, IH; [reflexivity|].
    intros c' Hc'. apply H. now right. }
  split; [exact E|]. intros userId. now rewrite E.
Qed.

Lemma only_admins_change_whitelist_witness :
  let config := {| adminUserIds := ["admin_1"%string] |} in
  let dbAdd := fun (u _ : string) (db : list string) => (true, u :: db) in
  let dbRemove := fun (u : string) (db : list string) =>
                    (true, filter (fun x => negb (String.eqb x u)) db) in
  calls (list string) dbAdd dbRemove config
    [AddToWhitelist "user_2" "user_1"; RemoveFromWhitelist "user_3" "user_1"]%string
    ["user_3"%string]
  = ([false; false], ["user_3"%string]).
Proof.
  intros config dbAdd dbRemove.
  apply (only_admins_change_whitelist (list string)
           (fun u db => existsb (String.eqb u) db) dbAdd dbRemove config
           [AddToWhitelist "user_2" "user_1";
            RemoveFromWhitelist "user_3" "user_1"]%string ["user_3"%string]).
  intros c [<-|[<-|[]]]; reflexivity.
Defined.

End AuthManagerFacts.
